(** * oscd-replace-ieds: subscription matching, supervision records and
      wiring-preserving device replacement

    A shallow embedding of [foundation/subscription/subscription.ts] and of
    the [replaceIeds] method of the plugin class, over a small model of the
    XML document tree the code works on. *)

From Stdlib Require Import String List ZArith Bool Lia Ascii Arith.
From Stdlib Require Import DecimalString DecimalNat.
Import ListNotations.
Open Scope string_scope.
Open Scope list_scope.
Set Warnings "-register-all".

(** ** The document tree *)

Module Dom.

(** A node object of the DOM has an identity of its own, which survives
    edits of the tree around it; it is modelled by a number. *)
Definition NodeId := nat.

(** Attributes of an element, in document order. *)
Definition Attrs := list (string * string).

Inductive Node : Type :=
| Elem (id : NodeId) (tag : string) (attrs : Attrs) (children : list Node)
| Text (data : string).

(** An element as the code holds it: the node and the chain of its ancestor
    elements, the parent first.  A detached element has no ancestors. *)
Record Element : Type := mkElement { node : Node; ancestors : list Node }.

Definition idOf (n : Node) : option NodeId :=
  match n with Elem i _ _ _ => Some i | Text _ => None end.

Definition tagOf (n : Node) : string :=
  match n with Elem _ t _ _ => t | Text _ => "#text" end.

Definition attrsOf (n : Node) : Attrs :=
  match n with Elem _ _ a _ => a | Text _ => [] end.

Definition childrenOf (n : Node) : list Node :=
  match n with Elem _ _ _ cs => cs | Text _ => [] end.

Definition isElem (n : Node) : bool :=
  match n with Elem _ _ _ _ => true | Text _ => false end.

Definition hasId (i : NodeId) (n : Node) : bool :=
  match n with Elem j _ _ _ => Nat.eqb i j | Text _ => false end.

Definition elementId (e : Element) : option NodeId := idOf (node e).
Definition tagName (e : Element) : string := tagOf (node e).

Definition sameNode (a b : Element) : bool :=
  match elementId a, elementId b with
  | Some i, Some j => Nat.eqb i j
  | _, _ => false
  end.

(** [Element.getAttribute]: [None] is JavaScript's [null]. *)
Fixpoint lookupAttr (name : string) (a : Attrs) : option string :=
  match a with
  | [] => None
  | (k, v) :: rest => if String.eqb k name then Some v else lookupAttr name rest
  end.

Definition getAttribute (e : Element) (name : string) : option string :=
  lookupAttr name (attrsOf (node e)).

Definition hasAttribute (e : Element) (name : string) : bool :=
  match getAttribute e name with Some _ => true | None => false end.

(** [Element.setAttribute] on a node: replaces the value in place, or appends
    the attribute. *)
Fixpoint putAttr (name value : string) (a : Attrs) : Attrs :=
  match a with
  | [] => [(name, value)]
  | (k, v) :: rest =>
      if String.eqb k name then (k, value) :: rest
      else (k, v) :: putAttr name value rest
  end.

Definition setAttribute (n : Node) (name value : string) : Node :=
  match n with
  | Elem i t a cs => Elem i t (putAttr name value a) cs
  | Text s => Text s
  end.

(** [Node.textContent]: the text of all descendants, in document order. *)
Fixpoint textContent (n : Node) : string :=
  match n with
  | Text s => s
  | Elem _ _ _ cs => String.concat "" (map textContent cs)
  end.

(** The values an optional chain [a?.getAttribute(n)] can take. *)
Inductive JsValue : Type :=
| JsUndefined
| JsNull
| JsString (s : string).

Definition ofNullable (o : option string) : JsValue :=
  match o with Some s => JsString s | None => JsNull end.

(** [e?.getAttribute(name)] *)
Definition optAttribute (e : option Element) (name : string) : JsValue :=
  match e with
  | None => JsUndefined
  | Some x => ofNullable (getAttribute x name)
  end.

(** [v ?? d] *)
Definition orElse (v : JsValue) (d : string) : string :=
  match v with JsString s => s | _ => d end.

(** [!v] *)
Definition falsy (v : JsValue) : bool :=
  match v with
  | JsString s => String.eqb s ""
  | _ => true
  end.

(** [`${v}`] *)
Definition toText (v : JsValue) : string :=
  match v with
  | JsUndefined => "undefined"
  | JsNull => "null"
  | JsString s => s
  end.

(** [a === b] *)
Definition strictEq (a b : JsValue) : bool :=
  match a, b with
  | JsUndefined, JsUndefined => true
  | JsNull, JsNull => true
  | JsString s, JsString t => String.eqb s t
  | _, _ => false
  end.

(** *** Walking the tree *)

Definition parentElement (e : Element) : option Element :=
  match ancestors e with
  | [] => None
  | p :: up => Some (mkElement p up)
  end.

Fixpoint chain (l : list Node) : list Element :=
  match l with
  | [] => []
  | n :: up => mkElement n up :: chain up
  end.

(** The element and its ancestors, nearest first. *)
Definition inclusiveAncestors (e : Element) : list Element :=
  e :: chain (ancestors e).

(** All elements of the subtree of [n], [n] included, in document order. *)
Fixpoint walk (up : list Node) (n : Node) : list Element :=
  match n with
  | Text _ => []
  | Elem _ _ _ cs => mkElement n up :: flat_map (walk (n :: up)) cs
  end.

Definition descendants (e : Element) : list Element :=
  flat_map (walk (node e :: ancestors e)) (childrenOf (node e)).

(** [Element.children] *)
Definition childElements (e : Element) : list Element :=
  map (fun c => mkElement c (node e :: ancestors e))
      (filter isElem (childrenOf (node e))).

Fixpoint elementAfter (x : Element) (l : list Element) : option Element :=
  match l with
  | [] => None
  | y :: rest =>
      if sameNode x y then hd_error rest else elementAfter x rest
  end.

Fixpoint elementBefore (prev : option Element) (x : Element)
    (l : list Element) : option Element :=
  match l with
  | [] => None
  | y :: rest =>
      if sameNode x y then prev else elementBefore (Some y) x rest
  end.

Definition nextElementSibling (e : Element) : option Element :=
  match parentElement e with
  | None => None
  | Some p => elementAfter e (childElements p)
  end.

Definition previousElementSibling (e : Element) : option Element :=
  match parentElement e with
  | None => None
  | Some p => elementBefore None e (childElements p)
  end.

(** *** Selectors

    The fragment of CSS the code uses: type and attribute-value tests,
    [:last-child], [:scope], the child and descendant combinators and comma
    lists.  Selector strings of the source are written as terms of this
    type. *)

Inductive Simple : Type :=
| STag (t : string)
| SAttr (name value : string)
| SLastChild
| SScope.

Definition Compound := list Simple.

Inductive Complex : Type :=
| Sel (c : Compound)
| Child (left : Complex) (c : Compound)
| Desc (left : Complex) (c : Compound).

Definition Selector := list Complex.

Definition isLastChild (e : Element) : bool :=
  match parentElement e with
  | None => false
  | Some p =>
      match last (map Some (childElements p)) None with
      | Some l => sameNode e l
      | None => false
      end
  end.

Definition matchSimple (scope : option NodeId) (s : Simple) (e : Element)
  : bool :=
  match s with
  | STag t => String.eqb (tagName e) t
  | SAttr n v =>
      match getAttribute e n with
      | Some w => String.eqb w v
      | None => false
      end
  | SLastChild => isLastChild e
  | SScope =>
      match scope, elementId e with
      | Some i, Some j => Nat.eqb i j
      | _, _ => false
      end
  end.

Definition matchCompound (scope : option NodeId) (c : Compound) (e : Element)
  : bool :=
  isElem (node e) && forallb (fun s => matchSimple scope s e) c.

Fixpoint matchComplex (scope : option NodeId) (x : Complex) (e : Element)
  : bool :=
  match x with
  | Sel c => matchCompound scope c e
  | Child l c =>
      matchCompound scope c e &&
      match parentElement e with
      | Some p => matchComplex scope l p
      | None => false
      end
  | Desc l c =>
      matchCompound scope c e &&
      existsb (matchComplex scope l) (chain (ancestors e))
  end.

Definition matches (scope : option NodeId) (s : Selector) (e : Element)
  : bool :=
  existsb (fun x => matchComplex scope x e) s.

(** [Element.querySelectorAll], [Element.querySelector] and
    [Element.closest]. *)
Definition querySelectorAll (e : Element) (s : Selector) : list Element :=
  filter (matches (elementId e) s) (descendants e).

Definition querySelector (e : Element) (s : Selector) : option Element :=
  hd_error (querySelectorAll e s).

Definition closest (e : Element) (s : Selector) : option Element :=
  find (matches (elementId e) s) (inclusiveAncestors e).

(** A document is given by its document element.  [Document.querySelector]
    also considers the document element itself. *)
Definition Document := Node.

Definition documentElement (doc : Document) : Element := mkElement doc [].

Definition docQuerySelectorAll (doc : Document) (s : Selector)
  : list Element :=
  filter (matches None s) (walk [] doc).

Definition docQuerySelector (doc : Document) (s : Selector)
  : option Element :=
  hd_error (docQuerySelectorAll doc s).

(** [e?.closest(s) ?? undefined] *)
Definition optClosest (e : option Element) (s : Selector) : option Element :=
  match e with
  | None => None
  | Some x => closest x s
  end.

(** [document.createElementNS(SCL_NAMESPACE, tag)]: a new, detached element
    whose identity is [i]. *)
Definition createElement (i : NodeId) (tag : string) : Node :=
  Elem i tag [] [].

Definition appendChild (parent child : Node) : Node :=
  match parent with
  | Elem i t a cs => Elem i t a (cs ++ [child])
  | Text s => Text s
  end.

(** [node.textContent = v] *)
Definition setTextContent (n : Node) (v : option string) : Node :=
  match n with
  | Elem i t a _ =>
      Elem i t a (match v with
                  | Some s => if String.eqb s "" then [] else [Text s]
                  | None => []
                  end)
  | Text s => Text s
  end.

Definition detached (n : Node) : Element := mkElement n [].

(** [Element.getElementsByTagName] and [Document.getElementsByTagName]: the
    descendants, respectively all elements of the document, with the given
    tag, in document order. *)
Definition getElementsByTagName (e : Element) (tag : string)
  : list Element :=
  filter (fun x => String.eqb (tagName x) tag) (descendants e).

Definition docGetElementsByTagName (doc : Document) (tag : string)
  : list Element :=
  filter (fun x => String.eqb (tagName x) tag) (walk [] doc).

End Dom.

Import Dom.

(** ** The host's edit primitives ([@openscd/open-scd-core]) *)

Module Core.

(** [Remove = { node }] and [Insert = { parent, node, reference }].  The code
    refers to nodes of the document by the objects it holds; a node that is
    inserted is carried as the subtree it is at that moment.  [None] for
    [node] of a removal or for [parent] is the [null] of a lookup that found
    nothing, which the source passes on under a non-null assertion. *)
Inductive Parent : Type :=
| NullParent
| DocumentParent
| ElementParent (e : Element).

Inductive Edit : Type :=
| Remove (node : option Element)
| Insert (parent : Parent) (node : Node) (reference : option Element).

(** [<Element>lookup] used as a parent *)
Definition parentOf (o : option Element) : Parent :=
  match o with Some e => ElementParent e | None => NullParent end.

Definition isRemove (e : Edit) : bool :=
  match e with Remove _ => true | Insert _ _ _ => false end.

(** Removes every node with identity [i] below the root of [n]. *)
Fixpoint removeById (i : NodeId) (n : Node) : Node :=
  match n with
  | Text s => Text s
  | Elem j t a cs =>
      Elem j t a (filter (fun c => negb (hasId i c)) (map (removeById i) cs))
  end.

Fixpoint placeBefore (new : Node) (r : NodeId) (cs : list Node) : list Node :=
  match cs with
  | [] => [new]
  | c :: rest =>
      if hasId r c then new :: c :: rest else c :: placeBefore new r rest
  end.

Definition place (new : Node) (reference : option NodeId) (cs : list Node)
  : list Node :=
  match reference with
  | None => cs ++ [new]
  | Some r => placeBefore new r cs
  end.

Fixpoint insertInto (p : NodeId) (new : Node) (reference : option NodeId)
    (n : Node) : Node :=
  match n with
  | Text s => Text s
  | Elem j t a cs =>
      let cs' := map (insertInto p new reference) cs in
      Elem j t a (if Nat.eqb j p then place new reference cs' else cs')
  end.

(** The element with identity [i] as it is found in [doc]. *)
Definition locate (doc : Document) (i : NodeId) : option Element :=
  find (fun e => hasId i (node e)) (walk [] doc).

Definition findNode (i : NodeId) (n : Node) : option Node :=
  option_map node (locate n i).

Definition occursIn (i : NodeId) (n : Node) : bool :=
  match findNode i n with Some _ => true | None => false end.

(** Modelled from the spec: the host's handling of [Remove{ node }], which
    takes the node out of the tree.  A node that is not in the document (it
    was removed before, or never inserted) leaves the document as it is. *)
Definition handleRemove (doc : Document) (node : option Element)
  : Document :=
  match node with
  | Some e =>
      match elementId e with
      | Some i => removeById i doc
      | None => doc
      end
  | None => doc
  end.

(** Modelled from the spec: the host's handling of
    [Insert{ parent, node, reference }]: [node] lands under [parent] before
    the existing sibling [reference], or at the end when [reference] is
    absent.  An insertion the tree cannot take (no parent, a parent outside
    the document, a reference that is not a child of the parent, a node that
    contains the parent, a second element for the document node) has no
    effect on the document; a node already in the document moves. *)
Definition handleInsert (doc : Document) (parent : Parent)
    (new : Node) (reference : option Element) : Document :=
  match parent, idOf new with
  | ElementParent pe, Some k =>
      match elementId pe with
      | None => doc
      | Some p =>
          match findNode p doc with
          | None => doc
          | Some pn =>
              if occursIn p new then doc
              else
                match reference with
                | None => insertInto p new None (removeById k doc)
                | Some re =>
                    match elementId re with
                    | None => doc
                    | Some r =>
                        if existsb (hasId r) (childrenOf pn) then
                          if Nat.eqb r k then doc
                          else insertInto p new (Some r) (removeById k doc)
                        else doc
                    end
                end
          end
      end
  | _, _ => doc
  end.

Definition handleEdit (doc : Document) (e : Edit) : Document :=
  match e with
  | Remove n => handleRemove doc n
  | Insert p n r => handleInsert doc p n r
  end.

(** A batch is applied in order, as one transaction. *)
Definition handleEdits (doc : Document) (batch : list Edit) : Document :=
  fold_left handleEdit batch doc.

End Core.

Import Core.

(** ** foundation/subscription/subscription.ts *)

Module Subscription.

Definition sameAttributeValue (leftElement rightElement : option Element)
    (attributeName : string) : bool :=
  String.eqb (orElse (optAttribute leftElement attributeName) "")
             (orElse (optAttribute rightElement attributeName) "").

Definition sameAttributeValueDiffName
    (leftElement : option Element) (leftAttributeName : string)
    (rightElement : option Element) (rightAttributeName : string) : bool :=
  String.eqb (orElse (optAttribute leftElement leftAttributeName) "")
             (orElse (optAttribute rightElement rightAttributeName) "").

(** The edition is the concatenation of three attributes of the document
    element; the type [SclEdition] of the source is a cast of that string. *)
Definition getSclSchemaVersion (doc : Document) : string :=
  let scl := documentElement doc in
  (orElse (ofNullable (getAttribute scl "version")) "2003" ++
   orElse (ofNullable (getAttribute scl "revision")) "" ++
   orElse (ofNullable (getAttribute scl "release")) "")%string.

(** The two control block kinds the matcher is typed for. *)
Inductive ControlTag : Type := SampledValueControl | GSEControl.

Definition controlTagName (k : ControlTag) : string :=
  match k with
  | SampledValueControl => "SampledValueControl"
  | GSEControl => "GSEControl"
  end.

(** [serviceTypes[controlTagName]] *)
Definition serviceTypes (k : ControlTag) : string :=
  match k with
  | GSEControl => "GOOSE"
  | SampledValueControl => "SMV"
  end.

(** [doc] is [extRefElement.ownerDocument]. *)
Definition checkEditionSpecificRequirements (doc : Document)
    (k : ControlTag) (controlElement : option Element)
    (extRefElement : Element) : bool :=
  if String.eqb (getSclSchemaVersion doc) "2003" then true
  else
    let lDeviceElement := optClosest controlElement [Sel [STag "LDevice"]] in
    let lnElement := optClosest controlElement [Sel [STag "LN0"]] in
    String.eqb (orElse (ofNullable (getAttribute extRefElement "serviceType")) "")
               (serviceTypes k) &&
    sameAttributeValueDiffName (Some extRefElement) "srcLDInst"
                               lDeviceElement "inst" &&
    sameAttributeValueDiffName (Some extRefElement) "srcPrefix"
                               lnElement "prefix" &&
    sameAttributeValueDiffName (Some extRefElement) "srcLNClass"
                               lnElement "lnClass" &&
    sameAttributeValueDiffName (Some extRefElement) "srcLNInst"
                               lnElement "inst" &&
    sameAttributeValueDiffName (Some extRefElement) "srcCBName"
                               controlElement "name".

Definition isSubscribed (extRefElement : Element) : bool :=
  hasAttribute extRefElement "iedName" &&
  hasAttribute extRefElement "ldInst" &&
  hasAttribute extRefElement "lnClass" &&
  hasAttribute extRefElement "lnInst" &&
  hasAttribute extRefElement "doName" &&
  hasAttribute extRefElement "daName".

Definition isSubscribedTo (doc : Document) (k : ControlTag)
    (controlElement fcdaElement : option Element) (extRefElement : Element)
  : bool :=
  strictEq (ofNullable (getAttribute extRefElement "iedName"))
           (optAttribute (optClosest fcdaElement [Sel [STag "IED"]]) "name") &&
  sameAttributeValue fcdaElement (Some extRefElement) "ldInst" &&
  sameAttributeValue fcdaElement (Some extRefElement) "prefix" &&
  sameAttributeValue fcdaElement (Some extRefElement) "lnClass" &&
  sameAttributeValue fcdaElement (Some extRefElement) "lnInst" &&
  sameAttributeValue fcdaElement (Some extRefElement) "doName" &&
  sameAttributeValue fcdaElement (Some extRefElement) "daName" &&
  checkEditionSpecificRequirements doc k controlElement extRefElement.

Definition anyLnSelector : Selector := [Sel [STag "LN"]; Sel [STag "LN0"]].

Definition controlBlockReference (controlBlock : option Element)
  : option string :=
  match controlBlock with
  | None => None
  | Some cb =>
      let anyLn := closest cb anyLnSelector in
      let prefix := orElse (optAttribute anyLn "prefix") "" in
      let lnClass := optAttribute anyLn "lnClass" in
      let lnInst := orElse (optAttribute anyLn "inst") "" in
      let ldInst := optAttribute (closest cb [Sel [STag "LDevice"]]) "inst" in
      let iedName := optAttribute (closest cb [Sel [STag "IED"]]) "name" in
      let cbName := ofNullable (getAttribute cb "name") in
      if falsy cbName && falsy iedName && falsy ldInst && falsy lnClass
      then None
      else Some (toText iedName ++ toText ldInst ++ "/" ++ prefix ++
                 toText lnClass ++ lnInst ++ "." ++ toText cbName)%string
  end.

(** [!item.closest('Private')] *)
Definition outsidePrivate (item : Element) : bool :=
  match closest item [Sel [STag "Private"]] with
  | Some _ => false
  | None => true
  end.

(** [(fcda.getAttribute(name) ?? '') === (value ?? '')] *)
Definition sameOrEmpty (fcda : Element) (name : string) (value : JsValue)
  : bool :=
  String.eqb (orElse (ofNullable (getAttribute fcda name)) "")
             (orElse value "").

(** [doc] is [extRef.ownerDocument]. *)
Definition findFCDAs (doc : Document) (extRef : Element) : list Element :=
  if negb (String.eqb (tagName extRef) "ExtRef") ||
     negb (outsidePrivate extRef)
  then []
  else
    let attribute name := ofNullable (getAttribute extRef name) in
    let iedName := attribute "iedName" in
    let ldInst := attribute "ldInst" in
    let prefix := attribute "prefix" in
    let lnClass := attribute "lnClass" in
    let lnInst := attribute "lnInst" in
    let doName := attribute "doName" in
    let daName := attribute "daName" in
    match
      find (fun element =>
              strictEq (ofNullable (getAttribute element "name")) iedName &&
              outsidePrivate element)
           (docGetElementsByTagName doc "IED")
    with
    | None => []
    | Some ied =>
        filter
          (fun fcda =>
             sameOrEmpty fcda "ldInst" ldInst &&
             sameOrEmpty fcda "prefix" prefix &&
             sameOrEmpty fcda "lnClass" lnClass &&
             sameOrEmpty fcda "lnInst" lnInst &&
             sameOrEmpty fcda "doName" doName &&
             sameOrEmpty fcda "daName" daName)
          (filter outsidePrivate (getElementsByTagName ied "FCDA"))
    end.

(** *** Supervision records *)

Definition supervisionTypeOf (cbTagName : string) : string :=
  if String.eqb cbTagName "GSEControl" then "LGOS" else "LSVS".

Definition supervisionNameOf (supervisionType : string) : string :=
  if String.eqb supervisionType "LGOS" then "GoCBRef" else "SvCBRef".

(** [LN[lnClass="T"]] *)
Definition lnOfClass (supervisionType : string) : Selector :=
  [Sel [STag "LN"; SAttr "lnClass" supervisionType]].

(** [DOI[name="N"]>DAI[name="setSrcRef"]] *)
Definition doiDai (supervisionName : string) : Complex :=
  Child (Sel [STag "DOI"; SAttr "name" supervisionName])
        [STag "DAI"; SAttr "name" "setSrcRef"].

(** [DOI[name="N"]>DAI[name="setSrcRef"]>Val] *)
Definition doiDaiVal (supervisionName : string) : Complex :=
  Child (doiDai supervisionName) [STag "Val"].

(** [ln[lnClass="T"]>DOI[name="N"]>DAI[name="setSrcRef"]>Val] *)
Definition cbRefPath (ln supervisionType supervisionName : string)
  : Complex :=
  Child (Child (Child (Sel [STag ln; SAttr "lnClass" supervisionType])
                      [STag "DOI"; SAttr "name" supervisionName])
               [STag "DAI"; SAttr "name" "setSrcRef"])
        [STag "Val"].

Definition getSupervisionCbRefs (ied : Element) (cbTagName : string)
  : list Element :=
  let supervisionType := supervisionTypeOf cbTagName in
  let supervisionName := supervisionNameOf supervisionType in
  querySelectorAll ied
    [cbRefPath "LN" supervisionType supervisionName;
     cbRefPath "LN0" supervisionType supervisionName].

(** [val.textContent === controlBlockReference(controlBlock)]: a text is
    never equal to [null]. *)
Definition holdsReference (reference : option string) (val : Element)
  : bool :=
  match reference with
  | Some r => String.eqb (textContent (node val)) r
  | None => false
  end.

(** The source builds its selectors by putting [supervisionType], [lnType],
    [lnClass] and the [type] of the [DO] between double quotes.  The
    attribute tests below are what these selectors mean for values without
    a double quote, a backslash or a line break; for other values the
    selector of the source is another one, or none at all. *)
Definition isSupervisionModificationAllowed (doc : Document) (ied : Element)
    (supervisionType : string) : bool :=
  match querySelector ied (lnOfClass supervisionType) with
  | None => false
  | Some firstSupervisionLN =>
      let supervisionName := supervisionNameOf supervisionType in
      let dai := querySelector firstSupervisionLN [doiDai supervisionName] in
      let instValKind := optAttribute dai "valKind" in
      let instValImport := optAttribute dai "valImport" in
      if (strictEq instValKind (JsString "RO") ||
          strictEq instValKind (JsString "Conf")) &&
         strictEq instValImport (JsString "true")
      then true
      else
        let lNodeType := ofNullable (getAttribute firstSupervisionLN "lnType") in
        let lnClass := ofNullable (getAttribute firstSupervisionLN "lnClass") in
        let dObj :=
          docQuerySelector doc
            [Child (Child (Sel [STag "DataTypeTemplates"])
                          [STag "LNodeType"; SAttr "id" (toText lNodeType);
                           SAttr "lnClass" (toText lnClass)])
                   [STag "DO";
                    SAttr "name" (if strictEq lnClass (JsString "LGOS")
                                  then "GoCBRef" else "SvCBRef")]] in
        match dObj with
        | None => false
        | Some d =>
            let dORef := ofNullable (getAttribute d "type") in
            let daObj :=
              docQuerySelector doc
                [Child (Child (Sel [STag "DataTypeTemplates"])
                              [STag "DOType"; SAttr "id" (toText dORef)])
                       [STag "DA"; SAttr "name" "setSrcRef"]] in
            match daObj with
            | None => false
            | Some da =>
                (strictEq (ofNullable (getAttribute da "valKind"))
                          (JsString "Conf") ||
                 strictEq (ofNullable (getAttribute da "valKind"))
                          (JsString "RO")) &&
                strictEq (ofNullable (getAttribute da "valImport"))
                         (JsString "true")
            end
        end
  end.

(** The value the supervision search of [removeSubscriptionSupervision]
    settles on: the first [Val] whose text is the control block's
    reference. *)
Definition findSupervisionVal (controlBlock subscriberIED : Element)
  : option Element :=
  find (holdsReference (controlBlockReference (Some controlBlock)))
       (getSupervisionCbRefs subscriberIED (tagName controlBlock)).

(** [lnElement.querySelector('Private[type="OpenSCD.create"]')], as a truth
    value. *)
Definition isOpenScdCreated (lnElement : Element) : bool :=
  match querySelector lnElement
          [Sel [STag "Private"; SAttr "type" "OpenSCD.create"]]
  with
  | Some _ => true
  | None => false
  end.

Definition removeSubscriptionSupervision
    (controlBlock subscriberIED : option Element) : list Edit :=
  match controlBlock, subscriberIED with
  | Some cb, Some ied =>
      match findSupervisionVal cb ied with
      | None => []
      | Some valElement =>
          match closest valElement [Sel [STag "LN0"]; Sel [STag "LN"]] with
          | None => []
          | Some lnElement =>
              match parentElement lnElement with
              | None => []
              | Some _ =>
                  if isOpenScdCreated lnElement
                  then [Remove (Some lnElement)]
                  else [Remove (closest valElement [Sel [STag "DOI"]])]
              end
          end
      end
  | _, _ => []
  end.

(** *** Capacity *)

Definition isDigit (c : ascii) : bool :=
  (48 <=? nat_of_ascii c)%nat && (nat_of_ascii c <=? 57)%nat.

Definition digitValue (c : ascii) : Z := Z.of_nat (nat_of_ascii c - 48).

(** White space that [parseInt] skips, as far as it is ASCII. *)
Definition isWhiteSpace (c : ascii) : bool :=
  let n := nat_of_ascii c in
  (Nat.eqb n 9 || Nat.eqb n 10 || Nat.eqb n 11 || Nat.eqb n 12 ||
   Nat.eqb n 13 || Nat.eqb n 32)%bool.

Fixpoint trimStart (s : string) : string :=
  match s with
  | String c rest => if isWhiteSpace c then trimStart rest else s
  | EmptyString => s
  end.

Fixpoint leadingDigits (acc : option Z) (s : string) : option Z :=
  match s with
  | String c rest =>
      if isDigit c
      then leadingDigits
             (Some (10 * match acc with Some a => a | None => 0 end
                    + digitValue c)%Z) rest
      else acc
  | EmptyString => acc
  end.

(** [parseInt(s, 10)]; [None] is [NaN].  The model is exact for strings
    whose leading white space is ASCII and for numbers up to 2^53 - 1: the
    source also skips white space outside ASCII and rounds larger numbers.
    The result is compared with a count only, for which the rounding of
    large numbers does not matter. *)
Definition parseInt (s : string) : option Z :=
  match trimStart s with
  | String "-"%char rest => option_map Z.opp (leadingDigits None rest)
  | String "+"%char rest => leadingDigits None rest
  | t => leadingDigits None t
  end.

Definition maxSupervisions (subscriberIED : Element)
    (controlBlockType : string) : Z :=
  let maxAttr :=
    if String.eqb controlBlockType "GSEControl" then "maxGo" else "maxSv" in
  let maxValues :=
    parseInt
      (orElse
         (optAttribute
            (querySelector subscriberIED
               [Child (Sel [STag "Services"]) [STag "SupSubscription"]])
            maxAttr)
         "0") in
  match maxValues with
  | None => 0%Z
  | Some n => n
  end.

Definition instantiatedSupervisionsCount (subscriberIED controlBlock : Element)
  : Z :=
  let instantiatedValues :=
    filter (fun val => negb (String.eqb (textContent (node val)) ""))
           (getSupervisionCbRefs subscriberIED (tagName controlBlock)) in
  Z.of_nat (length instantiatedValues).

(** [doc] is [subscriberIED.ownerDocument]. *)
Definition isSupervisionAllowed (doc : Document)
    (controlBlock subscriberIED : Element) (supervisionType : string)
  : bool :=
  if String.eqb (getSclSchemaVersion doc) "2003" then false
  else
    match querySelector subscriberIED (lnOfClass supervisionType) with
    | None => false
    | Some _ =>
        match findSupervisionVal controlBlock subscriberIED with
        | Some _ => false
        | None =>
            if (maxSupervisions subscriberIED (tagName controlBlock) <=?
                instantiatedSupervisionsCount subscriberIED controlBlock)%Z
            then false
            else true
        end
    end.

(** *** Allocation *)

Section Allocation.

(** [minAvailableLogicalNodeInstance] of [foundation.ts], which is not part
    of the sources at hand: the lowest instance number that none of the given
    logical nodes uses, [None] when there is none. *)
Variable minAvailableLogicalNodeInstance : list Element -> option string.

(** Identities from [fresh] on are not in use; the new [LN] takes [fresh]
    and its [Private] child [fresh + 1]. *)
Definition createNewSupervisionLnInst (fresh : NodeId)
    (controlBlock subscriberIED : Element) (supervisionType : string)
  : option Element :=
  let newLN := createElement fresh "LN" in
  let openScdTag :=
    setAttribute (createElement (fresh + 1) "Private") "type" "OpenSCD.create" in
  let newLN := appendChild newLN openScdTag in
  let newLN := setAttribute newLN "lnClass" supervisionType in
  let instantiatedSiblings :=
    optClosest (hd_error (getSupervisionCbRefs subscriberIED
                            (tagName controlBlock)))
               [Sel [STag "LN"]] in
  match instantiatedSiblings with
  | None => None
  | Some sibling =>
      let newLN :=
        setAttribute newLN "lnType"
          (orElse (ofNullable (getAttribute sibling "lnType")) "") in
      let inst := orElse (ofNullable (getAttribute (detached newLN) "inst")) "" in
      if String.eqb inst "" then
        match minAvailableLogicalNodeInstance
                (querySelectorAll subscriberIED (lnOfClass supervisionType))
        with
        | None => None
        | Some instNumber =>
            if String.eqb instNumber "" then None
            else Some (detached (setAttribute newLN "inst" instNumber))
        end
      else Some (detached newLN)
  end.

Definition isAvailableLN (supervisionType : string) (ln : Element) : bool :=
  let supervisionName := supervisionNameOf supervisionType in
  match querySelector ln [doiDaiVal supervisionName] with
  | None => true
  | Some val => String.eqb (textContent (node val)) ""
  end.

Definition findOrCreateAvailableLNInst (fresh : NodeId)
    (controlBlock subscriberIED : Element) (supervisionType : string)
  : option Element :=
  match find (isAvailableLN supervisionType)
             (querySelectorAll subscriberIED (lnOfClass supervisionType))
  with
  | Some availableLN => Some availableLN
  | None =>
      createNewSupervisionLnInst fresh controlBlock subscriberIED
                                 supervisionType
  end.

(** The edits of the new [LN] itself, when it is not in the tree yet. *)
Definition insertOfSupervisionLN (subscriberIED availableLN : Element)
    (supervisionType : string) : list Edit :=
  match parentElement availableLN with
  | Some _ => []
  | None =>
      match
        match querySelector subscriberIED (lnOfClass supervisionType) with
        | Some first => parentElement first
        | None => None
        end
      with
      | None => []
      | Some parent =>
          [Insert (ElementParent parent) (node availableLN)
             (match querySelector parent
                      [Sel [STag "LN"; SAttr "lnClass" supervisionType;
                            SLastChild]]
              with
              | Some l => nextElementSibling l
              | None => None
              end)]
      end
  end.

(** The [DOI] of the supervision: the one the logical node has, or a new
    one (identity [fresh + 2]) with the edit that inserts it. *)
Definition newDoi (fresh : NodeId) (supervisionName : string) : Node :=
  setAttribute (createElement (fresh + 2) "DOI") "name" supervisionName.

Definition supervisionDoi (fresh : NodeId) (availableLN : Element)
    (supervisionName : string) (edits : list Edit) : Element * list Edit :=
  match querySelector availableLN
          [Sel [STag "DOI"; SAttr "name" supervisionName]]
  with
  | Some doi => (doi, edits)
  | None =>
      let doi := newDoi fresh supervisionName in
      (detached doi, edits ++ [Insert (ElementParent availableLN) doi None])
  end.

(** The [DAI] of the supervision: the one the logical node has, or a new
    one (identity [fresh + 3]) that takes [valKind] and [valImport] from the
    first supervision of the device. *)
Definition newDai (fresh : NodeId) (subscriberIED : Element)
    (supervisionType supervisionName : string) : Node :=
  let srcValRef :=
    querySelector subscriberIED
      [Child (Child (Sel [STag "LN"; SAttr "lnClass" supervisionType])
                    [STag "DOI"; SAttr "name" supervisionName])
             [STag "DAI"; SAttr "name" "setSrcRef"]] in
  let dai := setAttribute (createElement (fresh + 3) "DAI") "name" "setSrcRef" in
  let dai :=
    match optAttribute srcValRef "valKind" with
    | JsString v => setAttribute dai "valKind" v
    | _ => dai
    end in
  match optAttribute srcValRef "valImport" with
  | JsString v => setAttribute dai "valImport" v
  | _ => dai
  end.

Definition supervisionDai (fresh : NodeId)
    (subscriberIED availableLN doiElement : Element)
    (supervisionType supervisionName : string) (edits : list Edit)
  : Element * list Edit :=
  match querySelector availableLN [doiDai supervisionName] with
  | Some dai => (dai, edits)
  | None =>
      let dai := newDai fresh subscriberIED supervisionType supervisionName in
      (detached dai, edits ++ [Insert (ElementParent doiElement) dai None])
  end.

(** The new [Val] (identity [fresh + 4]) with the reference of the control
    block as its text. *)
Definition newVal (fresh : NodeId) (controlBlock : Element) : Node :=
  setTextContent (createElement (fresh + 4) "Val")
                 (controlBlockReference (Some controlBlock)).

Definition supervisionVal (fresh : NodeId)
    (controlBlock availableLN daiElement : Element) (edits : list Edit)
  : list Edit :=
  let edits :=
    match querySelector availableLN [Sel [STag "Val"]] with
    | Some valElement => edits ++ [Remove (Some valElement)]
    | None => edits
    end in
  edits ++ [Insert (ElementParent daiElement) (newVal fresh controlBlock) None].

(** [doc] is the owner document of the two elements. *)
Definition instantiateSubscriptionSupervision (doc : Document)
    (fresh : NodeId) (controlBlock subscriberIED : option Element)
    (existingSupervision : option Element) : list Edit :=
  let supervisionType :=
    match controlBlock with
    | Some cb => supervisionTypeOf (tagName cb)
    | None => "LSVS"
    end in
  match controlBlock, subscriberIED with
  | Some cb, Some ied =>
      if negb (isSupervisionAllowed doc cb ied supervisionType) then []
      else
        let availableLN :=
          match existingSupervision with
          | Some ln => Some ln
          | None => findOrCreateAvailableLNInst fresh cb ied supervisionType
          end in
        match availableLN with
        | None => []
        | Some ln =>
            if negb (isSupervisionModificationAllowed doc ied supervisionType)
            then []
            else
              let edits := insertOfSupervisionLN ied ln supervisionType in
              let supervisionName := supervisionNameOf supervisionType in
              let '(doiElement, edits) :=
                supervisionDoi fresh ln supervisionName edits in
              let '(daiElement, edits) :=
                supervisionDai fresh ied ln doiElement supervisionType
                               supervisionName edits in
              supervisionVal fresh cb ln daiElement edits
        end
  | _, _ => []
  end.

End Allocation.

End Subscription.

(** ** oscd-replace-ieds.ts: the replacement of devices *)

Module Plugin.

(** [interface storedInput] *)
Record storedInput : Type := mkStoredInput { id : string; input : Node }.

(** [Map<string, [storedInput]>].  The key is what
    [getAttribute('name')!] gives, which at run time can be [null]. *)
Definition Sections := list (option string * list storedInput).

Definition sameKey (a b : option string) : bool :=
  match a, b with
  | Some x, Some y => String.eqb x y
  | None, None => true
  | _, _ => false
  end.

Fixpoint mapGet (k : option string) (m : Sections)
  : option (list storedInput) :=
  match m with
  | [] => None
  | (k', v) :: rest => if sameKey k k' then Some v else mapGet k rest
  end.

(** [m.has(k) ? m.get(k).push(x) : m.set(k, [x])] *)
Fixpoint mapPush (k : option string) (x : storedInput) (m : Sections)
  : Sections :=
  match m with
  | [] => [(k, [x])]
  | (k', v) :: rest =>
      if sameKey k k' then (k', v ++ [x]) :: rest
      else (k', v) :: mapPush k x rest
  end.

(** [node.cloneNode(true)] and [doc.importNode(node, true)]: a copy of the
    subtree made of new node objects, numbered from [fresh] on; the second
    component is the next unused identity. *)
Fixpoint cloneNode (n : Node) (fresh : NodeId) : Node * NodeId :=
  match n with
  | Text s => (Text s, fresh)
  | Elem _ t a cs =>
      let '(cs', next) :=
        (fix copies (l : list Node) (f : NodeId) : list Node * NodeId :=
           match l with
           | [] => ([], f)
           | c :: rest =>
               let '(c', f1) := cloneNode c f in
               let '(rest', f2) := copies rest f1 in
               (c' :: rest', f2)
           end) cs (S fresh) in
      (Elem fresh t a cs', next)
  end.

(** What [this.replaceIedsUI?.selected] holds: nothing, one list item or an
    array of list items, each given by its [data-id]. *)
Inductive Selected : Type :=
| NothingSelected
| OneSelected (dataId : string)
| ManySelected (dataIds : list string).

Definition selectedItems (s : Selected) : list string :=
  match s with
  | NothingSelected => []
  | OneSelected i => [i]
  | ManySelected l => l
  end.

(** How a call ends: it returns, or an exception leaves it. *)
Inductive Completion : Type := Returned | Threw.

(** The document, the next unused node identity and the batches handed to
    the host so far, oldest first. *)
Record Run : Type := mkRun {
  document : Document;
  nextId : NodeId;
  dispatched : list (list Edit);
  completion : Completion
}.

(** [doc.querySelectorAll(':root > IED')].  The getter sorts the list with
    [compareNames], a stable sort on the [name] attribute, before it looks
    for the first device of a given name; that device is the first of that
    name in document order. *)
Definition iedList (doc : Document) : list Element :=
  filter (fun e => String.eqb (tagName e) "IED")
         (childElements (documentElement doc)).

(** The getter [selectedIed]: the template device. *)
Definition selectedIed (doc : Document) (selectedIEDs : list string)
  : option Element :=
  match selectedIEDs with
  | [] => None
  | first :: _ =>
      find (fun element =>
              strictEq (JsString first)
                       (ofNullable (getAttribute element "name")))
           (iedList doc)
  end.

(** The devices that [render] offers for replacement:
    [doc.querySelectorAll('IED')] without those that have the name of the
    template. *)
Definition replaceable (doc : Document) (selectedIEDs : list string)
  : list Element :=
  filter (fun candidateIed =>
            negb (strictEq (ofNullable (getAttribute candidateIed "name"))
                           (optAttribute (selectedIed doc selectedIEDs)
                                         "name")))
         (docQuerySelectorAll doc [Sel [STag "IED"]]).

(** [:scope LN > Inputs, :scope LN0 > Inputs] *)
Definition inputsOfLogicalNodes : Selector :=
  [Child (Desc (Sel [SScope]) [STag "LN"]) [STag "Inputs"];
   Child (Desc (Sel [SScope]) [STag "LN0"]) [STag "Inputs"]].

(** [:scope LN0 > GSEControl] *)
Definition gseControlsOfLN0 : Selector :=
  [Child (Desc (Sel [SScope]) [STag "LN0"]) [STag "GSEControl"]].

Section ReplaceIeds.

(** [`${identity(e)}`] of [foundation/identities/identity.ts] and
    [doc.querySelector(selector(tag, id))] with the [selector] of
    [foundation/identities/selector.ts]; neither file is part of the sources
    at hand. *)
Variable identity : option Element -> string.
Variable resolve : Document -> string -> string -> option Element.

(** Stores a copy of each section under the name of the device. *)
Fixpoint store (key : option string) (sections : list Element)
    (fresh : NodeId) (m : Sections) : NodeId * Sections :=
  match sections with
  | [] => (fresh, m)
  | section :: rest =>
      let '(copy, next) := cloneNode (node section) fresh in
      store key rest next
            (mapPush key
                     (mkStoredInput (identity (parentElement section)) copy)
                     m)
  end.

(** The first [selected.forEach]: [None] when the device is not found and
    the call on [null] throws. *)
Definition capture (doc : Document) (dataId : string)
    (st : NodeId * Sections * Sections)
  : option (NodeId * Sections * Sections) :=
  let '(fresh, inputsSections, gseControlSections) := st in
  match resolve doc "IED" dataId with
  | None => None
  | Some currentIed =>
      let currentIedName := getAttribute currentIed "name" in
      let '(fresh, inputsSections) :=
        store currentIedName
              (querySelectorAll currentIed inputsOfLogicalNodes)
              fresh inputsSections in
      let '(fresh, gseControlSections) :=
        store currentIedName
              (querySelectorAll currentIed gseControlsOfLN0)
              fresh gseControlSections in
      Some (fresh, inputsSections, gseControlSections)
  end.

Fixpoint captureAll (doc : Document) (items : list string)
    (st : NodeId * Sections * Sections)
  : option (NodeId * Sections * Sections) :=
  match items with
  | [] => Some st
  | item :: rest =>
      match capture doc item st with
      | None => None
      | Some st' => captureAll doc rest st'
      end
  end.

(** The batch that swaps the device for the renamed copy of the template. *)
Definition swapEdits (doc : Document) (currentIed : Element) (newIed : Node)
  : list Edit :=
  [Remove (Some currentIed);
   Insert (ElementParent (documentElement doc)) newIed
          (previousElementSibling currentIed)].

(** The edits for the stored input sections; [None] when a logical node of
    the new device has no [Inputs] and reading the sibling of [null]
    throws. *)
Fixpoint inputEdits (doc : Document) (stored : list storedInput)
    (inputActions : list Edit) : option (list Edit) :=
  match stored with
  | [] => Some inputActions
  | transferInput :: rest =>
      let lN :=
        match resolve doc "LN" (id transferInput) with
        | Some e => Some e
        | None => resolve doc "LN0" (id transferInput)
        end in
      match lN with
      | None => inputEdits doc rest inputActions
      | Some ln =>
          match querySelector ln [Sel [STag "Inputs"]] with
          | None => None
          | Some inputs =>
              inputEdits doc rest
                (inputActions ++
                 [Remove (Some inputs);
                  Insert (ElementParent ln) (input transferInput)
                         (nextElementSibling inputs)])
          end
      end
  end.

(** The edits for the stored control blocks; [None] when [lastGse] was
    never assigned and reading its sibling throws. *)
Fixpoint gseEdits (doc : Document) (lastGse : option Element)
    (stored : list storedInput) (inputActions : list Edit)
  : option (list Edit) :=
  match stored with
  | [] => Some inputActions
  | transferInput :: rest =>
      match lastGse with
      | None => None
      | Some gse =>
          gseEdits doc lastGse rest
            (inputActions ++
             [Insert (parentOf (resolve doc "LN0" (id transferInput)))
                     (input transferInput)
                     (nextElementSibling gse)])
      end
  end.

(** The object [currentIed] once the swap is done: if the host took it out
    of the document it is a detached subtree, unchanged inside. *)
Definition afterSwap (doc : Document) (currentIed : Element) : Element :=
  match elementId currentIed with
  | Some i =>
      match locate doc i with
      | Some e => e
      | None => detached (node currentIed)
      end
  | None => detached (node currentIed)
  end.

Definition rewireEdits (doc : Document) (currentIed : Element)
    (inputsSections gseControlSections : Sections)
    (currentIedName : option string) : option (list Edit) :=
  match mapGet currentIedName inputsSections with
  | None => None
  | Some storedInputs =>
      match inputEdits doc storedInputs [] with
      | None => None
      | Some inputActions =>
          let gseControls :=
            querySelectorAll (afterSwap doc currentIed)
                             [Sel [STag "GSEControl"]] in
          let inputActions :=
            (inputActions ++ map (fun g => Remove (Some g)) gseControls) in
          let lastGse := last (map Some gseControls) None in
          match mapGet currentIedName gseControlSections with
          | None => None
          | Some storedGse => gseEdits doc lastGse storedGse inputActions
          end
      end
  end.

(** One round of the second [selected.forEach]. *)
Definition replaceOne (selectedIEDs : list string)
    (inputsSections gseControlSections : Sections)
    (dataId : string) (st : Run) : Run :=
  let doc := document st in
  match resolve doc "IED" dataId with
  | None => mkRun doc (nextId st) (dispatched st) Threw
  | Some currentIed =>
      let currentIedName := getAttribute currentIed "name" in
      match selectedIed doc selectedIEDs with
      | None => mkRun doc (nextId st) (dispatched st) Threw
      | Some template =>
          let '(newIed, next) := cloneNode (node template) (nextId st) in
          let newIed :=
            setAttribute newIed "name" (toText (ofNullable currentIedName)) in
          let editActions := swapEdits doc currentIed newIed in
          let doc1 := handleEdits doc editActions in
          let sent := dispatched st ++ [editActions] in
          match rewireEdits doc1 currentIed inputsSections gseControlSections
                            currentIedName
          with
          | None => mkRun doc1 next sent Threw
          | Some inputActions =>
              mkRun (handleEdits doc1 inputActions) next
                    (sent ++ [inputActions]) Returned
          end
      end
  end.

Definition replaceAll (selectedIEDs : list string)
    (inputsSections gseControlSections : Sections)
    (items : list string) (st : Run) : Run :=
  fold_left
    (fun st item =>
       match completion st with
       | Threw => st
       | Returned =>
           replaceOne selectedIEDs inputsSections gseControlSections item st
       end)
    items st.

(** [replaceIeds()]: [doc] is [this.doc], [selected] is what the list of
    devices to replace reports and [selectedIEDs] the names chosen in the
    template selector. *)
Definition replaceIeds (doc : Document) (fresh : NodeId)
    (selected : Selected) (selectedIEDs : list string) : Run :=
  match selected, selectedIed doc selectedIEDs with
  | NothingSelected, _ => mkRun doc fresh [] Returned
  | _, None => mkRun doc fresh [] Returned
  | _, Some _ =>
      let items := selectedItems selected in
      match captureAll doc items (fresh, [], []) with
      | None => mkRun doc fresh [] Threw
      | Some (fresh1, inputsSections, gseControlSections) =>
          replaceAll selectedIEDs inputsSections gseControlSections items
                     (mkRun doc fresh1 [] Returned)
      end
  end.

End ReplaceIeds.

(** *** The earlier variant of [replaceIeds]

    The variant kept in [src/oscd-replace-ieds.ts]: it only transfers input
    sections, names the copy after the template and sends everything as one
    batch. *)

Module Legacy.

Section ReplaceIeds.

Variable identity : option Element -> string.
Variable resolve : Document -> string -> string -> option Element.

Definition capture (doc : Document) (dataId : string)
    (st : NodeId * Sections) : option (NodeId * Sections) :=
  let '(fresh, inputsSections) := st in
  match resolve doc "IED" dataId with
  | None => None
  | Some currentIed =>
      Some (store identity (getAttribute currentIed "name")
                  (querySelectorAll currentIed inputsOfLogicalNodes)
                  fresh inputsSections)
  end.

Fixpoint captureAll (doc : Document) (items : list string)
    (st : NodeId * Sections) : option (NodeId * Sections) :=
  match items with
  | [] => Some st
  | item :: rest =>
      match capture doc item st with
      | None => None
      | Some st' => captureAll doc rest st'
      end
  end.

Definition inputEdits (doc : Document) (stored : list storedInput)
  : list Edit :=
  map (fun transferInput =>
         Insert (parentOf
                   match resolve doc "LN" (id transferInput) with
                   | Some e => Some e
                   | None => resolve doc "LN0" (id transferInput)
                   end)
                (input transferInput) None)
      stored.

(** The batch is sent wrapped in an array of its own, which the host
    unfolds. *)
Definition replaceOne (selectedIEDs : list string) (inputsSections : Sections)
    (dataId : string) (st : Run) : Run :=
  let doc := document st in
  match resolve doc "IED" dataId with
  | None => mkRun doc (nextId st) (dispatched st) Threw
  | Some currentIed =>
      let currentIedName := getAttribute currentIed "name" in
      match selectedIed doc selectedIEDs with
      | None => mkRun doc (nextId st) (dispatched st) Threw
      | Some template =>
          let '(newIed, next) := cloneNode (node template) (nextId st) in
          let newIed :=
            setAttribute newIed "name"
              (orElse (ofNullable (getAttribute template "name")) "Unknown") in
          let editActions :=
            [Remove (Some currentIed);
             Insert DocumentParent newIed
                    (previousElementSibling currentIed)] in
          match mapGet currentIedName inputsSections with
          | None => mkRun doc next (dispatched st) Threw
          | Some stored =>
              let editActions := editActions ++ inputEdits doc stored in
              mkRun (handleEdits doc editActions) next
                    (dispatched st ++ [editActions]) Returned
          end
      end
  end.

Definition replaceIeds (doc : Document) (fresh : NodeId)
    (selected : Selected) (selectedIEDs : list string) : Run :=
  match selected, selectedIed doc selectedIEDs with
  | NothingSelected, _ => mkRun doc fresh [] Returned
  | _, None => mkRun doc fresh [] Returned
  | _, Some _ =>
      let items := selectedItems selected in
      match captureAll doc items (fresh, []) with
      | None => mkRun doc fresh [] Threw
      | Some (fresh1, inputsSections) =>
          fold_left
            (fun st item =>
               match completion st with
               | Threw => st
               | Returned => replaceOne selectedIEDs inputsSections item st
               end)
            items (mkRun doc fresh1 [] Returned)
      end
  end.

End ReplaceIeds.

End Legacy.

End Plugin.

(** ** The identities of the foundation *)

Module Foundation.

Definition localKey (n : Node) : string :=
  match lookupAttr "name" (attrsOf n) with
  | Some v => v
  | None =>
      (tagOf n ++ orElse (ofNullable (lookupAttr "lnClass" (attrsOf n))) "" ++
       orElse (ofNullable (lookupAttr "inst" (attrsOf n))) "")%string
  end.

Fixpoint identityOf (n : Node) (up : list Node) : string :=
  match up with
  | [] => ""
  | p :: up' =>
      let parent := identityOf p up' in
      if String.eqb parent "" then localKey n
      else (parent ++ ">" ++ localKey n)%string
  end.

(** Modelled from the spec: the identity function of
    [foundation/identities/identity.ts], which is not part of the sources at
    hand.  It maps a node to a stable string, derived from the path of
    ancestor kinds and names; here the names (or kind, class and instance)
    of the elements from the device down to the node.  A device is
    identified by its name. *)
Definition identity (e : option Element) : string :=
  match e with
  | Some x => identityOf (node x) (ancestors x)
  | None => "NaN"
  end.

(** Modelled from the spec: selector resolution,
    [doc.querySelector(selector(kind, identity))] with the [selector] of
    [foundation/identities/selector.ts], which is not part of the sources at
    hand.  It maps a kind and an identity to the node of the document that
    currently matches. *)
Definition resolve (doc : Document) (kind identityString : string)
  : option Element :=
  find (fun e => String.eqb (tagName e) kind &&
                 String.eqb (identity (Some e)) identityString)
       (walk [] doc).

End Foundation.

(** ** Vocabulary of the statements *)

Module Statements.

Import Subscription.

(** The six attributes that identify what an [ExtRef] is bound to. *)
Definition identifyingAttributes : list string :=
  ["iedName"; "ldInst"; "lnClass"; "lnInst"; "doName"; "daName"].

(** The attributes of a data point that are compared one by one. *)
Definition dataAttributes : list string :=
  ["ldInst"; "prefix"; "lnClass"; "lnInst"; "doName"; "daName"].

(** An attribute read with an absent value taken as the empty string. *)
Definition attributeOrEmpty (e : option Element) (name : string) : string :=
  orElse (optAttribute e name) "".

(** The four components of a control block reference. *)
Definition cbNameOf (cb : Element) : JsValue :=
  ofNullable (getAttribute cb "name").
Definition iedNameOf (cb : Element) : JsValue :=
  optAttribute (closest cb [Sel [STag "IED"]]) "name".
Definition ldInstOf (cb : Element) : JsValue :=
  optAttribute (closest cb [Sel [STag "LDevice"]]) "inst".
Definition lnClassOf (cb : Element) : JsValue :=
  optAttribute (closest cb anyLnSelector) "lnClass".
Definition prefixOf (cb : Element) : string :=
  attributeOrEmpty (closest cb anyLnSelector) "prefix".
Definition lnInstOf (cb : Element) : string :=
  attributeOrEmpty (closest cb anyLnSelector) "inst".

Definition unresolved (v : JsValue) : Prop := v = JsUndefined \/ v = JsNull.

(** The edition-specific part of a subscription. *)
Definition editionCheck (doc : Document) (k : ControlTag)
    (cb : option Element) (r : Element) : Prop :=
  getSclSchemaVersion doc = "2003" \/
  (attributeOrEmpty (Some r) "serviceType" = serviceTypes k /\
   attributeOrEmpty (Some r) "srcLDInst" =
     attributeOrEmpty (optClosest cb [Sel [STag "LDevice"]]) "inst" /\
   attributeOrEmpty (Some r) "srcPrefix" =
     attributeOrEmpty (optClosest cb [Sel [STag "LN0"]]) "prefix" /\
   attributeOrEmpty (Some r) "srcLNClass" =
     attributeOrEmpty (optClosest cb [Sel [STag "LN0"]]) "lnClass" /\
   attributeOrEmpty (Some r) "srcLNInst" =
     attributeOrEmpty (optClosest cb [Sel [STag "LN0"]]) "inst" /\
   attributeOrEmpty (Some r) "srcCBName" = attributeOrEmpty cb "name").

(** An [ExtRef] whose six attributes are there, one of them empty. *)
Definition extRefEmptyOwner : Element :=
  detached
    (Elem 1 "ExtRef"
       [("iedName", ""); ("ldInst", "LD0"); ("lnClass", "MMXU");
        ("lnInst", "1"); ("doName", "A"); ("daName", "phsA")] []).

(** A control block in a device that has no [name]. *)
Definition cbInNamelessDevice : Element :=
  let cb := Elem 4 "GSEControl" [("name", "gcb")] [] in
  let ln0 := Elem 3 "LN0" [("lnClass", "LLN0"); ("inst", "")] [cb] in
  let ld := Elem 2 "LDevice" [("inst", "LD0")] [ln0] in
  let ied := Elem 1 "IED" [] [ld] in
  mkElement cb [ln0; ld; ied].

(** A control block with all that its reference takes. *)
Definition cbInDevice : Element :=
  let cb := Elem 4 "GSEControl" [("name", "gcb")] [] in
  let ln0 := Elem 3 "LN0" [("lnClass", "LLN0"); ("inst", "")] [cb] in
  let ld := Elem 2 "LDevice" [("inst", "LD0")] [ln0] in
  let ied := Elem 1 "IED" [("name", "PUB")] [ld] in
  mkElement cb [ln0; ld; ied].

(** *** A small station, for the examples

    A publisher [PUB] with two GOOSE control blocks and a subscriber [SUB]
    with supervision logical nodes of class [LGOS]. *)

(** A supervision logical node with its value; [created] adds the marker of
    a node the engine made. *)
Definition supervisionLN (i : NodeId) (inst ref : string) (created : bool)
  : Node :=
  Elem i "LN" [("lnClass", "LGOS"); ("inst", inst); ("lnType", "LGOS1")]
    ((if created
      then [Elem (i + 4) "Private" [("type", "OpenSCD.create")] []]
      else []) ++
     [Elem (i + 1) "DOI" [("name", "GoCBRef")]
        [Elem (i + 2) "DAI"
           [("name", "setSrcRef"); ("valKind", "RO"); ("valImport", "true")]
           [Elem (i + 3) "Val" []
              (if String.eqb ref "" then [] else [Text ref])]]]).

Definition publisher : Node :=
  Elem 1 "IED" [("name", "PUB")]
    [Elem 2 "AccessPoint" [("name", "AP1")]
       [Elem 3 "Server" []
          [Elem 4 "LDevice" [("inst", "LD0")]
             [Elem 5 "LN0" [("lnClass", "LLN0"); ("inst", "")]
                [Elem 6 "GSEControl" [("name", "gcb1")] [];
                 Elem 7 "GSEControl" [("name", "gcb2")] []]]]]].

Definition subscriber (maxGo : string) (lns : list Node) : Node :=
  Elem 20 "IED" [("name", "SUB")]
    [Elem 21 "Services" []
       [Elem 22 "SupSubscription" [("maxGo", maxGo)] []];
     Elem 23 "AccessPoint" [("name", "AP1")]
       [Elem 24 "Server" []
          [Elem 25 "LDevice" [("inst", "LD0")]
             (Elem 26 "LN0" [("lnClass", "LLN0"); ("inst", "")] [] :: lns)]]].

Definition station (maxGo : string) (lns : list Node) : Document :=
  Elem 0 "SCL" [("version", "2007"); ("revision", "B")]
    [publisher; subscriber maxGo lns].

(** The element of [doc] with identity [i]. *)
Definition elementAt (doc : Document) (i : NodeId) : Element :=
  match locate doc i with
  | Some e => e
  | None => documentElement doc
  end.

(** [SUB] supervises [gcb1] in a logical node of its own and [gcb2] in one
    the engine made. *)
Definition supervised : Document :=
  station "2" [supervisionLN 30 "1" "PUBLD0/LLN0.gcb1" false;
               supervisionLN 40 "2" "PUBLD0/LLN0.gcb2" true].

(** A supervision logical node that is the root of its tree, seen from its
    [DOI]. *)
Definition orphanDoi : Element :=
  let ln := supervisionLN 30 "1" "PUBLD0/LLN0.gcb" false in
  match childrenOf ln with
  | doi :: _ => mkElement doi [ln]
  | [] => detached ln
  end.

(** *** Devices to replace *)

Definition device (i : NodeId) (name : string) (ln0 : list Node) : Node :=
  Elem i "IED" [("name", name)]
    [Elem (i + 1) "AccessPoint" [("name", "AP1")]
       [Elem (i + 2) "Server" []
          [Elem (i + 3) "LDevice" [("inst", "LD0")]
             [Elem (i + 4) "LN0" [("lnClass", "LLN0"); ("inst", "")] ln0]]]].

Definition inputsSection (i : NodeId) (desc : string) : Node :=
  Elem i "Inputs" [("desc", desc)] [].

Definition gseControl (i : NodeId) (name : string) : Node :=
  Elem i "GSEControl" [("name", name)] [].

(** A header, the device [IED1] to be replaced and the template [TPL]; each
    device has one input section and one GOOSE control block. *)
Definition plant : Document :=
  Elem 0 "SCL" []
    [Elem 1 "Header" [] [];
     device 10 "IED1" [inputsSection 16 "wired"; gseControl 15 "g1"];
     device 20 "TPL" [gseControl 25 "t1"; inputsSection 26 "blank"]].

(** The same, with no input section in [IED1]. *)
Definition plantNoInputs : Document :=
  Elem 0 "SCL" []
    [Elem 1 "Header" [] [];
     device 10 "IED1" [gseControl 15 "g1"];
     device 20 "TPL" [gseControl 25 "t1"; inputsSection 26 "blank"]].

(** The same, with no control block in [IED1]. *)
Definition plantNoGse : Document :=
  Elem 0 "SCL" []
    [Elem 1 "Header" [] [];
     device 10 "IED1" [inputsSection 16 "wired"];
     device 20 "TPL" [gseControl 25 "t1"; inputsSection 26 "blank"]].

(** Kind and name of the element children of the document element. *)
Definition topLevel (doc : Document) : list (string * option string) :=
  map (fun e => (tagName e, getAttribute e "name"))
      (childElements (documentElement doc)).

(** The names of the GOOSE control blocks of the device called [name]. *)
Definition gseNamesOf (doc : Document) (name : string)
  : list (option string) :=
  match Foundation.resolve doc "IED" name with
  | Some ied =>
      map (fun g => getAttribute g "name")
          (querySelectorAll ied [Sel [STag "GSEControl"]])
  | None => []
  end.

(** The identities of the nodes a batch removes. *)
Definition removedIds (batch : list Edit) : list (option NodeId) :=
  flat_map (fun e =>
              match e with
              | Remove (Some x) => [elementId x]
              | Remove None => [None]
              | Insert _ _ _ => []
              end) batch.

(** Replacing [IED1] by a copy of [TPL]. *)
Definition replaceIn (doc : Document) : Plugin.Run :=
  Plugin.replaceIeds Foundation.identity Foundation.resolve doc 100
    (Plugin.ManySelected ["IED1"]) ["TPL"].

Definition legacyReplaceIn (doc : Document) : Plugin.Run :=
  Plugin.Legacy.replaceIeds Foundation.identity Foundation.resolve doc 100
    (Plugin.ManySelected ["IED1"]) ["TPL"].

(** The same as [plant], with the control block of [IED1] before its input
    section. *)
Definition plantGseFirst : Document :=
  Elem 0 "SCL" []
    [Elem 1 "Header" [] [];
     device 10 "IED1" [gseControl 15 "g1"; inputsSection 16 "wired"];
     device 20 "TPL" [gseControl 25 "t1"; inputsSection 26 "blank"]].

(** The identities of the GOOSE control blocks of the device called
    [name]. *)
Definition gseIdsOf (doc : Document) (name : string)
  : list (option NodeId) :=
  match Foundation.resolve doc "IED" name with
  | Some ied =>
      map elementId (querySelectorAll ied [Sel [STag "GSEControl"]])
  | None => []
  end.

(** The document after the first batch of a run. *)
Definition afterFirstBatch (doc : Document) (run : Plugin.Run) : Document :=
  handleEdits doc (nth 0 (Plugin.dispatched run) []).

(** *** Clearing a supervision value

    The value with identity [v] loses its content: its text becomes
    empty. *)
Fixpoint clearValue (v : NodeId) (n : Node) : Node :=
  match n with
  | Text s => Text s
  | Elem j t a cs =>
      Elem j t a (if Nat.eqb j v then [] else map (clearValue v) cs)
  end.

(** The conditions of a supervision other than the capacity. *)
Definition supervisionConditions (doc : Document) (cb ied : Element)
    (supervisionType : string) : Prop :=
  getSclSchemaVersion doc <> "2003" /\
  querySelector ied (lnOfClass supervisionType) <> None /\
  (forall val, In val (getSupervisionCbRefs ied (tagName cb)) ->
     holdsReference (controlBlockReference (Some cb)) val = false).

(** [SUB] can supervise two control blocks and supervises [gcb2] and
    another one; [gcb1] is not supervised. *)
Definition saturated : Document :=
  station "2" [supervisionLN 30 "1" "OTHERLD0/LLN0.gcb" false;
               supervisionLN 40 "2" "PUBLD0/LLN0.gcb2" false].

(** *** Well-formedness of the document, as far as the supervisions need it *)

Definition sameId (a b : option NodeId) : bool :=
  match a, b with
  | Some i, Some j => Nat.eqb i j
  | None, None => true
  | _, _ => false
  end.

Fixpoint distinct (l : list (option NodeId)) : bool :=
  match l with
  | [] => true
  | x :: rest => negb (existsb (sameId x) rest) && distinct rest
  end.

(** Node objects are distinct: no two elements of the document have the
    same identity. *)
Definition uniqueIdsb (doc : Document) : bool :=
  distinct (map elementId (walk [] doc)).

(** No element of the document has an identity from [fresh] on. *)
Definition freshForb (doc : Document) (fresh : NodeId) : bool :=
  forallb (fun e => match elementId e with
                    | Some i => Nat.ltb i fresh
                    | None => true
                    end)
          (walk [] doc).

(** In the logical nodes of the monitoring class of a device, every [DOI]
    is a child of the logical node and every [Val] holds text only, as the
    schema has it. *)
Definition supervisionShape (ied : Element) (supervisionType : string)
  : bool :=
  forallb
    (fun ln =>
       forallb
         (fun d =>
            (negb (String.eqb (tagName d) "DOI") ||
             Nat.eqb (length (ancestors d)) (S (length (ancestors ln)))) &&
            (negb (String.eqb (tagName d) "Val") ||
             forallb (fun c => negb (isElem c)) (childrenOf (node d))))
         (descendants ln))
    (querySelectorAll ied (lnOfClass supervisionType)).

(** [SUB] supervises [gcb2] and has a free logical node. *)
Definition withFreeSlot : Document :=
  station "2" [supervisionLN 30 "1" "" false;
               supervisionLN 40 "2" "PUBLD0/LLN0.gcb2" false].

(** [SUB] supervises two control blocks, may supervise five and has no
    free logical node. *)
Definition withoutFreeSlot : Document :=
  station "5" [supervisionLN 30 "1" "OTHERLD0/LLN0.gcb" false;
               supervisionLN 40 "2" "PUBLD0/LLN0.gcb2" false].

(** Modelled from the spec: [minAvailableLogicalNodeInstance] of
    [foundation.ts], which is not part of the sources at hand.  It gives the
    lowest instance number not already used among the logical nodes handed
    in; the numbers are the decimal numerals from 1 to 99, and there is no
    result when all of them are in use. *)
Definition minAvailableInstance (lnElements : list Element)
  : option string :=
  find (fun inst =>
          negb (existsb
                  (fun ln =>
                     String.eqb
                       (orElse (ofNullable (getAttribute ln "inst")) "")
                       inst)
                  lnElements))
       (map (fun n => NilZero.string_of_uint (Nat.to_uint n)) (seq 1 99)).

(** [SUB] has one monitoring logical node, whose [DOI] lies inside a
    [Private] element instead of being a child of the logical node. *)
Definition nestedDoi : Document :=
  station "2"
    [Elem 30 "LN" [("lnClass", "LGOS"); ("inst", "1"); ("lnType", "LGOS1")]
       [Elem 31 "Private" []
          [Elem 32 "DOI" [("name", "GoCBRef")]
             [Elem 33 "DAI"
                [("name", "setSrcRef"); ("valKind", "RO");
                 ("valImport", "true")]
                []]]]].

(** [nestedDoi] after the host has applied the batch that supervises
    [gcb1]. *)
Definition nestedDoiSupervised : Document :=
  handleEdits nestedDoi
    (instantiateSubscriptionSupervision minAvailableInstance nestedDoi 100
       (Some (elementAt nestedDoi 6)) (Some (elementAt nestedDoi 20)) None).

End Statements.

Import Statements.

(** * Properties *)

Import Subscription.

(** ** The tree *)

Section NodeInduction.

Variable P : Node -> Prop.
Hypothesis text_case : forall s, P (Text s).
Hypothesis elem_case :
  forall i t a cs, Forall P cs -> P (Elem i t a cs).

Fixpoint Node_tree_ind (n : Node) : P n :=
  match n with
  | Text s => text_case s
  | Elem i t a cs =>
      elem_case i t a cs
        ((fix all (l : list Node) : Forall P l :=
            match l with
            | [] => Forall_nil P
            | c :: rest => Forall_cons c (Node_tree_ind c) (all rest)
            end) cs)
  end.

End NodeInduction.

Lemma walk_elements : forall n up e,
  In e (walk up n) -> isElem (node e) = true.
Proof.
  induction n as [s | i t a cs IH] using Node_tree_ind; intros up e H.
  - contradiction.
  - simpl in H. destruct H as [<- | H]; [reflexivity |].
    apply in_flat_map in H. destruct H as [c [Hc He]].
    rewrite Forall_forall in IH. exact (IH c Hc _ _ He).
Qed.

(** The ancestors of an element found below [n] end with the ancestors the
    walk started from. *)
Lemma walk_ancestors : forall n up e,
  In e (walk up n) ->
  e = mkElement n up \/ exists rel, ancestors e = rel ++ n :: up.
Proof.
  induction n as [s | i t a cs IH] using Node_tree_ind; intros up e H.
  - contradiction.
  - simpl in H. destruct H as [<- | H]; [now left | right].
    apply in_flat_map in H. destruct H as [c [Hc He]].
    rewrite Forall_forall in IH.
    destruct (IH c Hc _ _ He) as [-> | [rel Hrel]].
    + exists []. reflexivity.
    + exists (rel ++ [c]). rewrite Hrel, <- app_assoc. reflexivity.
Qed.

Lemma descendants_ancestors : forall x e,
  In e (descendants x) ->
  exists rel, ancestors e = rel ++ node x :: ancestors x.
Proof.
  intros x e H. unfold descendants in H.
  apply in_flat_map in H. destruct H as [c [_ He]].
  destruct (walk_ancestors _ _ _ He) as [-> | [rel Hrel]].
  - exists []. reflexivity.
  - exists (rel ++ [c]). rewrite Hrel, <- app_assoc. reflexivity.
Qed.

Lemma querySelectorAll_In : forall x s e,
  In e (querySelectorAll x s) <->
  In e (descendants x) /\ matches (elementId x) s e = true.
Proof. intros. unfold querySelectorAll. apply filter_In. Qed.

Lemma parentElement_Some : forall e p,
  parentElement e = Some p -> ancestors e = node p :: ancestors p.
Proof.
  intros [n up] [pn pup]. unfold parentElement. simpl.
  destruct up; [discriminate |]. intros H. now inversion H.
Qed.

Lemma matchCompound_elem : forall scope c e,
  matchCompound scope c e = true -> isElem (node e) = true.
Proof.
  intros scope c e H. unfold matchCompound in H.
  apply andb_true_iff in H. tauto.
Qed.

Lemma matchCompound_tag : forall scope t c e,
  matchCompound scope (STag t :: c) e = true -> tagName e = t.
Proof.
  intros scope t c e H. unfold matchCompound in H. simpl in H.
  apply andb_true_iff in H. destruct H as [_ H].
  apply andb_true_iff in H. destruct H as [H _].
  now apply String.eqb_eq.
Qed.

Lemma matchCompound_attr : forall scope t n v c e,
  matchCompound scope (STag t :: SAttr n v :: c) e = true ->
  getAttribute e n = Some v.
Proof.
  intros scope t n v c e H. unfold matchCompound in H. simpl in H.
  apply andb_true_iff in H. destruct H as [_ H].
  apply andb_true_iff in H. destruct H as [_ H].
  apply andb_true_iff in H. destruct H as [H _].
  destruct (getAttribute e n); [| discriminate].
  apply String.eqb_eq in H. now subst.
Qed.

Lemma matchComplex_child : forall scope l c e,
  matchComplex scope (Child l c) e = true ->
  matchCompound scope c e = true /\
  exists p, parentElement e = Some p /\ matchComplex scope l p = true.
Proof.
  intros scope l c e H. simpl in H.
  apply andb_true_iff in H. destruct H as [Hc H]. split; [exact Hc |].
  destruct (parentElement e) as [p |]; [| discriminate].
  now exists p.
Qed.

(** What the supervision selector says of a value it matches: the three
    elements above it. *)
Record SupervisionPath (lnTag supervisionType supervisionName : string)
    (val dai doi ln : Element) : Prop := {
  path_dai : parentElement val = Some dai;
  path_doi : parentElement dai = Some doi;
  path_ln : parentElement doi = Some ln;
  path_val_tag : tagName val = "Val";
  path_dai_tag : tagName dai = "DAI";
  path_doi_tag : tagName doi = "DOI";
  path_ln_tag : tagName ln = lnTag;
  path_class : getAttribute ln "lnClass" = Some supervisionType;
  path_doi_name : getAttribute doi "name" = Some supervisionName;
  path_dai_name : getAttribute dai "name" = Some "setSrcRef";
  path_dai_elem : isElem (node dai) = true;
  path_doi_elem : isElem (node doi) = true;
  path_ln_elem : isElem (node ln) = true
}.

Lemma cbRefPath_match : forall scope lnTag ty nm val,
  matchComplex scope (cbRefPath lnTag ty nm) val = true ->
  exists dai doi ln, SupervisionPath lnTag ty nm val dai doi ln.
Proof.
  intros scope lnTag ty nm val H. unfold cbRefPath in H.
  apply matchComplex_child in H. destruct H as [Hv [dai [Pv H]]].
  apply matchComplex_child in H. destruct H as [Hd [doi [Pd H]]].
  apply matchComplex_child in H. destruct H as [Ho [ln [Po H]]].
  simpl in H.
  exists dai, doi, ln. constructor; try assumption.
  - eapply matchCompound_tag; eassumption.
  - eapply matchCompound_tag; eassumption.
  - eapply matchCompound_tag; eassumption.
  - eapply matchCompound_tag; eassumption.
  - eapply matchCompound_attr; eassumption.
  - eapply matchCompound_attr; eassumption.
  - eapply matchCompound_attr; eassumption.
  - eapply matchCompound_elem; eassumption.
  - eapply matchCompound_elem; eassumption.
  - eapply matchCompound_elem; eassumption.
Qed.

Lemma getSupervisionCbRefs_path : forall ied cbTag val,
  In val (getSupervisionCbRefs ied cbTag) ->
  In val (descendants ied) /\
  exists lnTag dai doi ln,
    (lnTag = "LN" \/ lnTag = "LN0") /\
    SupervisionPath lnTag (supervisionTypeOf cbTag)
                    (supervisionNameOf (supervisionTypeOf cbTag))
                    val dai doi ln.
Proof.
  intros ied cbTag val H. unfold getSupervisionCbRefs in H.
  apply querySelectorAll_In in H. destruct H as [Hd Hm].
  split; [exact Hd |].
  unfold matches in Hm. simpl in Hm.
  apply orb_true_iff in Hm. destruct Hm as [Hm | Hm].
  - apply cbRefPath_match in Hm. destruct Hm as [dai [doi [ln Hp]]].
    exists "LN", dai, doi, ln. split; [now left | exact Hp].
  - apply orb_true_iff in Hm. destruct Hm as [Hm | Hm]; [| discriminate].
    apply cbRefPath_match in Hm. destruct Hm as [dai [doi [ln Hp]]].
    exists "LN0", dai, doi, ln. split; [now right | exact Hp].
Qed.

Lemma matches_tag_only : forall scope t e,
  matches scope [Sel [STag t]] e =
  isElem (node e) && String.eqb (tagName e) t.
Proof.
  intros. unfold matches. simpl. unfold matchCompound. simpl.
  destruct (isElem (node e)), (String.eqb (tagName e) t); reflexivity.
Qed.

Lemma matches_two_tags : forall scope a b e,
  matches scope [Sel [STag a]; Sel [STag b]] e =
  isElem (node e) &&
  (String.eqb (tagName e) a || String.eqb (tagName e) b).
Proof.
  intros. unfold matches. simpl. unfold matchCompound. simpl.
  destruct (isElem (node e)), (String.eqb (tagName e) a),
    (String.eqb (tagName e) b); reflexivity.
Qed.

Lemma element_eta : forall e, mkElement (node e) (ancestors e) = e.
Proof. now intros []. Qed.

Lemma inclusiveAncestors_path : forall val dai doi ln,
  parentElement val = Some dai ->
  parentElement dai = Some doi ->
  parentElement doi = Some ln ->
  inclusiveAncestors val = val :: dai :: doi :: ln :: chain (ancestors ln).
Proof.
  intros val dai doi ln Hv Hd Ho. unfold inclusiveAncestors.
  rewrite (parentElement_Some _ _ Hv). simpl. rewrite element_eta.
  rewrite (parentElement_Some _ _ Hd). simpl. rewrite element_eta.
  rewrite (parentElement_Some _ _ Ho). simpl. rewrite element_eta.
  reflexivity.
Qed.

(** The logical node and the [DOI] that [closest] finds from a value the
    supervision selector matched are the ones on its path. *)
Lemma closest_of_path : forall lnTag ty nm val dai doi ln,
  lnTag = "LN" \/ lnTag = "LN0" ->
  SupervisionPath lnTag ty nm val dai doi ln ->
  closest val [Sel [STag "LN0"]; Sel [STag "LN"]] = Some ln /\
  closest val [Sel [STag "DOI"]] = Some doi.
Proof.
  intros lnTag ty nm val dai doi ln Htag [].
  unfold closest.
  rewrite (inclusiveAncestors_path _ _ _ _ path_dai0 path_doi0 path_ln0).
  split.
  - cbn [find]. rewrite !matches_two_tags.
    rewrite path_val_tag0, path_dai_tag0, path_doi_tag0, path_ln_tag0.
    rewrite path_ln_elem0. simpl.
    rewrite !andb_false_r.
    destruct Htag as [-> | ->]; reflexivity.
  - cbn [find]. rewrite !matches_tag_only.
    rewrite path_val_tag0, path_dai_tag0, path_doi_tag0, path_doi_elem0.
    simpl. rewrite !andb_false_r. reflexivity.
Qed.

(** Below a device, the logical node of a supervision value has a parent. *)
Lemma path_below_device : forall lnTag ty nm ied val dai doi ln,
  tagName ied = "IED" ->
  lnTag = "LN" \/ lnTag = "LN0" ->
  In val (descendants ied) ->
  SupervisionPath lnTag ty nm val dai doi ln ->
  exists p, parentElement ln = Some p.
Proof.
  intros lnTag ty nm ied val dai doi ln Hied Htag Hin [].
  apply descendants_ancestors in Hin. destruct Hin as [rel Hrel].
  rewrite (parentElement_Some _ _ path_dai0) in Hrel.
  rewrite (parentElement_Some _ _ path_doi0) in Hrel.
  rewrite (parentElement_Some _ _ path_ln0) in Hrel.
  unfold tagName in *.
  assert (Hln : tagOf (node ln) <> "IED")
    by (rewrite path_ln_tag0; destruct Htag as [-> | ->]; discriminate).
  destruct rel as [| r1 [| r2 [| r3 rel]]]; simpl in Hrel.
  - injection Hrel as E _. rewrite E, Hied in path_dai_tag0. discriminate.
  - injection Hrel as _ E _. rewrite E, Hied in path_doi_tag0. discriminate.
  - injection Hrel as _ _ E _. rewrite E, Hied in Hln. now elim Hln.
  - injection Hrel as _ _ _ E. unfold parentElement. rewrite E.
    destruct rel; simpl; eexists; reflexivity.
Qed.

(** ** The subscription matcher *)

Lemma strictEq_eq : forall a b, strictEq a b = true <-> a = b.
Proof.
  intros [| | s] [| | t]; simpl; split; intros H;
    try reflexivity; try discriminate.
  - apply String.eqb_eq in H. now subst.
  - inversion H. apply String.eqb_refl.
Qed.

Lemma hasAttribute_present : forall e a,
  hasAttribute e a = true <-> exists v, getAttribute e a = Some v.
Proof.
  intros e a. unfold hasAttribute.
  destruct (getAttribute e a) as [v |]; split; intros H;
    try reflexivity; try discriminate.
  - now exists v.
  - destruct H as [v H]. discriminate.
Qed.

(** C3, as the code has it: [isSubscribed] holds exactly when each of the
    six identifying attributes is present on the reference, whatever its
    value. *)
Theorem isSubscribed_iff_present : forall r : Element,
  isSubscribed r = true <->
  forall a, In a identifyingAttributes -> exists v, getAttribute r a = Some v.
Proof.
  intros r. unfold isSubscribed, identifyingAttributes.
  rewrite !andb_true_iff, !hasAttribute_present. split.
  - intros [[[[[H1 H2] H3] H4] H5] H6] a Ha. simpl in Ha.
    repeat (destruct Ha as [<- | Ha]; [assumption |]). contradiction.
  - intros H. repeat split; apply H; simpl; tauto.
Qed.

(** C3, counterexample: the six attributes are present and the owner name
    is empty, and [isSubscribed] holds all the same. *)
Lemma isSubscribed_empty_attribute :
  isSubscribed extRefEmptyOwner = true /\
  ~ (forall a, In a identifyingAttributes ->
       exists v, getAttribute extRefEmptyOwner a = Some v /\ v <> "").
Proof.
  split; [reflexivity |].
  intros H. destruct (H "iedName") as [v [Hv Hne]]; [simpl; tauto |].
  vm_compute in Hv. inversion Hv. now apply Hne.
Qed.

Lemma eqb_attributeOrEmpty : forall l la r ra,
  sameAttributeValueDiffName l la r ra = true <->
  attributeOrEmpty l la = attributeOrEmpty r ra.
Proof. intros. unfold sameAttributeValueDiffName. apply String.eqb_eq. Qed.

Lemma checkEdition_iff : forall doc k cb r,
  checkEditionSpecificRequirements doc k cb r = true <->
  editionCheck doc k cb r.
Proof.
  intros doc k cb r. unfold checkEditionSpecificRequirements, editionCheck.
  destruct (String.eqb (getSclSchemaVersion doc) "2003") eqn:E.
  - apply String.eqb_eq in E. tauto.
  - apply String.eqb_neq in E.
    rewrite !andb_true_iff, !eqb_attributeOrEmpty, String.eqb_eq.
    unfold attributeOrEmpty at 1. simpl. tauto.
Qed.

(** C7: [isSubscribedTo] holds exactly when the owner of the reference is
    the device of the data point, the six data attributes agree (absent read
    as empty) and the edition check holds. *)
Theorem isSubscribedTo_iff :
  forall (doc : Document) (k : ControlTag) (cb d : option Element)
         (r : Element),
    isSubscribedTo doc k cb d r = true <->
    ofNullable (getAttribute r "iedName") =
      optAttribute (optClosest d [Sel [STag "IED"]]) "name" /\
    (forall a, In a dataAttributes ->
       attributeOrEmpty d a = attributeOrEmpty (Some r) a) /\
    editionCheck doc k cb r.
Proof.
  intros doc k cb d r. unfold isSubscribedTo, dataAttributes.
  rewrite !andb_true_iff, strictEq_eq, checkEdition_iff.
  unfold sameAttributeValue. rewrite !String.eqb_eq.
  fold (attributeOrEmpty d "ldInst") (attributeOrEmpty d "prefix")
       (attributeOrEmpty d "lnClass") (attributeOrEmpty d "lnInst")
       (attributeOrEmpty d "doName") (attributeOrEmpty d "daName").
  fold (attributeOrEmpty (Some r) "ldInst")
       (attributeOrEmpty (Some r) "prefix")
       (attributeOrEmpty (Some r) "lnClass")
       (attributeOrEmpty (Some r) "lnInst")
       (attributeOrEmpty (Some r) "doName")
       (attributeOrEmpty (Some r) "daName").
  split.
  - intros [[[[[[[H0 H1] H2] H3] H4] H5] H6] H7].
    split; [exact H0 | split; [| exact H7]].
    intros a Ha. simpl in Ha.
    repeat (destruct Ha as [<- | Ha]; [assumption |]). contradiction.
  - intros [H0 [H H7]].
    repeat split; try assumption; apply H; simpl; tauto.
Qed.

(** ** The reference of a control block *)

Lemma controlBlockReference_unfold : forall cb : Element,
  controlBlockReference (Some cb) =
  if falsy (cbNameOf cb) && falsy (iedNameOf cb) && falsy (ldInstOf cb) &&
     falsy (lnClassOf cb)
  then None
  else Some (toText (iedNameOf cb) ++ toText (ldInstOf cb) ++ "/" ++
             prefixOf cb ++ toText (lnClassOf cb) ++ lnInstOf cb ++ "." ++
             toText (cbNameOf cb))%string.
Proof. reflexivity. Qed.

(** The reference is absent exactly when there is no control block or when
    none of the four components is there. *)
Lemma controlBlockReference_none : forall cb : Element,
  controlBlockReference (Some cb) = None <->
  falsy (cbNameOf cb) = true /\ falsy (iedNameOf cb) = true /\
  falsy (ldInstOf cb) = true /\ falsy (lnClassOf cb) = true.
Proof.
  intros cb. rewrite controlBlockReference_unfold.
  destruct (falsy (cbNameOf cb)), (falsy (iedNameOf cb)),
    (falsy (ldInstOf cb)), (falsy (lnClassOf cb)); simpl;
    split; intros H; try discriminate; try tauto;
    destruct H as [? [? [? ?]]]; discriminate.
Qed.

(** C2, as the code has it: the reference is the formatted string when the
    four components resolve and are not all empty.  It is absent exactly
    when there is no control block or when each of the four components is
    absent or empty.  As soon as one of the four is there and not empty the
    reference is a string, whatever the others are: it is the formatted
    string with the text [null] for an attribute that is missing and
    [undefined] for an ancestor that is missing. *)
Theorem controlBlockReference_resolved_or_none : forall cb : Element,
  (forall n l c m : string,
     iedNameOf cb = JsString n -> ldInstOf cb = JsString l ->
     lnClassOf cb = JsString c -> cbNameOf cb = JsString m ->
     ~ (n = "" /\ l = "" /\ c = "" /\ m = "") ->
     controlBlockReference (Some cb) =
     Some (n ++ l ++ "/" ++ prefixOf cb ++ c ++ lnInstOf cb ++ "." ++ m)%string)
  /\
  (controlBlockReference (Some cb) = None <->
   falsy (iedNameOf cb) = true /\ falsy (ldInstOf cb) = true /\
   falsy (lnClassOf cb) = true /\ falsy (cbNameOf cb) = true)
  /\
  (falsy (iedNameOf cb) = false \/ falsy (ldInstOf cb) = false \/
   falsy (lnClassOf cb) = false \/ falsy (cbNameOf cb) = false ->
   controlBlockReference (Some cb) =
   Some (toText (iedNameOf cb) ++ toText (ldInstOf cb) ++ "/" ++
         prefixOf cb ++ toText (lnClassOf cb) ++ lnInstOf cb ++ "." ++
         toText (cbNameOf cb))%string)
  /\ controlBlockReference None = None.
Proof.
  intros cb. split; [| split; [| split; [| reflexivity]]].
  - intros n l c m Hn Hl Hc Hm Hne.
    rewrite controlBlockReference_unfold, Hn, Hl, Hc, Hm. simpl.
    destruct (String.eqb m "") eqn:Em, (String.eqb n "") eqn:En,
      (String.eqb l "") eqn:El, (String.eqb c "") eqn:Ec;
      simpl; try reflexivity.
    apply String.eqb_eq in Em, En, El, Ec. tauto.
  - rewrite controlBlockReference_none. tauto.
  - intros H. rewrite controlBlockReference_unfold.
    destruct (falsy (cbNameOf cb)), (falsy (iedNameOf cb)),
      (falsy (ldInstOf cb)), (falsy (lnClassOf cb));
      simpl; try reflexivity.
    destruct H as [H | [H | [H | H]]]; discriminate.
Qed.

(** C2, witness: a control block [gcb] of [LLN0] in logical device [LD0] of
    device [PUB]; a control block without name or ancestors; and one in a
    device without name. *)
Lemma controlBlockReference_resolved_or_none_witness :
  (iedNameOf cbInDevice = JsString "PUB" /\
   ldInstOf cbInDevice = JsString "LD0" /\
   lnClassOf cbInDevice = JsString "LLN0" /\
   cbNameOf cbInDevice = JsString "gcb" /\
   controlBlockReference (Some cbInDevice) = Some "PUBLD0/LLN0.gcb") /\
  (falsy (iedNameOf (detached (createElement 1 "GSEControl"))) = true /\
   controlBlockReference (Some (detached (createElement 1 "GSEControl")))
   = None) /\
  (falsy (cbNameOf cbInNamelessDevice) = false /\
   controlBlockReference (Some cbInNamelessDevice)
   = Some (toText (iedNameOf cbInNamelessDevice) ++
           toText (ldInstOf cbInNamelessDevice) ++ "/" ++
           prefixOf cbInNamelessDevice ++
           toText (lnClassOf cbInNamelessDevice) ++
           lnInstOf cbInNamelessDevice ++ "." ++
           toText (cbNameOf cbInNamelessDevice))%string).
Proof.
  split; [| split].
  - repeat (split; [reflexivity |]).
    apply (proj1 (controlBlockReference_resolved_or_none cbInDevice)
                 "PUB" "LD0" "LLN0" "gcb");
      try reflexivity.
    intros [H _]. discriminate.
  - split; [reflexivity |].
    apply (proj2 (proj1 (proj2 (controlBlockReference_resolved_or_none
                                  (detached (createElement 1 "GSEControl")))))).
    repeat split; reflexivity.
  - split; [reflexivity |].
    apply (proj1 (proj2 (proj2 (controlBlockReference_resolved_or_none
                                  cbInNamelessDevice)))).
    right. right. right. reflexivity.
Defined.

(** C2, counterexample: the device of the control block has no name, so one
    of the four components does not resolve, and the reference is a string
    all the same. *)
Lemma controlBlockReference_nameless_device :
  unresolved (iedNameOf cbInNamelessDevice) /\
  controlBlockReference (Some cbInNamelessDevice) = Some "nullLD0/LLN0.gcb".
Proof. split; [right |]; reflexivity. Qed.

(** ** Removal of a supervision *)

Lemma findSupervisionVal_none : forall cb ied,
  findSupervisionVal cb ied = None <->
  forall val, In val (getSupervisionCbRefs ied (tagName cb)) ->
    holdsReference (controlBlockReference (Some cb)) val = false.
Proof.
  intros cb ied. unfold findSupervisionVal. split.
  - intros H val Hin. exact (find_none _ _ H val Hin).
  - intros H.
    destruct (find _ _) as [v |] eqn:E; [| reflexivity].
    apply find_some in E. destruct E as [Hin Hv].
    rewrite (H v Hin) in Hv. discriminate.
Qed.

Lemma findSupervisionVal_some : forall cb ied val,
  findSupervisionVal cb ied = Some val ->
  In val (getSupervisionCbRefs ied (tagName cb)) /\
  controlBlockReference (Some cb) = Some (textContent (node val)).
Proof.
  intros cb ied val H. unfold findSupervisionVal in H.
  apply find_some in H. destruct H as [Hin Hv]. split; [exact Hin |].
  unfold holdsReference in Hv.
  destruct (controlBlockReference (Some cb)) as [r |]; [| discriminate].
  apply String.eqb_eq in Hv. now subst.
Qed.

(** C10: the batch of [removeSubscriptionSupervision] is empty or one
    removal; it is empty when an argument is absent, when no value of the
    device holds the reference of the control block, and when the logical
    node of the value found is missing or has no parent element. *)
Theorem removeSubscriptionSupervision_at_most_one :
  forall controlBlock subscriberIED : option Element,
    (length (removeSubscriptionSupervision controlBlock subscriberIED) <= 1
     /\ forallb isRemove
          (removeSubscriptionSupervision controlBlock subscriberIED) = true)
    /\
    (controlBlock = None \/ subscriberIED = None ->
     removeSubscriptionSupervision controlBlock subscriberIED = [])
    /\
    (forall cb ied,
       controlBlock = Some cb -> subscriberIED = Some ied ->
       (forall val, In val (getSupervisionCbRefs ied (tagName cb)) ->
          holdsReference (controlBlockReference (Some cb)) val = false) ->
       removeSubscriptionSupervision controlBlock subscriberIED = [])
    /\
    (forall cb ied val,
       controlBlock = Some cb -> subscriberIED = Some ied ->
       findSupervisionVal cb ied = Some val ->
       closest val [Sel [STag "LN0"]; Sel [STag "LN"]] = None \/
       (exists ln, closest val [Sel [STag "LN0"]; Sel [STag "LN"]] = Some ln
                   /\ parentElement ln = None) ->
       removeSubscriptionSupervision controlBlock subscriberIED = []).
Proof.
  intros controlBlock subscriberIED. repeat split.
  - unfold removeSubscriptionSupervision.
    repeat match goal with
           | |- context [match ?x with _ => _ end] => destruct x
           end; simpl; lia.
  - unfold removeSubscriptionSupervision.
    repeat match goal with
           | |- context [match ?x with _ => _ end] => destruct x
           end; reflexivity.
  - intros [-> | ->]; [reflexivity |].
    destruct controlBlock; reflexivity.
  - intros cb ied -> -> H. simpl.
    apply findSupervisionVal_none in H. now rewrite H.
  - intros cb ied val -> -> Hval [Hln | [ln [Hln Hp]]]; simpl;
      rewrite Hval, Hln; [reflexivity |]. now rewrite Hp.
Qed.

(** ** Paths in the tree

    [Path n rel m]: the element [m] lies in the subtree of [n], and [rel]
    lists its ancestors from its parent up to [n]. *)

Inductive Path : Node -> list Node -> Node -> Prop :=
| path_here : forall n, isElem n = true -> Path n [] n
| path_down : forall n c rel m,
    isElem n = true -> In c (childrenOf n) -> Path c rel m ->
    Path n (rel ++ [n]) m.

Lemma Path_target_elem : forall n rel m, Path n rel m -> isElem m = true.
Proof. induction 1; assumption. Qed.

Lemma Path_top_elem : forall n rel m, Path n rel m -> isElem n = true.
Proof. destruct 1; assumption. Qed.

(** The top of a path is the target itself or the last of its ancestors. *)
Lemma Path_top : forall n rel m,
  Path n rel m -> (rel = [] /\ m = n) \/ exists rel', rel = rel' ++ [n].
Proof.
  destruct 1 as [n Hn | n c rel m Hn Hc Hp]; [now left | right].
  now exists rel.
Qed.

Lemma Path_top_In : forall n rel m, Path n rel m -> In n (m :: rel).
Proof.
  intros n rel m H. destruct (Path_top _ _ _ H) as [[-> ->] | [rel' ->]].
  - now left.
  - right. apply in_or_app. right. now left.
Qed.

Lemma Path_extend : forall n rel m c,
  Path n rel m -> In c (childrenOf m) -> isElem c = true ->
  Path n (m :: rel) c.
Proof.
  induction 1 as [n Hn | n c' rel m Hn Hc Hp IH]; intros Hin He.
  - apply (path_down n c [] c Hn Hin). now apply path_here.
  - change (m :: rel ++ [n]) with ((m :: rel) ++ [n]).
    apply (path_down n c' _ c Hn Hc). now apply IH.
Qed.

Lemma walk_Path : forall n up e,
  In e (walk up n) <->
  exists rel, Path n rel (node e) /\ ancestors e = rel ++ up.
Proof.
  intros n up e. split.
  - revert up e.
    induction n as [s | i t a cs IH] using Node_tree_ind; intros up e H.
    + contradiction.
    + simpl in H. destruct H as [<- | H].
      * exists []. split; [now apply path_here | reflexivity].
      * apply in_flat_map in H. destruct H as [c [Hc He]].
        rewrite Forall_forall in IH.
        destruct (IH c Hc _ _ He) as [rel [Hp Ha]].
        exists (rel ++ [Elem i t a cs]). split.
        -- now apply (path_down _ c).
        -- rewrite Ha, <- app_assoc. reflexivity.
  - intros [rel [Hp Ha]]. revert up e Hp Ha.
    intros up e Hp. revert up.
    remember (node e) as m eqn:Em.
    induction Hp as [n Hn | n c rel m Hn Hc Hp IH]; intros up Ha.
    + destruct e as [en eup]. simpl in *. subst.
      destruct en; [| discriminate]. now left.
    + destruct n as [i t a cs |]; [| discriminate]. simpl. right.
      apply in_flat_map. exists c. split; [exact Hc |].
      apply IH; [exact Em |]. rewrite Ha, <- app_assoc. reflexivity.
Qed.

(** An element of the document, with its path from the document element. *)
Definition inDocument (doc : Document) (e : Element) : Prop :=
  In e (walk [] doc).

Lemma inDocument_Path : forall doc e,
  inDocument doc e <-> Path doc (ancestors e) (node e).
Proof.
  intros doc e. unfold inDocument. rewrite walk_Path. split.
  - intros [rel [Hp Ha]]. rewrite app_nil_r in Ha. now subst.
  - intros H. exists (ancestors e). now rewrite app_nil_r.
Qed.

Lemma descendants_Path : forall x e,
  In e (descendants x) <->
  exists rel, Path (node x) (rel ++ [node x]) (node e) /\
              ancestors e = rel ++ node x :: ancestors x.
Proof.
  intros x e. unfold descendants. rewrite in_flat_map. split.
  - intros [c [Hc He]]. apply walk_Path in He.
    destruct He as [rel [Hp Ha]]. exists rel. split; [| exact Ha].
    apply (path_down _ c); [| exact Hc | exact Hp].
    destruct (node x); [reflexivity | contradiction].
  - intros [rel [Hp Ha]].
    inversion Hp as [n Hn E1 E2 | n c rel' m Hn Hc Hp' E1 E2 E3].
    + destruct rel; discriminate.
    + apply app_inj_tail in E2. destruct E2 as [-> _].
      exists c. split; [exact Hc |]. apply walk_Path. now exists rel.
Qed.

(** ** Edits and paths *)

(** What an edit of the children leaves of a node: identity, tag and
    attributes. *)
Definition sigOf (n : Node) : option NodeId * string * Attrs :=
  (idOf n, tagOf n, attrsOf n).

(** The element of the edited tree that corresponds to [e]. *)
Definition lift (T : Node -> Node) (e : Element) : Element :=
  mkElement (T (node e)) (map T (ancestors e)).

(** No node on the way from the root to [e], [e] included, is [x]. *)
Definition avoids (x : NodeId) (e : Element) : Prop :=
  existsb (hasId x) (node e :: ancestors e) = false.

Lemma sigOf_hasId : forall n n' x,
  sigOf n = sigOf n' -> hasId x n = hasId x n'.
Proof.
  intros [i t a cs | s] [i' t' a' cs' | s'] x H; inversion H; reflexivity.
Qed.

Lemma sigOf_isElem : forall n n',
  sigOf n = sigOf n' -> isElem n = isElem n'.
Proof.
  intros [i t a cs | s] [i' t' a' cs' | s'] H; inversion H; reflexivity.
Qed.

Lemma removeById_sig : forall x n, sigOf (removeById x n) = sigOf n.
Proof. intros x [i t a cs | s]; reflexivity. Qed.

Lemma insertInto_sig : forall p new r n,
  sigOf (insertInto p new r n) = sigOf n.
Proof. intros p new r [i t a cs | s]; reflexivity. Qed.

Lemma removeById_children : forall x n c,
  In c (childrenOf n) -> hasId x c = false ->
  In (removeById x c) (childrenOf (removeById x n)).
Proof.
  intros x [i t a cs | s] c Hc Hx; [| contradiction]. simpl in *.
  apply filter_In. split; [now apply in_map |].
  rewrite (sigOf_hasId _ c x (removeById_sig x c)), Hx. reflexivity.
Qed.

Lemma existsb_app_false : forall (A : Type) (f : A -> bool) l1 l2,
  existsb f (l1 ++ l2) = false ->
  existsb f l1 = false /\ existsb f l2 = false.
Proof.
  intros A f l1 l2 H. rewrite existsb_app in H.
  now apply orb_false_iff in H.
Qed.

Lemma existsb_false_In : forall (A : Type) (f : A -> bool) l x,
  existsb f l = false -> In x l -> f x = false.
Proof.
  intros A f l x H Hin. destruct (f x) eqn:E; [| reflexivity].
  assert (existsb f l = true) by (apply existsb_exists; eauto).
  congruence.
Qed.

Lemma Path_removeById : forall x n rel m,
  Path n rel m ->
  existsb (hasId x) (m :: rel) = false ->
  Path (removeById x n) (map (removeById x) rel) (removeById x m).
Proof.
  intros x n rel m H.
  induction H as [n Hn | n c rel m Hn Hc Hp IH]; intros Hx.
  - apply path_here. now rewrite (sigOf_isElem _ n (removeById_sig x n)).
  - change (m :: rel ++ [n]) with ((m :: rel) ++ [n]) in Hx.
    apply existsb_app_false in Hx. destruct Hx as [Hx _].
    rewrite map_app. simpl.
    apply (path_down _ (removeById x c)).
    + now rewrite (sigOf_isElem _ n (removeById_sig x n)).
    + apply removeById_children; [exact Hc |].
      exact (existsb_false_In _ _ _ _ Hx (Path_top_In _ _ _ Hp)).
    + now apply IH.
Qed.

Lemma place_keeps : forall new r cs c, In c cs -> In c (place new r cs).
Proof.
  intros new [r |] cs c H; simpl.
  - induction cs as [| c' cs IH]; [contradiction |]. simpl.
    destruct (hasId r c'); [now right |].
    destruct H as [-> | H]; [now left | right; now apply IH].
  - apply in_or_app. now left.
Qed.

Lemma place_new : forall new r cs, In new (place new r cs).
Proof.
  intros new [r |] cs; simpl.
  - induction cs as [| c' cs IH]; [now left |]. simpl.
    destruct (hasId r c'); [now left | now right].
  - apply in_or_app. right. now left.
Qed.

Lemma insertInto_children : forall p new r n c,
  In c (childrenOf n) ->
  In (insertInto p new r c) (childrenOf (insertInto p new r n)).
Proof.
  intros p new r [i t a cs | s] c Hc; [| contradiction]. simpl in *.
  destruct (Nat.eqb i p); [apply place_keeps |]; now apply in_map.
Qed.

Lemma insertInto_new_child : forall p new r n,
  hasId p n = true -> In new (childrenOf (insertInto p new r n)).
Proof.
  intros p new r [i t a cs | s] H; [| discriminate]. simpl in *.
  rewrite Nat.eqb_sym, H. apply place_new.
Qed.

Lemma Path_insertInto : forall p new r n rel m,
  Path n rel m ->
  Path (insertInto p new r n) (map (insertInto p new r) rel)
       (insertInto p new r m).
Proof.
  intros p new r n rel m H.
  induction H as [n Hn | n c rel m Hn Hc Hp IH].
  - apply path_here.
    now rewrite (sigOf_isElem _ n (insertInto_sig p new r n)).
  - rewrite map_app. simpl.
    apply (path_down _ (insertInto p new r c)).
    + now rewrite (sigOf_isElem _ n (insertInto_sig p new r n)).
    + now apply insertInto_children.
    + exact IH.
Qed.

(** After a removal, an element whose path avoids the removed node is
    still in the document. *)
Lemma inDocument_removeById : forall doc x e,
  inDocument doc e -> avoids x e ->
  inDocument (removeById x doc) (lift (removeById x) e).
Proof.
  intros doc x e H Hx. apply inDocument_Path in H.
  apply inDocument_Path. simpl. now apply Path_removeById.
Qed.

Lemma inDocument_insertInto : forall doc p new r e,
  inDocument doc e ->
  inDocument (insertInto p new r doc) (lift (insertInto p new r) e).
Proof.
  intros doc p new r e H. apply inDocument_Path in H.
  apply inDocument_Path. simpl. now apply Path_insertInto.
Qed.

(** The inserted node is a child of what its parent has become. *)
Lemma inDocument_inserted : forall doc p new r pe,
  inDocument doc pe -> hasId p (node pe) = true -> isElem new = true ->
  inDocument (insertInto p new r doc)
    (mkElement new (node (lift (insertInto p new r) pe)
                    :: ancestors (lift (insertInto p new r) pe))).
Proof.
  intros doc p new r pe H Hp Hnew. apply inDocument_Path in H.
  apply inDocument_Path. simpl.
  apply Path_extend; [now apply Path_insertInto | | exact Hnew].
  now apply insertInto_new_child.
Qed.

(** ** Granularity of the removal *)

Lemma handleEdits_remove : forall doc e x,
  elementId e = Some x ->
  handleEdits doc [Remove (Some e)] = removeById x doc.
Proof. intros doc e x H. simpl. now rewrite H. Qed.

(** The batch for a value that is found, below a device. *)
Lemma removal_of_found : forall cb ied val,
  tagName ied = "IED" ->
  findSupervisionVal cb ied = Some val ->
  exists dai doi ln,
    parentElement val = Some dai /\
    parentElement dai = Some doi /\
    parentElement doi = Some ln /\
    tagName doi = "DOI" /\
    (tagName ln = "LN" \/ tagName ln = "LN0") /\
    removeSubscriptionSupervision (Some cb) (Some ied) =
      [Remove (Some (if isOpenScdCreated ln then ln else doi))].
Proof.
  intros cb ied val Hied Hval.
  destruct (findSupervisionVal_some _ _ _ Hval) as [Hin Href].
  destruct (getSupervisionCbRefs_path _ _ _ Hin)
    as [Hdesc [lnTag [dai [doi [ln [Htag Hpath]]]]]].
  destruct (closest_of_path _ _ _ _ _ _ _ Htag Hpath) as [Hln Hdoi].
  destruct (path_below_device _ _ _ _ _ _ _ _ Hied Htag Hdesc Hpath)
    as [p Hp].
  exists dai, doi, ln. destruct Hpath.
  repeat (split; [assumption |]).
  split; [destruct Htag as [<- | <-]; tauto |].
  simpl. rewrite Hval, Hln, Hp, Hdoi.
  destruct (isOpenScdCreated ln); reflexivity.
Qed.

(** C4: below a device, [removeSubscriptionSupervision] gives the empty
    batch when no value holds the reference of the control block; otherwise
    the value found holds that reference, and the batch removes the logical
    node above it when that node carries the marker of the engine, and only
    the [DOI] above the value when it does not.  Applying a batch that
    removes the [DOI] keeps every element of the document whose path does
    not go through that [DOI], the logical node among them. *)
Theorem removeSubscriptionSupervision_granularity :
  forall cb ied : Element,
    tagName ied = "IED" ->
    (findSupervisionVal cb ied = None ->
     removeSubscriptionSupervision (Some cb) (Some ied) = [])
    /\
    (forall val,
       findSupervisionVal cb ied = Some val ->
       controlBlockReference (Some cb) = Some (textContent (node val)) /\
       exists dai doi ln,
         parentElement val = Some dai /\
         parentElement dai = Some doi /\
         parentElement doi = Some ln /\
         tagName doi = "DOI" /\
         (tagName ln = "LN" \/ tagName ln = "LN0") /\
         removeSubscriptionSupervision (Some cb) (Some ied) =
           [Remove (Some (if isOpenScdCreated ln then ln else doi))] /\
         (isOpenScdCreated ln = false ->
          forall doc x e,
            elementId doi = Some x -> inDocument doc e -> avoids x e ->
            inDocument
              (handleEdits doc
                 (removeSubscriptionSupervision (Some cb) (Some ied)))
              (lift (removeById x) e))).
Proof.
  intros cb ied Hied. split.
  - intros H. simpl. now rewrite H.
  - intros val Hval.
    split; [exact (proj2 (findSupervisionVal_some _ _ _ Hval)) |].
    destruct (removal_of_found cb ied val Hied Hval)
      as [dai [doi [ln [Hv [Hd [Ho [Ht [Hl Hbatch]]]]]]]].
    exists dai, doi, ln.
    repeat (split; [assumption |]).
    intros Hno doc x e Hx He Hav.
    rewrite Hbatch, Hno, (handleEdits_remove _ _ _ Hx).
    now apply inDocument_removeById.
Qed.

(** C4, witness: in the station, the supervision of [gcb1] is kept in a
    logical node of the subscriber's own, and that of [gcb2] in one the
    engine made. *)
Lemma removeSubscriptionSupervision_granularity_witness :
  tagName (elementAt supervised 20) = "IED" /\
  (exists doi,
     tagName doi = "DOI" /\
     removeSubscriptionSupervision (Some (elementAt supervised 6))
                                   (Some (elementAt supervised 20))
     = [Remove (Some doi)]) /\
  (exists ln,
     tagName ln = "LN" /\
     removeSubscriptionSupervision (Some (elementAt supervised 7))
                                   (Some (elementAt supervised 20))
     = [Remove (Some ln)]).
Proof.
  split; [reflexivity |]. split.
  - destruct (removeSubscriptionSupervision_granularity
                (elementAt supervised 6) (elementAt supervised 20) eq_refl)
      as [_ H].
    destruct (H (elementAt supervised 33) eq_refl)
      as [_ [dai [doi [ln [Hv [Hd [Ho [Ht [_ [Hb _]]]]]]]]]].
    vm_compute in Hv. injection Hv as <-.
    vm_compute in Hd. injection Hd as <-.
    vm_compute in Ho. injection Ho as <-.
    eexists. split; [| exact Hb]. reflexivity.
  - destruct (removeSubscriptionSupervision_granularity
                (elementAt supervised 7) (elementAt supervised 20) eq_refl)
      as [_ H].
    destruct (H (elementAt supervised 43) eq_refl)
      as [_ [dai [doi [ln [Hv [Hd [Ho [_ [_ [Hb _]]]]]]]]]].
    vm_compute in Hv. injection Hv as <-.
    vm_compute in Hd. injection Hd as <-.
    vm_compute in Ho. injection Ho as <-.
    eexists. split; [| exact Hb]. reflexivity.
Defined.

(** C10, witness: no control block; and a value whose logical node is the
    root of its tree. *)
Lemma removeSubscriptionSupervision_at_most_one_witness :
  removeSubscriptionSupervision None (Some orphanDoi) = [] /\
  (findSupervisionVal cbInDevice orphanDoi <> None /\
   removeSubscriptionSupervision (Some cbInDevice) (Some orphanDoi) = []).
Proof.
  split.
  - apply (proj1 (proj2 (removeSubscriptionSupervision_at_most_one
                           None (Some orphanDoi)))).
    now left.
  - split; [vm_compute; discriminate |].
    destruct (findSupervisionVal cbInDevice orphanDoi) as [val |] eqn:E;
      [| vm_compute in E; discriminate].
    apply (proj2 (proj2 (proj2 (removeSubscriptionSupervision_at_most_one
                                  (Some cbInDevice) (Some orphanDoi))))
                 cbInDevice orphanDoi val eq_refl eq_refl E).
    right. vm_compute in E. injection E as <-.
    eexists. split; reflexivity.
Defined.

(** ** The replacement of devices *)

Import Plugin.

Lemma lookupAttr_putAttr : forall name value a,
  lookupAttr name (putAttr name value a) = Some value.
Proof.
  intros name value a. induction a as [| [k v] a IH]; simpl.
  - now rewrite String.eqb_refl.
  - destruct (String.eqb k name) eqn:E; simpl; rewrite E; [reflexivity | exact IH].
Qed.

Lemma cloneNode_elem : forall n fresh,
  isElem n = true -> isElem (fst (cloneNode n fresh)) = true.
Proof.
  intros [i t a cs | s] fresh H; [| discriminate]. simpl.
  destruct ((fix copies (l : list Node) (f : NodeId) {struct l} :=
               match l with
               | [] => ([], f)
               | c :: rest =>
                   let '(c', f1) := cloneNode c f in
                   let '(rest', f2) := copies rest f1 in (c' :: rest', f2)
               end) cs (S fresh)).
  reflexivity.
Qed.

(** The batch that swaps a device: it removes the device and inserts, under
    the document element and with the previous sibling of the device as
    reference, a copy of the template that carries the name of the
    device. *)
Lemma replaceOne_swap_batch :
  forall resolve selectedIEDs inputsSections gseControlSections
         dataId st currentIed template name,
    resolve (document st) "IED" dataId = Some currentIed ->
    getAttribute currentIed "name" = Some name ->
    selectedIed (document st) selectedIEDs = Some template ->
    isElem (node template) = true ->
    let newIed :=
      setAttribute (fst (cloneNode (node template) (nextId st))) "name" name in
    nth_error
      (dispatched (replaceOne resolve selectedIEDs inputsSections
                              gseControlSections dataId st))
      (length (dispatched st))
    = Some [Remove (Some currentIed);
            Insert (ElementParent (documentElement (document st))) newIed
                   (previousElementSibling currentIed)]
    /\ getAttribute (detached newIed) "name" = Some name.
Proof.
  intros resolve selectedIEDs inputsSections gseControlSections
         dataId st currentIed template name Hres Hname Htpl Helem newIed.
  split.
  - unfold replaceOne. rewrite Hres, Htpl, Hname. subst newIed.
    destruct (cloneNode (node template) (nextId st)) as [copy next]. simpl.
    destruct (rewireEdits _ _ _ _ _ _); simpl.
    + rewrite <- app_assoc. rewrite nth_error_app2 by lia.
      now rewrite Nat.sub_diag.
    + rewrite nth_error_app2 by lia. now rewrite Nat.sub_diag.
  - subst newIed. pose proof (cloneNode_elem (node template) (nextId st) Helem) as H.
    destruct (fst (cloneNode (node template) (nextId st))); [| discriminate].
    unfold getAttribute. simpl. apply lookupAttr_putAttr.
Qed.

(** C1, at the failing input: [IED1] is the second element of the document
    element, after the header.  The first batch removes it and inserts the
    copy named [IED1] with the header as reference, so the copy lands before
    the header and the place of [IED1] is taken by the header.  In the
    earlier variant the copy keeps the name of the template and is inserted
    under the document node, which takes no second element: no device
    called [IED1] is left. *)
Theorem replaceIeds_swap_displaces_device :
  topLevel plant =
    [("Header", None); ("IED", Some "IED1"); ("IED", Some "TPL")] /\
  map removedIds (firstn 1 (dispatched (replaceIn plant))) = [[Some 10]] /\
  topLevel (afterFirstBatch plant (replaceIn plant)) =
    [("IED", Some "IED1"); ("Header", None); ("IED", Some "TPL")] /\
  topLevel (document (replaceIn plant)) =
    [("IED", Some "IED1"); ("Header", None); ("IED", Some "TPL")] /\
  topLevel (document (legacyReplaceIn plant)) =
    [("Header", None); ("IED", Some "TPL")].
Proof. repeat split; vm_compute; reflexivity. Qed.

(** C6, at the failing input: the second batch removes the input section of
    the copy and the control block of the device that was replaced, which is
    no longer in the document; the control block of the template stays in
    the copy.  The stored control block is inserted after it only when the
    one of the replaced device had no later sibling; otherwise the insertion
    refers to a node outside the document and the stored control block is
    lost. *)
Theorem replaceIeds_keeps_template_definitions :
  gseIdsOf plant "IED1" = [Some 15] /\
  gseIdsOf (afterFirstBatch plant (replaceIn plant)) "IED1" = [Some 107] /\
  map removedIds (skipn 1 (dispatched (replaceIn plant)))
    = [[Some 108; Some 15]] /\
  gseNamesOf (document (replaceIn plant)) "IED1" = [Some "t1"; Some "g1"] /\
  gseNamesOf (document (replaceIn plantGseFirst)) "IED1" = [Some "t1"].
Proof. repeat split; vm_compute; reflexivity. Qed.

(** C8, at the failing inputs: a device without input section, and one
    without control block, are swapped by the first batch, and then the
    lookup of their stored sections gives nothing and the call on it
    throws. *)
Theorem replaceIeds_throws_without_sections :
  (completion (replaceIn plantNoInputs) = Threw /\
   length (dispatched (replaceIn plantNoInputs)) = 1) /\
  (completion (replaceIn plantNoGse) = Threw /\
   length (dispatched (replaceIn plantNoGse)) = 1) /\
  completion (replaceIn plant) = Returned.
Proof. repeat split; vm_compute; reflexivity. Qed.

(** The cases of C8 that hold: with nothing selected, no template or an
    empty selection, nothing is dispatched and the call returns. *)
Lemma replaceIeds_nothing_to_do :
  forall identity resolve doc fresh selected selectedIEDs,
    selected = NothingSelected \/ selected = ManySelected [] \/
    selectedIed doc selectedIEDs = None ->
    replaceIeds identity resolve doc fresh selected selectedIEDs =
    mkRun doc fresh [] Returned.
Proof.
  intros identity resolve doc fresh selected selectedIEDs [-> | [-> | H]].
  - reflexivity.
  - unfold replaceIeds. destruct (selectedIed doc selectedIEDs); reflexivity.
  - unfold replaceIeds. rewrite H. destruct selected; reflexivity.
Qed.

(** The cases of C8 that hold: [instantiateSubscriptionSupervision] gives
    the empty batch when an argument is missing, when the supervision is not
    allowed (edition, no logical node of the class, already supervised,
    capacity reached or missing) and when no logical node is available or
    its modification is not allowed. *)
Lemma instantiateSubscriptionSupervision_nothing_to_do :
  forall minInst doc fresh cb ied existing,
    (instantiateSubscriptionSupervision minInst doc fresh None ied existing
     = []) /\
    (instantiateSubscriptionSupervision minInst doc fresh cb None existing
     = []) /\
    (forall c i,
       isSupervisionAllowed doc c i (supervisionTypeOf (tagName c)) = false
       \/ isSupervisionModificationAllowed
            doc i (supervisionTypeOf (tagName c)) = false ->
       instantiateSubscriptionSupervision minInst doc fresh (Some c) (Some i)
                                          existing = []).
Proof.
  intros minInst doc fresh cb ied existing. repeat split.
  - destruct cb; reflexivity.
  - intros c i [H | H]; unfold instantiateSubscriptionSupervision.
    + now rewrite H.
    + destruct (isSupervisionAllowed _ _ _ _); [| reflexivity]. simpl.
      destruct existing as [ln |];
        [| destruct (findOrCreateAvailableLNInst _ _ _ _ _)];
        try reflexivity; now rewrite H.
Qed.

(** ** Capacity of the supervisions *)

Lemma isSupervisionAllowed_spec : forall doc cb ied cls,
  isSupervisionAllowed doc cb ied cls = true <->
  supervisionConditions doc cb ied cls /\
  (instantiatedSupervisionsCount ied cb <
   maxSupervisions ied (tagName cb))%Z.
Proof.
  intros doc cb ied cls.
  unfold isSupervisionAllowed, supervisionConditions.
  rewrite <- findSupervisionVal_none.
  destruct (String.eqb (getSclSchemaVersion doc) "2003") eqn:E.
  - apply String.eqb_eq in E. split; [discriminate | tauto].
  - apply String.eqb_neq in E.
    destruct (querySelector ied (lnOfClass cls)) as [ln |].
    + destruct (findSupervisionVal cb ied) as [v |].
      * split; [discriminate |]. intros [[_ [_ H]] _]. discriminate.
      * destruct (Z.leb_spec (maxSupervisions ied (tagName cb))
                             (instantiatedSupervisionsCount ied cb)).
        -- split; [discriminate | lia].
        -- split; [| reflexivity]. intros _.
           repeat split; try assumption; try discriminate.
    + split; [discriminate |]. intros [[_ [H _]] _]. now elim H.
Qed.

(** *** Selectors and signatures

    A selector without [:last-child] reads only the identity, tag and
    attributes of an element and of its ancestors. *)

Definition sigs (e : Element) : list (option NodeId * string * Attrs) :=
  map sigOf (node e :: ancestors e).

Arguments sigOf : simpl never.

Definition structuralSimple (s : Simple) : bool :=
  match s with SLastChild => false | _ => true end.

Fixpoint structural (x : Complex) : bool :=
  match x with
  | Sel c => forallb structuralSimple c
  | Child l c => structural l && forallb structuralSimple c
  | Desc l c => structural l && forallb structuralSimple c
  end.

Lemma cons_eq_inv : forall (A : Type) (a b : A) l l',
  a :: l = b :: l' -> a = b /\ l = l'.
Proof.
  intros A a b l l' H. split.
  - exact (f_equal (hd a) H).
  - exact (f_equal (@tl A) H).
Qed.

Lemma sigs_head : forall e e', sigs e = sigs e' ->
  sigOf (node e) = sigOf (node e').
Proof.
  intros e e' H. unfold sigs in H. cbn [map] in H.
  now apply cons_eq_inv in H.
Qed.

Lemma sigs_attr : forall e e' a, sigs e = sigs e' ->
  getAttribute e a = getAttribute e' a.
Proof.
  intros e e' a H. apply sigs_head in H. unfold getAttribute.
  unfold sigOf in H. now inversion H.
Qed.

Lemma sigs_tag : forall e e', sigs e = sigs e' -> tagName e = tagName e'.
Proof.
  intros e e' H. apply sigs_head in H. unfold tagName.
  unfold sigOf in H. now inversion H.
Qed.

Lemma sigs_id : forall e e', sigs e = sigs e' -> elementId e = elementId e'.
Proof.
  intros e e' H. apply sigs_head in H. unfold elementId.
  unfold sigOf in H. now inversion H.
Qed.

Lemma sigs_parent : forall e e', sigs e = sigs e' ->
  match parentElement e, parentElement e' with
  | Some p, Some p' => sigs p = sigs p'
  | None, None => True
  | _, _ => False
  end.
Proof.
  intros [n up] [n' up'] H. unfold sigs in H. simpl in H.
  unfold parentElement. simpl.
  destruct up as [| p up], up' as [| p' up']; cbn [map] in H;
    try discriminate; [exact I |].
  unfold sigs. cbn [map node ancestors]. now apply cons_eq_inv in H.
Qed.

Lemma matchCompound_sigs : forall scope c e e',
  forallb structuralSimple c = true -> sigs e = sigs e' ->
  matchCompound scope c e = matchCompound scope c e'.
Proof.
  intros scope c e e' Hc H. unfold matchCompound.
  rewrite (sigOf_isElem _ _ (sigs_head _ _ H)). f_equal.
  induction c as [| s c IH]; [reflexivity |]. simpl in *.
  apply andb_true_iff in Hc. destruct Hc as [Hs Hc].
  rewrite (IH Hc). f_equal.
  destruct s; simpl; try discriminate.
  - now rewrite (sigs_tag _ _ H).
  - now rewrite (sigs_attr _ _ name H).
  - now rewrite (sigs_id _ _ H).
Qed.

Lemma chain_sigs : forall (f g : Element -> bool) up up',
  map sigOf up = map sigOf up' ->
  (forall e e', sigs e = sigs e' -> f e = g e') ->
  existsb f (chain up) = existsb g (chain up').
Proof.
  intros f g up. induction up as [| n up IH]; intros [| n' up'] H Hfg;
    cbn [map] in H; try discriminate; [reflexivity |].
  apply cons_eq_inv in H. destruct H as [H1 H2]. cbn [chain existsb]. f_equal.
  - apply Hfg. unfold sigs. cbn [map node ancestors]. now f_equal.
  - now apply IH.
Qed.

Lemma matchComplex_sigs : forall scope x e e',
  structural x = true -> sigs e = sigs e' ->
  matchComplex scope x e = matchComplex scope x e'.
Proof.
  intros scope x. induction x as [c | l IH c | l IH c]; intros e e' Hx H;
    simpl in *.
  - now apply matchCompound_sigs.
  - apply andb_true_iff in Hx. destruct Hx as [Hl Hc].
    rewrite (matchCompound_sigs scope c e e' Hc H). f_equal.
    pose proof (sigs_parent _ _ H) as Hp.
    destruct (parentElement e), (parentElement e'); try contradiction;
      [now apply IH | reflexivity].
  - apply andb_true_iff in Hx. destruct Hx as [Hl Hc].
    rewrite (matchCompound_sigs scope c e e' Hc H). f_equal.
    apply chain_sigs.
    + unfold sigs in H. cbn [map] in H. now apply cons_eq_inv in H.
    + intros a a' Ha. now apply IH.
Qed.

Lemma matches_sigs : forall scope s e e',
  forallb structural s = true -> sigs e = sigs e' ->
  matches scope s e = matches scope s e'.
Proof.
  intros scope s e e' Hs H. unfold matches.
  induction s as [| x s IH]; [reflexivity |]. simpl in *.
  apply andb_true_iff in Hs. destruct Hs as [Hx Hs].
  now rewrite (matchComplex_sigs scope x e e' Hx H), (IH Hs).
Qed.

(** *** Lists that lose elements *)

Inductive Shrunk (C : Element -> Element -> Prop)
  : list Element -> list Element -> Prop :=
| shrunk_nil : Shrunk C [] []
| shrunk_keep : forall e e' l l',
    C e e' -> Shrunk C l l' -> Shrunk C (e :: l) (e' :: l')
| shrunk_drop : forall e l l', Shrunk C l l' -> Shrunk C (e :: l) l'.

Lemma Shrunk_all : forall C l, Shrunk C l [].
Proof.
  intros C l. induction l; [constructor | now apply shrunk_drop].
Qed.

Lemma Shrunk_app : forall C l1 l1' l2 l2',
  Shrunk C l1 l1' -> Shrunk C l2 l2' -> Shrunk C (l1 ++ l2) (l1' ++ l2').
Proof.
  intros C l1 l1' l2 l2' H1 H2. induction H1; simpl.
  - exact H2.
  - now apply shrunk_keep.
  - now apply shrunk_drop.
Qed.

Lemma Shrunk_flat_map : forall C (f g : Node -> list Element) T cs,
  (forall c, In c cs -> Shrunk C (f c) (g (T c))) ->
  Shrunk C (flat_map f cs) (flat_map g (map T cs)).
Proof.
  intros C f g T cs H. induction cs as [| c cs IH]; simpl.
  - constructor.
  - apply Shrunk_app; [apply H; now left |].
    apply IH. intros c' Hc'. apply H. now right.
Qed.

Lemma Shrunk_filter_le : forall C (Q Q' : Element -> bool) l l',
  (forall e e', C e e' -> Q' e' = true -> Q e = true) ->
  Shrunk C l l' ->
  length (filter Q' l') <= length (filter Q l).
Proof.
  intros C Q Q' l l' HQ H. induction H; simpl.
  - lia.
  - destruct (Q' e') eqn:E'.
    + rewrite (HQ _ _ H E'). simpl. lia.
    + destruct (Q e); simpl; lia.
  - destruct (Q e); simpl; lia.
Qed.

Lemma Shrunk_filter_lt : forall C (Q Q' : Element -> bool) l l' e0,
  (forall e e', C e e' -> Q' e' = true -> Q e = true) ->
  Shrunk C l l' ->
  In e0 l -> Q e0 = true -> (forall e', C e0 e' -> Q' e' = false) ->
  length (filter Q' l') < length (filter Q l).
Proof.
  intros C Q Q' l l' e0 HQ H Hin H0 Hlost. induction H; simpl.
  - contradiction.
  - destruct Hin as [-> | Hin].
    + rewrite (Hlost _ H), H0. simpl.
      pose proof (Shrunk_filter_le C Q Q' l l' HQ H1). lia.
    + specialize (IHShrunk Hin).
      destruct (Q' e') eqn:E'.
      * rewrite (HQ _ _ H E'). simpl. lia.
      * destruct (Q e); simpl; lia.
  - destruct Hin as [-> | Hin].
    + rewrite H0. simpl.
      pose proof (Shrunk_filter_le C Q Q' l l' HQ H). lia.
    + specialize (IHShrunk Hin). destruct (Q e); simpl; lia.
Qed.

(** *** Clearing a value frees a slot *)

Lemma clearValue_sig : forall v n, sigOf (clearValue v n) = sigOf n.
Proof. intros v [i t a cs | s]; reflexivity. Qed.

Lemma map_sigOf_clearValue : forall v l,
  map sigOf (map (clearValue v) l) = map sigOf l.
Proof.
  intros v l. rewrite map_map. apply map_ext. apply clearValue_sig.
Qed.

Lemma append_empty : forall a b : string,
  (a ++ b)%string = "" -> a = "" /\ b = "".
Proof. intros [| c a] b H; simpl in H; [now split | discriminate]. Qed.

Lemma concat_empty : forall l,
  String.concat "" l = "" <-> forall s, In s l -> s = "".
Proof.
  induction l as [| x l IH]; simpl.
  - split; [intros _ s [] | reflexivity].
  - destruct l as [| y l].
    + split.
      * intros -> s [<- | []]. reflexivity.
      * intros H. apply H. now left.
    + split.
      * intros H. apply append_empty in H. destruct H as [-> H].
        simpl in H. intros s [<- | Hs]; [reflexivity |].
        now apply (proj1 IH H).
      * intros H. rewrite (H x) by now left. simpl.
        apply IH. intros s Hs. apply H. now right.
Qed.

Lemma clearValue_text_empty : forall v n,
  textContent n = "" -> textContent (clearValue v n) = "".
Proof.
  intros v n. induction n as [s | i t a cs IH] using Node_tree_ind;
    intros H; [exact H |].
  simpl. destruct (Nat.eqb i v); [reflexivity |].
  simpl in H. rewrite concat_empty in H. apply concat_empty.
  intros s Hs. rewrite map_map in Hs. apply in_map_iff in Hs.
  destruct Hs as [c [<- Hc]]. rewrite Forall_forall in IH.
  apply IH; [exact Hc |]. apply H. now apply in_map.
Qed.

Lemma clearValue_text_target : forall v n,
  hasId v n = true -> textContent (clearValue v n) = "".
Proof.
  intros v [i t a cs | s] H; [| discriminate]. simpl in *.
  rewrite Nat.eqb_sym, H. reflexivity.
Qed.

(** How an element of the cleared tree relates to the one it comes from. *)
Definition clearedFrom (v : NodeId) (e e' : Element) : Prop :=
  node e' = clearValue v (node e) /\
  map sigOf (ancestors e') = map sigOf (ancestors e).

Lemma clearedFrom_sigs : forall v e e', clearedFrom v e e' -> sigs e = sigs e'.
Proof.
  intros v e e' [Hn Ha]. unfold sigs. cbn [map].
  now rewrite Hn, clearValue_sig, Ha.
Qed.

Lemma walk_clearValue : forall v n up up',
  map sigOf up' = map sigOf up ->
  Shrunk (clearedFrom v) (walk up n) (walk up' (clearValue v n)).
Proof.
  intros v n. induction n as [s | i t a cs IH] using Node_tree_ind;
    intros up up' Hup.
  - constructor.
  - cbn [walk clearValue]. apply shrunk_keep.
    + split; [reflexivity | exact Hup].
    + destruct (Nat.eqb i v) eqn:E.
      * apply Shrunk_all.
      * apply Shrunk_flat_map. intros c Hc.
        rewrite Forall_forall in IH. apply (IH c Hc).
        cbn [map]. f_equal. exact Hup.
Qed.

Lemma descendants_clearValue : forall v ied,
  Shrunk (clearedFrom v) (descendants ied)
         (descendants (lift (clearValue v) ied)).
Proof.
  intros v [n up]. unfold descendants, lift. cbn [node ancestors].
  destruct n as [i t a cs | s]; [| constructor].
  cbn [clearValue childrenOf].
  destruct (Nat.eqb i v) eqn:E; [apply Shrunk_all |].
  apply Shrunk_flat_map. intros c Hc. apply walk_clearValue.
  cbn [map]. f_equal. apply map_sigOf_clearValue.
Qed.

Lemma filter_filter : forall (A : Type) (f g : A -> bool) l,
  filter f (filter g l) = filter (fun x => g x && f x) l.
Proof.
  intros A f g l. induction l as [| x l IH]; [reflexivity |]. simpl.
  destruct (g x); simpl; [destruct (f x) |]; now rewrite IH.
Qed.

Lemma supervision_selector_structural : forall ty nm,
  forallb structural [cbRefPath "LN" ty nm; cbRefPath "LN0" ty nm] = true.
Proof. reflexivity. Qed.

(** Clearing a value that counts as a supervision lowers the count. *)
Lemma clearValue_frees_a_slot : forall ied cb val v,
  In val (getSupervisionCbRefs ied (tagName cb)) ->
  textContent (node val) <> "" ->
  elementId val = Some v ->
  (instantiatedSupervisionsCount (lift (clearValue v) ied) cb <
   instantiatedSupervisionsCount ied cb)%Z.
Proof.
  intros ied cb val v Hin Htext Hid.
  unfold instantiatedSupervisionsCount, getSupervisionCbRefs,
    querySelectorAll in *.
  rewrite !filter_filter. apply inj_lt.
  apply filter_In in Hin. destruct Hin as [Hdesc Hmatch].
  assert (Hscope : elementId (lift (clearValue v) ied) = elementId ied).
  { unfold elementId, lift. cbn [node].
    pose proof (clearValue_sig v (node ied)) as H. unfold sigOf in H.
    now inversion H. }
  rewrite Hscope.
  apply (Shrunk_filter_lt (clearedFrom v) _ _ _ _ val).
  - intros e e' HC H. apply andb_true_iff in H. destruct H as [Hm Ht].
    apply andb_true_iff. split.
    + rewrite (matches_sigs _ _ e e'
                 (supervision_selector_structural _ _)
                 (clearedFrom_sigs v e e' HC)).
      exact Hm.
    + destruct HC as [Hn _]. rewrite Hn in Ht.
      destruct (String.eqb (textContent (node e)) "") eqn:E;
        [| reflexivity].
      apply String.eqb_eq in E.
      rewrite (clearValue_text_empty v _ E) in Ht. discriminate.
  - apply descendants_clearValue.
  - exact Hdesc.
  - rewrite Hmatch. apply String.eqb_neq in Htext. now rewrite Htext.
  - intros e' [Hn _]. rewrite Hn.
    rewrite clearValue_text_target.
    + now rewrite andb_false_r.
    + unfold elementId in Hid. destruct (node val); inversion Hid.
      simpl. apply Nat.eqb_refl.
Qed.

(** C5: [isSupervisionAllowed] holds exactly when the edition is not 2003,
    the device has a logical node of the monitoring class, no supervision
    value of the device holds the reference of the control block, and fewer
    values are in use than the capacity allows.  With as many values in use
    as the capacity it is false; once one of these values is cleared, and
    the other conditions and the capacity are as before, it is true. *)
Theorem isSupervisionAllowed_capacity :
  forall (doc : Document) (cb ied : Element) (cls : string),
    (isSupervisionAllowed doc cb ied cls = true <->
     getSclSchemaVersion doc <> "2003" /\
     querySelector ied (lnOfClass cls) <> None /\
     (forall val, In val (getSupervisionCbRefs ied (tagName cb)) ->
        holdsReference (controlBlockReference (Some cb)) val = false) /\
     (instantiatedSupervisionsCount ied cb <
      maxSupervisions ied (tagName cb))%Z)
    /\
    (instantiatedSupervisionsCount ied cb = maxSupervisions ied (tagName cb)
     -> isSupervisionAllowed doc cb ied cls = false)
    /\
    (forall (val : Element) (v : NodeId) (doc' : Document) (cb' : Element),
       instantiatedSupervisionsCount ied cb
         = maxSupervisions ied (tagName cb) ->
       In val (getSupervisionCbRefs ied (tagName cb)) ->
       textContent (node val) <> "" ->
       elementId val = Some v ->
       tagName cb' = tagName cb ->
       supervisionConditions doc' cb' (lift (clearValue v) ied) cls ->
       maxSupervisions (lift (clearValue v) ied) (tagName cb)
         = maxSupervisions ied (tagName cb) ->
       isSupervisionAllowed doc' cb' (lift (clearValue v) ied) cls = true).
Proof.
  intros doc cb ied cls. split; [| split].
  - rewrite isSupervisionAllowed_spec. unfold supervisionConditions. tauto.
  - intros H.
    destruct (isSupervisionAllowed doc cb ied cls) eqn:E; [| reflexivity].
    apply isSupervisionAllowed_spec in E. lia.
  - intros val v doc' cb' Hfull Hin Htext Hid Htag Hcond Hmax.
    apply isSupervisionAllowed_spec. split; [exact Hcond |].
    pose proof (clearValue_frees_a_slot ied cb val v Hin Htext Hid) as Hlt.
    unfold instantiatedSupervisionsCount in *. rewrite Htag, Hmax. lia.
Qed.

(** C5, witness: the subscriber [SUB] of the station may supervise two
    control blocks and does so; [gcb1] is not among them.  A further
    supervision is refused, and it is allowed once the first value is
    cleared. *)
Lemma isSupervisionAllowed_capacity_witness :
  (instantiatedSupervisionsCount (elementAt saturated 20)
                                 (elementAt saturated 6) = 2%Z /\
   maxSupervisions (elementAt saturated 20) "GSEControl" = 2%Z /\
   isSupervisionAllowed saturated (elementAt saturated 6)
                        (elementAt saturated 20) "LGOS" = false) /\
  isSupervisionAllowed (clearValue 33 saturated)
                       (elementAt (clearValue 33 saturated) 6)
                       (lift (clearValue 33) (elementAt saturated 20))
                       "LGOS" = true.
Proof.
  split.
  - split; [reflexivity | split; [reflexivity |]].
    apply (proj1 (proj2 (isSupervisionAllowed_capacity
                           saturated (elementAt saturated 6)
                           (elementAt saturated 20) "LGOS"))).
    reflexivity.
  - apply (proj2 (proj2 (isSupervisionAllowed_capacity
                           saturated (elementAt saturated 6)
                           (elementAt saturated 20) "LGOS"))
                 (elementAt saturated 33) 33).
    + reflexivity.
    + vm_compute. auto.
    + vm_compute. discriminate.
    + reflexivity.
    + reflexivity.
    + split; [vm_compute; discriminate |].
      split; [vm_compute; discriminate |].
      intros val Hval. vm_compute in Hval.
      destruct Hval as [<- | [<- | []]]; reflexivity.
    + reflexivity.
Defined.

(** ** Following elements through a batch *)

(** [e] lies in the subtree of [x], or is [x]. *)
Definition within (e x : Element) : Prop :=
  exists rel, node e :: ancestors e = rel ++ node x :: ancestors x.

Definition preservesSig (T : Node -> Node) : Prop :=
  forall n, sigOf (T n) = sigOf n.

Lemma sigs_lift : forall T e, preservesSig T -> sigs (lift T e) = sigs e.
Proof.
  intros T e HT. unfold sigs, lift. cbn [node ancestors map].
  rewrite HT. f_equal. rewrite map_map. apply map_ext. exact HT.
Qed.

Lemma lift_lift : forall T1 T2 e,
  lift T2 (lift T1 e) = lift (fun n => T2 (T1 n)) e.
Proof.
  intros T1 T2 [n up]. unfold lift. cbn [node ancestors].
  now rewrite map_map.
Qed.

Lemma within_lift : forall T e x,
  within e x -> within (lift T e) (lift T x).
Proof.
  intros T e x [rel H]. exists (map T rel). unfold lift. cbn [node ancestors].
  change (T (node e) :: map T (ancestors e))
    with (map T (node e :: ancestors e)).
  rewrite H, map_app. reflexivity.
Qed.

Lemma within_child : forall new p x,
  within p x -> within (mkElement new (node p :: ancestors p)) x.
Proof.
  intros new p x [rel H]. exists (new :: rel). cbn [node ancestors].
  now rewrite H.
Qed.

Lemma within_refl : forall e, within e e.
Proof. intros e. now exists []. Qed.

(** Whether the path of an element avoids an identity can be read off its
    signatures. *)
Definition sigHasId (x : NodeId) (s : option NodeId * string * Attrs)
  : bool :=
  match fst (fst s) with Some i => Nat.eqb x i | None => false end.

Lemma hasId_sig : forall x n, hasId x n = sigHasId x (sigOf n).
Proof. intros x [i t a cs | s]; reflexivity. Qed.

Lemma avoids_sigs_iff : forall x e,
  avoids x e <-> existsb (sigHasId x) (sigs e) = false.
Proof.
  intros x e. unfold avoids, sigs.
  set (l := node e :: ancestors e). clearbody l.
  induction l as [| n l IH]; [tauto |]. cbn [existsb map].
  rewrite hasId_sig. destruct (sigHasId x (sigOf n)); simpl; tauto.
Qed.

Lemma avoids_sigs : forall x e e',
  sigs e = sigs e' -> avoids x e -> avoids x e'.
Proof.
  intros x e e' H. rewrite !avoids_sigs_iff. now rewrite H.
Qed.

Lemma avoids_child : forall x new p,
  hasId x new = false -> avoids x p ->
  avoids x (mkElement new (node p :: ancestors p)).
Proof.
  intros x new p Hn Hp. unfold avoids in *. cbn [node ancestors existsb] in *.
  now rewrite Hn.
Qed.

(** What is followed through the edits of a batch: the device, the control
    block and the element the next insertion goes under. *)
Record Tracking (doc : Document) (ied cb cur : Element) : Prop := {
  tr_ied : inDocument doc ied;
  tr_cb : inDocument doc cb;
  tr_cur : inDocument doc cur;
  tr_within : within cur ied
}.

Lemma locate_found : forall doc e p,
  inDocument doc e -> elementId e = Some p ->
  exists pn, findNode p doc = Some pn.
Proof.
  intros doc e p He Hp. unfold findNode, locate.
  destruct (find _ _) as [x |] eqn:E; [now eexists |].
  pose proof (find_none _ _ E e He) as H. simpl in H.
  unfold elementId in Hp. destruct (node e); inversion Hp; subst.
  simpl in H. rewrite Nat.eqb_refl in H. discriminate.
Qed.

Lemma elementId_hasId : forall e p,
  elementId e = Some p -> hasId p (node e) = true.
Proof.
  intros e p H. unfold elementId in H.
  destruct (node e); inversion H. simpl. apply Nat.eqb_refl.
Qed.

(** An insertion at the end of the element that is followed. *)
Lemma track_insert : forall doc ied cb cur pe new p k,
  Tracking doc ied cb cur ->
  elementId cur = Some p -> elementId pe = Some p ->
  idOf new = Some k -> occursIn p new = false ->
  avoids k ied -> avoids k cb -> avoids k cur ->
  exists T,
    preservesSig T /\
    Tracking (handleInsert doc (ElementParent pe) new None)
             (lift T ied) (lift T cb)
             (mkElement new (node (lift T cur) :: ancestors (lift T cur))).
Proof.
  intros doc ied cb cur pe new p k [Hi Hc Hu Hw] Hp Hpe Hk Hocc Hai Hac Hau.
  exists (fun n => insertInto p new None (removeById k n)). split.
  - intros n. now rewrite insertInto_sig, removeById_sig.
  - unfold handleInsert. rewrite Hk, Hpe.
    destruct (locate_found doc cur p Hu Hp) as [pn ->]. rewrite Hocc.
    assert (Hlift : forall e, inDocument doc e -> avoids k e ->
              inDocument (insertInto p new None (removeById k doc))
                (lift (fun n => insertInto p new None (removeById k n)) e)).
    { intros e He Ha. rewrite <- lift_lift.
      apply inDocument_insertInto. now apply inDocument_removeById. }
    constructor.
    + now apply Hlift.
    + now apply Hlift.
    + rewrite <- lift_lift.
      apply (inDocument_inserted (removeById k doc) p new None
               (lift (removeById k) cur)).
      * now apply inDocument_removeById.
      * unfold lift. cbn [node].
        rewrite (sigOf_hasId _ (node cur) p (removeById_sig k (node cur))).
        now apply elementId_hasId.
      * destruct new; [reflexivity | discriminate].
    + apply within_child. now apply within_lift.
Qed.

(** A removal that leaves what is followed. *)
Lemma track_remove : forall doc ied cb cur v x,
  Tracking doc ied cb cur ->
  elementId v = Some x ->
  avoids x ied -> avoids x cb -> avoids x cur ->
  exists T,
    preservesSig T /\
    Tracking (handleRemove doc (Some v)) (lift T ied) (lift T cb) (lift T cur).
Proof.
  intros doc ied cb cur v x [Hi Hc Hu Hw] Hx Hai Hac Hau.
  exists (removeById x). split; [intros n; apply removeById_sig |].
  unfold handleRemove. rewrite Hx.
  constructor; try (now apply inDocument_removeById).
  now apply within_lift.
Qed.

(** *** Splitting a path at an ancestor *)

Lemma Path_split : forall top rel m,
  Path top rel m ->
  forall l1 a l2, rel = l1 ++ a :: l2 ->
    Path a (l1 ++ [a]) m /\ Path top l2 a /\
    exists c, In c (childrenOf a) /\ isElem c = true.
Proof.
  induction 1 as [n Hn | n c rel m Hn Hc Hp IH]; intros l1 a l2 E.
  - destruct l1; discriminate.
  - destruct l2 as [| z l2] using rev_ind.
    + apply app_inj_tail in E. destruct E as [-> ->].
      split; [now apply (path_down _ c) |].
      split; [now apply path_here |].
      exists c. split; [exact Hc | exact (Path_top_elem _ _ _ Hp)].
    + clear IHl2.
      change (l1 ++ a :: l2 ++ [z]) with (l1 ++ (a :: l2) ++ [z]) in E.
      rewrite app_assoc in E. apply app_inj_tail in E.
      destruct E as [-> ->].
      destruct (IH l1 a l2 eq_refl) as [H1 [H2 H3]].
      split; [exact H1 |]. split; [| exact H3].
      now apply (path_down _ c).
Qed.

(** An ancestor of an element of the document is an element of the
    document, and has an element among its children. *)
Lemma ancestor_inDocument : forall doc e l1 a l2,
  inDocument doc e -> ancestors e = l1 ++ a :: l2 ->
  inDocument doc (mkElement a l2) /\
  exists c, In c (childrenOf a) /\ isElem c = true.
Proof.
  intros doc e l1 a l2 He E. apply inDocument_Path in He.
  destruct (Path_split _ _ _ He l1 a l2 E) as [_ [H2 H3]].
  split; [| exact H3]. now apply inDocument_Path.
Qed.

Lemma within_descendants : forall doc e x,
  inDocument doc e -> within e x -> tagName e <> tagName x ->
  In e (descendants x).
Proof.
  intros doc e x He [rel Hrel] Htag. apply descendants_Path.
  destruct rel as [| m rel]; simpl in Hrel.
  - apply cons_eq_inv in Hrel. destruct Hrel as [Hn _].
    elim Htag. unfold tagName. now rewrite Hn.
  - apply cons_eq_inv in Hrel. destruct Hrel as [_ Ha].
    exists rel. split; [| exact Ha].
    apply inDocument_Path in He.
    exact (proj1 (Path_split _ _ _ He rel (node x) (ancestors x) Ha)).
Qed.

(** *** Identities *)

(** Node objects are distinct: no two elements of the document share an
    identity. *)
Definition uniqueIds (doc : Document) : Prop :=
  NoDup (map elementId (walk [] doc)).

(** The identities of the document are below [fresh]. *)
Definition freshFor (doc : Document) (fresh : NodeId) : Prop :=
  forall e i, inDocument doc e -> elementId e = Some i -> i < fresh.

Lemma NoDup_map_injective : forall (A B : Type) (f : A -> B) l a b,
  NoDup (map f l) -> In a l -> In b l -> f a = f b -> a = b.
Proof.
  intros A B f l a b H. induction l as [| x l IH]; intros Ha Hb E.
  - contradiction.
  - simpl in H. apply NoDup_cons_iff in H. destruct H as [Hx Hl].
    destruct Ha as [-> | Ha], Hb as [-> | Hb].
    + reflexivity.
    + elim Hx. rewrite E. now apply in_map.
    + elim Hx. rewrite <- E. now apply in_map.
    + now apply IH.
Qed.

Lemma unique_element : forall doc a b,
  uniqueIds doc -> inDocument doc a -> inDocument doc b ->
  elementId a = elementId b -> a = b.
Proof.
  intros doc a b H Ha Hb E.
  exact (NoDup_map_injective _ _ elementId _ a b H Ha Hb E).
Qed.

Lemma existsb_all_false : forall (A : Type) (f : A -> bool) l,
  (forall x, In x l -> f x = false) -> existsb f l = false.
Proof.
  intros A f l H. induction l as [| x l IH]; [reflexivity |]. simpl.
  rewrite (H x) by now left. apply IH. intros y Hy. apply H. now right.
Qed.

Lemma hasId_elementId : forall x n up,
  hasId x n = true -> elementId (mkElement n up) = Some x.
Proof.
  intros x [i t a cs | s] up H; [| discriminate]. simpl in H.
  apply Nat.eqb_eq in H. now subst.
Qed.

Lemma avoids_fresh : forall doc fresh e k,
  freshFor doc fresh -> inDocument doc e -> fresh <= k -> avoids k e.
Proof.
  intros doc fresh e k Hf He Hk. unfold avoids.
  apply existsb_all_false. intros n [<- | Hn].
  - destruct (hasId k (node e)) eqn:E; [| reflexivity].
    pose proof (Hf e k He) as H. unfold elementId in H.
    destruct (node e); [| discriminate]. simpl in E.
    apply Nat.eqb_eq in E. subst. specialize (H eq_refl). lia.
  - apply in_split in Hn. destruct Hn as [l1 [l2 E]].
    destruct (ancestor_inDocument _ _ _ _ _ He E) as [Ha _].
    destruct (hasId k n) eqn:Ek; [| reflexivity].
    pose proof (Hf _ k Ha (hasId_elementId _ _ _ Ek)). lia.
Qed.

(** The path of an element avoids a node of another kind that has no
    element among its children. *)
Lemma avoids_leaf : forall doc v e x,
  uniqueIds doc -> inDocument doc v -> inDocument doc e ->
  elementId v = Some x ->
  forallb (fun c => negb (isElem c)) (childrenOf (node v)) = true ->
  tagName v <> tagName e ->
  avoids x e.
Proof.
  intros doc v e x Hu Hv He Hx Hleaf Htag. unfold avoids.
  apply existsb_all_false. intros n [<- | Hn].
  - destruct (hasId x (node e)) eqn:E; [| reflexivity].
    elim Htag. f_equal. apply (unique_element doc); try assumption.
    rewrite Hx. symmetry. rewrite <- (element_eta e).
    now apply hasId_elementId.
  - apply in_split in Hn. destruct Hn as [l1 [l2 E]].
    destruct (ancestor_inDocument _ _ _ _ _ He E) as [Ha [c [Hc Hce]]].
    destruct (hasId x n) eqn:Ex; [| reflexivity].
    assert (v = mkElement n l2).
    { apply (unique_element doc); try assumption.
      rewrite Hx. symmetry. now apply hasId_elementId. }
    subst v. cbn [node] in Hleaf.
    rewrite forallb_forall in Hleaf. specialize (Hleaf c Hc).
    rewrite Hce in Hleaf. discriminate.
Qed.

(** *** Siblings *)

Lemma walk_child_NoDup : forall n up c,
  NoDup (map elementId (walk up n)) -> In c (childrenOf n) ->
  NoDup (map elementId (walk (n :: up) c)).
Proof.
  intros [i t a cs | s] up c H Hc; [| contradiction].
  cbn [walk map] in H. apply NoDup_cons_iff in H. destruct H as [_ H].
  cbn [childrenOf] in Hc. apply in_split in Hc.
  destruct Hc as [l1 [l2 ->]].
  rewrite flat_map_app in H. cbn [flat_map] in H.
  rewrite !map_app in H.
  apply NoDup_app_remove_l in H. now apply NoDup_app_remove_r in H.
Qed.

Lemma Path_NoDup : forall n rel m,
  Path n rel m ->
  forall up, NoDup (map elementId (walk up n)) ->
             NoDup (map elementId (walk (rel ++ up) m)).
Proof.
  induction 1 as [n Hn | n c rel m Hn Hc Hp IH]; intros up H.
  - exact H.
  - rewrite <- app_assoc. apply IH. now apply walk_child_NoDup.
Qed.

Lemma walk_head : forall c up,
  isElem c = true -> In (mkElement c up) (walk up c).
Proof. intros [i t a cs | s] up H; [now left | discriminate]. Qed.

Lemma children_NoDup : forall (up : list Node) cs,
  NoDup (map elementId (flat_map (walk up) cs)) ->
  NoDup (map elementId
           (map (fun c => mkElement c up) (filter isElem cs))).
Proof.
  intros up cs. induction cs as [| c cs IH]; intros H; [constructor |].
  cbn [flat_map] in H. rewrite map_app in H.
  cbn [filter]. destruct (isElem c) eqn:E.
  - cbn [map]. apply NoDup_cons_iff. split.
    + intros Hin. apply in_map_iff in Hin. destruct Hin as [y [Hy Hin]].
      apply in_map_iff in Hin. destruct Hin as [c' [<- Hc']].
      apply filter_In in Hc'. destruct Hc' as [Hc' Ec'].
      destruct c as [i t a cs0 | s]; [| discriminate].
      cbn [walk map] in H.
      apply NoDup_cons_iff in H. destruct H as [Hnot _].
      apply Hnot. apply in_or_app. right.
      change (elementId {| node := Elem i t a cs0; ancestors := up |})
        with (Some i).
      change (elementId {| node := Elem i t a cs0; ancestors := up |})
        with (Some i) in Hy.
      rewrite <- Hy. apply in_map. apply in_flat_map.
      exists c'. split; [exact Hc' | now apply walk_head].
    + apply IH. now apply NoDup_app_remove_l in H.
  - apply IH. now apply NoDup_app_remove_l in H.
Qed.

Lemma siblings_NoDup : forall doc p,
  uniqueIds doc -> inDocument doc p ->
  NoDup (map elementId (childElements p)).
Proof.
  intros doc p Hu Hp. apply inDocument_Path in Hp.
  pose proof (Path_NoDup _ _ _ Hp [] Hu) as H. rewrite app_nil_r in H.
  unfold childElements.
  destruct (node p) as [i t a cs | s]; [| constructor].
  cbn [walk map] in H. apply NoDup_cons_iff in H. destruct H as [_ H].
  cbn [childrenOf]. now apply children_NoDup.
Qed.

Lemma sameNode_ids : forall a b,
  sameNode a b = true -> elementId a = elementId b.
Proof.
  intros a b H. unfold sameNode in H.
  destruct (elementId a), (elementId b); try discriminate.
  apply Nat.eqb_eq in H. now subst.
Qed.

Lemma last_In : forall (A : Type) (l : list A) z,
  last (map Some l) None = Some z -> In z l.
Proof.
  intros A l z. induction l as [| x l IH]; [discriminate |].
  cbn [map last]. destruct l as [| y l].
  - intros H. inversion H. now left.
  - intros H. right. now apply IH.
Qed.

Lemma last_has_no_next : forall l e z,
  NoDup (map elementId l) ->
  last (map Some l) None = Some z -> sameNode e z = true ->
  elementAfter e l = None.
Proof.
  induction l as [| y l IH]; intros e z Hn Hl Hs; [reflexivity |].
  cbn [elementAfter]. destruct l as [| y2 l].
  - destruct (sameNode e y); reflexivity.
  - cbn [map] in Hn. apply NoDup_cons_iff in Hn. destruct Hn as [Hy Hn].
    assert (Hz : last (map Some (y2 :: l)) None = Some z) by exact Hl.
    destruct (sameNode e y) eqn:E.
    + elim Hy. apply sameNode_ids in E, Hs. rewrite <- E, Hs.
      change (In (elementId z) (map elementId (y2 :: l))).
      apply in_map. now apply last_In.
    + now apply (IH e z).
Qed.

Lemma lastChild_has_no_next : forall doc e,
  uniqueIds doc -> inDocument doc e -> isLastChild e = true ->
  nextElementSibling e = None.
Proof.
  intros doc e Hu He Hl. unfold isLastChild, nextElementSibling in *.
  destruct (parentElement e) as [p |] eqn:Ep; [| reflexivity].
  destruct (last (map Some (childElements p)) None) as [z |] eqn:Ez;
    [| discriminate].
  apply (last_has_no_next _ _ z); try assumption.
  apply (siblings_NoDup doc); [exact Hu |].
  apply parentElement_Some in Ep.
  destruct (ancestor_inDocument doc e [] (node p) (ancestors p) He Ep)
    as [H _].
  now rewrite element_eta in H.
Qed.

Lemma Path_compose : forall top l2 a,
  Path top l2 a ->
  forall l1 m, Path a (l1 ++ [a]) m -> Path top (l1 ++ a :: l2) m.
Proof.
  induction 1 as [n Hn | n c rel a Hn Hc Hp IH]; intros l1 m H.
  - exact H.
  - change (l1 ++ a :: rel ++ [n]) with (l1 ++ (a :: rel) ++ [n]).
    rewrite app_assoc. apply (path_down _ c); [exact Hn | exact Hc |].
    now apply IH.
Qed.

Lemma descendants_inDocument : forall doc x e,
  inDocument doc x -> In e (descendants x) ->
  inDocument doc e /\ within e x.
Proof.
  intros doc x e Hx He. apply descendants_Path in He.
  destruct He as [rel [Hp Ha]]. split.
  - apply inDocument_Path. rewrite Ha.
    apply inDocument_Path in Hx. now apply (Path_compose _ _ _ Hx).
  - exists (node e :: rel). simpl. now rewrite Ha.
Qed.

(** *** The reference of a control block reads signatures only *)

Lemma inclusiveAncestors_chain : forall e,
  inclusiveAncestors e = chain (node e :: ancestors e).
Proof. intros e. unfold inclusiveAncestors. simpl. now rewrite element_eta. Qed.

Lemma find_chain_sigs : forall (f g : Element -> bool) l l',
  map sigOf l = map sigOf l' ->
  (forall a a', sigs a = sigs a' -> f a = g a') ->
  match find f (chain l), find g (chain l') with
  | Some p, Some p' => sigs p = sigs p'
  | None, None => True
  | _, _ => False
  end.
Proof.
  intros f g l. induction l as [| n l IH]; intros [| n' l'] H Hfg;
    cbn [map] in H; try discriminate; [exact I |].
  apply cons_eq_inv in H. destruct H as [H1 H2]. cbn [chain find].
  assert (Hs : sigs (mkElement n l) = sigs (mkElement n' l')).
  { unfold sigs. cbn [node ancestors map]. now f_equal. }
  rewrite (Hfg _ _ Hs). destruct (g (mkElement n' l')); [exact Hs |].
  now apply IH.
Qed.

Lemma closest_sigs : forall s e e' a,
  forallb structural s = true -> sigs e = sigs e' ->
  optAttribute (closest e s) a = optAttribute (closest e' s) a.
Proof.
  intros s e e' a Hs H. unfold closest.
  rewrite !inclusiveAncestors_chain.
  pose proof (find_chain_sigs
                (matches (elementId e) s) (matches (elementId e') s)
                (node e :: ancestors e) (node e' :: ancestors e') H) as F.
  rewrite (sigs_id _ _ H) in *.
  specialize (F (fun a0 a0' Ha => matches_sigs _ s a0 a0' Hs Ha)).
  destruct (find _ (chain (node e :: ancestors e))) as [p |],
           (find _ (chain (node e' :: ancestors e'))) as [p' |];
    try contradiction; [| reflexivity].
  simpl. now rewrite (sigs_attr _ _ a F).
Qed.

Lemma controlBlockReference_sigs : forall e e',
  sigs e = sigs e' ->
  controlBlockReference (Some e) = controlBlockReference (Some e').
Proof.
  intros e e' H. rewrite !controlBlockReference_unfold.
  unfold cbNameOf, iedNameOf, ldInstOf, lnClassOf, prefixOf, lnInstOf,
    attributeOrEmpty.
  rewrite (sigs_attr _ _ "name" H).
  rewrite (closest_sigs [Sel [STag "IED"]] e e' "name" eq_refl H).
  rewrite (closest_sigs [Sel [STag "LDevice"]] e e' "inst" eq_refl H).
  rewrite (closest_sigs anyLnSelector e e' "lnClass" eq_refl H).
  rewrite (closest_sigs anyLnSelector e e' "prefix" eq_refl H).
  rewrite (closest_sigs anyLnSelector e e' "inst" eq_refl H).
  reflexivity.
Qed.

(** *** A value in the place of a supervision *)

(** The signature of an element of the given kind that carries the given
    attribute. *)
Definition isSig (tag name value : string)
    (s : option NodeId * string * Attrs) : Prop :=
  fst (fst s) <> None /\ snd (fst s) = tag /\
  lookupAttr name (snd s) = Some value.

Lemma isSig_of_match : forall scope tag name value c e,
  matchCompound scope (STag tag :: SAttr name value :: c) e = true ->
  isSig tag name value (sigOf (node e)).
Proof.
  intros scope tag name value c e H.
  pose proof (matchCompound_elem _ _ _ H) as He.
  pose proof (matchCompound_tag _ _ _ _ H) as Ht.
  pose proof (matchCompound_attr _ _ _ _ _ _ H) as Ha.
  unfold isSig, sigOf, tagName, getAttribute in *. simpl.
  destruct (node e); [| discriminate]. repeat split; try assumption.
  discriminate.
Qed.

Lemma matchCompound_of_isSig : forall scope tag name value n up,
  isSig tag name value (sigOf n) ->
  matchCompound scope [STag tag; SAttr name value] (mkElement n up) = true.
Proof.
  intros scope tag name value [i t a cs | s] up [H1 [H2 H3]];
    [| now elim H1].
  unfold sigOf in *. simpl in *. subst t.
  unfold matchCompound. simpl. unfold getAttribute, tagName. simpl.
  now rewrite H3, !String.eqb_refl.
Qed.

Lemma cbRefPath_of_sigs : forall scope ty nm e s1 s2 s3 rest,
  isElem (node e) = true -> tagName e = "Val" ->
  map sigOf (ancestors e) = s1 :: s2 :: s3 :: rest ->
  isSig "DAI" "name" "setSrcRef" s1 ->
  isSig "DOI" "name" nm s2 ->
  isSig "LN" "lnClass" ty s3 ->
  matchComplex scope (cbRefPath "LN" ty nm) e = true.
Proof.
  intros scope ty nm [n up] s1 s2 s3 rest He Ht Hs H1 H2 H3.
  cbn [node ancestors] in *.
  destruct up as [| a1 [| a2 [| a3 up]]]; cbn [map] in Hs;
    try discriminate.
  apply cons_eq_inv in Hs. destruct Hs as [<- Hs].
  apply cons_eq_inv in Hs. destruct Hs as [<- Hs].
  apply cons_eq_inv in Hs. destruct Hs as [<- _].
  unfold cbRefPath. cbn [matchComplex parentElement ancestors].
  rewrite (matchCompound_of_isSig scope _ _ _ a1 (a2 :: a3 :: up) H1).
  rewrite (matchCompound_of_isSig scope _ _ _ a2 (a3 :: up) H2).
  rewrite (matchCompound_of_isSig scope _ _ _ a3 up H3).
  unfold matchCompound. cbn [node forallb matchSimple].
  unfold tagName in *. cbn [node] in *. rewrite He, Ht. reflexivity.
Qed.

(** A supervision value with the reference of the control block, in its
    place below the device, is found by the removal. *)
Lemma removal_finds_value : forall doc ied cb val ref s1 s2 s3 rest,
  inDocument doc val -> within val ied ->
  tagName ied = "IED" ->
  isElem (node val) = true -> tagName val = "Val" ->
  map sigOf (ancestors val) = s1 :: s2 :: s3 :: rest ->
  isSig "DAI" "name" "setSrcRef" s1 ->
  isSig "DOI" "name" (supervisionNameOf (supervisionTypeOf (tagName cb))) s2 ->
  isSig "LN" "lnClass" (supervisionTypeOf (tagName cb)) s3 ->
  textContent (node val) = ref ->
  controlBlockReference (Some cb) = Some ref ->
  (exists v, findSupervisionVal cb ied = Some v /\
             textContent (node v) = ref) /\
  removeSubscriptionSupervision (Some cb) (Some ied) <> [].
Proof.
  intros doc ied cb val ref s1 s2 s3 rest Hval Hw Hied He Ht Hs H1 H2 H3
         Htext Href.
  assert (Hin : In val (getSupervisionCbRefs ied (tagName cb))).
  { unfold getSupervisionCbRefs. apply querySelectorAll_In. split.
    - apply (within_descendants doc); try assumption.
      rewrite Ht, Hied. discriminate.
    - unfold matches. cbn [existsb].
      now rewrite (cbRefPath_of_sigs _ _ _ val s1 s2 s3 rest). }
  assert (Hholds : holdsReference (controlBlockReference (Some cb)) val
                   = true).
  { rewrite Href. unfold holdsReference. rewrite Htext.
    apply String.eqb_refl. }
  destruct (findSupervisionVal cb ied) as [v |] eqn:E.
  - split.
    + exists v. split; [reflexivity |].
      apply findSupervisionVal_some in E. destruct E as [_ E].
      rewrite Href in E. now inversion E.
    + destruct (removal_of_found cb ied v Hied E)
        as [dai [doi [ln [_ [_ [_ [_ [_ Hb]]]]]]]].
      rewrite Hb. discriminate.
  - rewrite findSupervisionVal_none in E.
    rewrite (E val Hin) in Hholds. discriminate.
Qed.

(** *** The steps of a batch *)

Lemma lift_id : forall e, lift (fun n => n) e = e.
Proof. intros [n up]. unfold lift. cbn [node ancestors]. now rewrite map_id. Qed.

Lemma avoids_lift : forall T x e,
  preservesSig T -> avoids x e -> avoids x (lift T e).
Proof.
  intros T x e HT H. apply (avoids_sigs x e); [| exact H].
  symmetry. now apply sigs_lift.
Qed.

Lemma track_insert_step : forall T0 doc ied cb cur pe new p k,
  preservesSig T0 ->
  Tracking doc (lift T0 ied) (lift T0 cb) cur ->
  elementId cur = Some p -> elementId pe = Some p ->
  idOf new = Some k -> occursIn p new = false ->
  avoids k ied -> avoids k cb -> avoids k cur ->
  exists T cur',
    preservesSig T /\
    Tracking (handleInsert doc (ElementParent pe) new None)
             (lift T ied) (lift T cb) cur' /\
    node cur' = new /\ map sigOf (ancestors cur') = sigs cur.
Proof.
  intros T0 doc ied cb cur pe new p k HT0 Htr Hp Hpe Hk Hocc Hai Hac Hau.
  destruct (track_insert doc (lift T0 ied) (lift T0 cb) cur pe new p k
              Htr Hp Hpe Hk Hocc
              (avoids_lift T0 k ied HT0 Hai) (avoids_lift T0 k cb HT0 Hac)
              Hau) as [T [HT Htr']].
  rewrite !lift_lift in Htr'.
  exists (fun n => T (T0 n)),
    (mkElement new (node (lift T cur) :: ancestors (lift T cur))).
  split; [intros n; now rewrite HT, HT0 |].
  split; [exact Htr' |]. split; [reflexivity |].
  cbn [ancestors]. exact (sigs_lift T cur HT).
Qed.

(** The removal, when there is one, to be followed through. *)
Definition removalAvoids (rem : option Element) (ied cb cur : Element)
  : Prop :=
  match rem with
  | Some v =>
      exists x, elementId v = Some x /\
                avoids x ied /\ avoids x cb /\ avoids x cur
  | None => True
  end.

Definition removalEdits (rem : option Element) : list Edit :=
  match rem with
  | Some v => [Remove (Some v)]
  | None => []
  end.

Lemma track_finish : forall T0 doc ied cb cur pe new p k rem,
  preservesSig T0 ->
  Tracking doc (lift T0 ied) (lift T0 cb) cur ->
  elementId cur = Some p -> elementId pe = Some p ->
  idOf new = Some k -> occursIn p new = false ->
  avoids k ied -> avoids k cb -> avoids k cur ->
  removalAvoids rem ied cb cur ->
  exists T val,
    preservesSig T /\
    Tracking (handleEdits doc
                (removalEdits rem ++ [Insert (ElementParent pe) new None]))
             (lift T ied) (lift T cb) val /\
    node val = new /\ map sigOf (ancestors val) = sigs cur.
Proof.
  intros T0 doc ied cb cur pe new p k rem HT0 Htr Hp Hpe Hk Hocc
         Hai Hac Hau Hrem.
  destruct rem as [v |]; cbn [removalEdits app handleEdits fold_left
                               handleEdit].
  - destruct Hrem as [x [Hx [Hxi [Hxc Hxu]]]].
    destruct (track_remove doc (lift T0 ied) (lift T0 cb) cur v x Htr Hx
                (avoids_lift T0 x ied HT0 Hxi)
                (avoids_lift T0 x cb HT0 Hxc) Hxu) as [T1 [HT1 Htr1]].
    rewrite !lift_lift in Htr1.
    destruct (track_insert_step (fun n => T1 (T0 n))
                (handleRemove doc (Some v)) ied cb (lift T1 cur) pe new p k)
      as [T [val [HT [Htr' [Hn Hs]]]]]; try assumption.
    + intros n. now rewrite HT1, HT0.
    + rewrite <- Hp. symmetry. apply sigs_id. symmetry. now apply sigs_lift.
    + now apply avoids_lift.
    + exists T, val.
      split; [exact HT | split; [exact Htr' | split; [exact Hn |]]].
      rewrite Hs. now apply sigs_lift.
  - now apply (track_insert_step T0 doc ied cb cur pe new p k).
Qed.

Lemma avoids_prefix : forall x e pre c0,
  sigs e = pre ++ sigs c0 ->
  existsb (sigHasId x) pre = false -> avoids x c0 -> avoids x e.
Proof.
  intros x e pre c0 H Hpre Hc. apply avoids_sigs_iff.
  rewrite H, existsb_app, Hpre. now apply avoids_sigs_iff.
Qed.

Lemma sigs_cons : forall e,
  sigs e = sigOf (node e) :: map sigOf (ancestors e).
Proof. reflexivity. Qed.

Lemma handleEdits_app : forall doc l1 l2,
  handleEdits doc (l1 ++ l2) = handleEdits (handleEdits doc l1) l2.
Proof. intros. unfold handleEdits. apply fold_left_app. Qed.

(** *** The well-formedness checks *)

Lemma sameId_eq : forall a b, sameId a b = true <-> a = b.
Proof.
  intros [i |] [j |]; simpl; split; intros H;
    try reflexivity; try discriminate.
  - apply Nat.eqb_eq in H. now subst.
  - inversion H. apply Nat.eqb_refl.
Qed.

Lemma distinct_NoDup : forall l, distinct l = true -> NoDup l.
Proof.
  induction l as [| x l IH]; intros H; [constructor |].
  simpl in H. apply andb_true_iff in H. destruct H as [Hx Hl].
  constructor; [| now apply IH].
  intros Hin. apply negb_true_iff in Hx.
  assert (existsb (sameId x) l = true).
  { apply existsb_exists. exists x. split; [exact Hin |].
    now apply sameId_eq. }
  congruence.
Qed.

Lemma uniqueIdsb_sound : forall doc, uniqueIdsb doc = true -> uniqueIds doc.
Proof. intros doc H. now apply distinct_NoDup. Qed.

Lemma freshForb_sound : forall doc fresh,
  freshForb doc fresh = true -> freshFor doc fresh.
Proof.
  intros doc fresh H e i He Hi. unfold freshForb in H.
  rewrite forallb_forall in H. specialize (H e He). rewrite Hi in H.
  now apply Nat.ltb_lt.
Qed.

Lemma supervisionShape_sound : forall ied ty ln d,
  supervisionShape ied ty = true ->
  In ln (querySelectorAll ied (lnOfClass ty)) ->
  In d (descendants ln) ->
  (tagName d = "DOI" -> parentElement d = Some ln) /\
  (tagName d = "Val" ->
   forallb (fun c => negb (isElem c)) (childrenOf (node d)) = true).
Proof.
  intros ied ty ln d H Hln Hd. unfold supervisionShape in H.
  rewrite forallb_forall in H. specialize (H ln Hln).
  rewrite forallb_forall in H. specialize (H d Hd).
  apply andb_true_iff in H. destruct H as [H1 H2]. split.
  - intros Ht. rewrite Ht in H1. simpl in H1. apply Nat.eqb_eq in H1.
    destruct (descendants_ancestors _ _ Hd) as [rel Hrel].
    rewrite Hrel, length_app in H1. simpl in H1.
    destruct rel; [| simpl in H1; lia].
    unfold parentElement. rewrite Hrel. simpl. now rewrite element_eta.
  - intros Ht. rewrite Ht in H2. exact H2.
Qed.

(** *** The new nodes *)

Lemma newDai_shape : forall fresh ied ty nm,
  exists attrs,
    newDai fresh ied ty nm = Elem (fresh + 3) "DAI" attrs [] /\
    lookupAttr "name" attrs = Some "setSrcRef".
Proof.
  intros fresh ied ty nm. unfold newDai.
  destruct (optAttribute _ "valKind"), (optAttribute _ "valImport");
    simpl; eexists; split; reflexivity.
Qed.

Lemma newVal_shape : forall fresh cb ref,
  controlBlockReference (Some cb) = Some ref ->
  exists cs,
    newVal fresh cb = Elem (fresh + 4) "Val" [] cs /\
    textContent (newVal fresh cb) = ref.
Proof.
  intros fresh cb ref H. unfold newVal. rewrite H. simpl.
  destruct (String.eqb ref "") eqn:E.
  - apply String.eqb_eq in E. subst. now exists [].
  - now exists [Text ref].
Qed.

Lemma occursIn_leaf : forall p k t a,
  p <> k -> occursIn p (Elem k t a []) = false.
Proof.
  intros p k t a H. unfold occursIn, findNode, locate. simpl.
  apply Nat.eqb_neq in H. now rewrite H.
Qed.

Lemma sigHasId_elem : forall x k t a cs,
  x <> k -> existsb (sigHasId x) [sigOf (Elem k t a cs)] = false.
Proof.
  intros x k t a cs H. unfold sigHasId, sigOf. simpl.
  apply Nat.eqb_neq in H. now rewrite H.
Qed.

(** *** A chain of insertions

    The batch of a new supervision is a chain: each new node goes under the
    node inserted just before it, the first under an element of the
    document. *)

Fixpoint chainEdits (pe : Element) (news : list Node) : list Edit :=
  match news with
  | [] => []
  | n :: rest => Insert (ElementParent pe) n None :: chainEdits (detached n) rest
  end.

Fixpoint lastParent (pe : Element) (news : list Node) : Element :=
  match news with
  | [] => pe
  | n :: rest => lastParent (detached n) rest
  end.

(** The new nodes are numbered upwards from [lo], and no identity below its
    own occurs in a new node. *)
Fixpoint Ascending (lo : NodeId) (news : list Node) (hi : NodeId) : Prop :=
  match news with
  | [] => lo <= hi
  | n :: rest =>
      exists k, idOf n = Some k /\ lo <= k /\
                (forall q, q < k -> occursIn q n = false) /\
                Ascending (S k) rest hi
  end.

Lemma sigHasId_sigOf : forall x n k,
  idOf n = Some k -> x <> k -> sigHasId x (sigOf n) = false.
Proof.
  intros x n k H Hx. unfold sigHasId, sigOf. simpl. rewrite H.
  now apply Nat.eqb_neq.
Qed.

Section RoundTrip.

Variables (doc : Document) (fresh : NodeId) (cb ied : Element).
Hypothesis unique : uniqueIds doc.
Hypothesis bounded : freshFor doc fresh.
Hypothesis cb_in : inDocument doc cb.
Hypothesis ied_in : inDocument doc ied.

Lemma track_chain : forall news T0 d cur pe pre c0 p lo hi,
  preservesSig T0 ->
  Tracking d (lift T0 ied) (lift T0 cb) cur ->
  elementId cur = Some p -> elementId pe = Some p ->
  p < lo -> fresh <= lo ->
  sigs cur = pre ++ sigs c0 -> inDocument doc c0 ->
  (forall k, lo <= k -> existsb (sigHasId k) pre = false) ->
  (forall x, x < fresh -> existsb (sigHasId x) pre = false) ->
  Ascending lo news hi ->
  exists T cur' pre' p',
    preservesSig T /\
    Tracking (handleEdits d (chainEdits pe news))
             (lift T ied) (lift T cb) cur' /\
    elementId cur' = Some p' /\
    elementId (lastParent pe news) = Some p' /\
    p' < hi /\
    sigs cur' = pre' ++ sigs c0 /\
    pre' = rev (map sigOf news) ++ pre /\
    (forall k, hi <= k -> existsb (sigHasId k) pre' = false) /\
    (forall x, x < fresh -> existsb (sigHasId x) pre' = false).
Proof.
  induction news as [| n news IH];
    intros T0 d cur pe pre c0 p lo hi HT0 Htr Hp Hpe Hlo Hfresh Hs Hc0
           Hhigh Hlow Hasc.
  - simpl in Hasc. exists T0, cur, pre, p.
    repeat (split; [first [assumption | reflexivity | lia] |]).
    split; [intros k Hk; apply Hhigh; lia | exact Hlow].
  - destruct Hasc as [k [Hk [Hlok [Hocc Hasc]]]].
    cbn [chainEdits handleEdits fold_left handleEdit lastParent].
    destruct (track_insert_step T0 d ied cb cur pe n p k)
      as [T1 [cur1 [HT1 [Htr1 [Hn1 Hs1]]]]]; try assumption.
    + apply Hocc. lia.
    + apply (avoids_fresh doc fresh); [assumption | assumption | lia].
    + apply (avoids_fresh doc fresh); [assumption | assumption | lia].
    + apply (avoids_prefix k cur pre c0 Hs); [now apply Hhigh |].
      apply (avoids_fresh doc fresh); [assumption | assumption | lia].
    + assert (Hid1 : elementId cur1 = Some k)
        by (unfold elementId; now rewrite Hn1).
      destruct (IH T1 (handleInsert d (ElementParent pe) n None) cur1
                  (detached n) (sigOf n :: pre) c0 k (S k) hi)
        as [T [cur' [pre' [p' [HT [Htr' [Hp' [Hlp [Hphi [Hs' [Hpre'
            [Hhigh' Hlow']]]]]]]]]]]]; try assumption;
        try lia; try reflexivity.
      * rewrite sigs_cons, Hn1, Hs1, Hs. reflexivity.
      * intros k' Hk'. cbn [existsb].
        rewrite (sigHasId_sigOf k' n k Hk) by lia. apply Hhigh. lia.
      * intros x Hx. cbn [existsb].
        rewrite (sigHasId_sigOf x n k Hk) by lia. now apply Hlow.
      * exists T, cur', pre', p'.
        repeat (split; [assumption |]).
        split; [| split; assumption].
        rewrite Hpre'. cbn [map rev]. now rewrite <- app_assoc.
Qed.

End RoundTrip.

(** What the round trip comes to: after the batch, the device and the
    control block are in the document, changed at most below, and the
    removal finds a value that holds the reference. *)
Definition Found (doc : Document) (cb ied : Element) (ref : string)
    (batch : list Edit) : Prop :=
  exists T,
    preservesSig T /\
    inDocument (handleEdits doc batch) (lift T cb) /\
    inDocument (handleEdits doc batch) (lift T ied) /\
    (exists v, findSupervisionVal (lift T cb) (lift T ied) = Some v /\
               textContent (node v) = ref) /\
    removeSubscriptionSupervision (Some (lift T cb)) (Some (lift T ied))
      <> [].

(** A value the batch may remove: a [Val] of the document that holds text
    only. *)
Definition removable (doc : Document) (rem : option Element) : Prop :=
  match rem with
  | Some v =>
      inDocument doc v /\ tagName v = "Val" /\
      forallb (fun c => negb (isElem c)) (childrenOf (node v)) = true
  | None => True
  end.

Lemma inDocument_id : forall doc e,
  inDocument doc e -> exists i, elementId e = Some i.
Proof.
  intros doc e H. apply walk_elements in H. unfold elementId.
  destruct (node e); [now eexists | discriminate].
Qed.

Lemma newVal_id : forall fresh cb,
  idOf (newVal fresh cb) = Some (fresh + 4) /\
  tagOf (newVal fresh cb) = "Val" /\
  forall q, q <> fresh + 4 -> occursIn q (newVal fresh cb) = false.
Proof.
  intros fresh cb. unfold newVal.
  destruct (controlBlockReference (Some cb)) as [r |]; simpl;
    [destruct (String.eqb r "") |];
    (split; [reflexivity | split; [reflexivity |]]);
    intros q Hq; unfold occursIn, findNode, locate; simpl;
    apply Nat.eqb_neq in Hq; now rewrite Hq.
Qed.

Section RoundTripResult.

Variables (doc : Document) (fresh : NodeId) (cb ied : Element)
          (ref : string).
Hypothesis unique : uniqueIds doc.
Hypothesis bounded : freshFor doc fresh.
Hypothesis cb_in : inDocument doc cb.
Hypothesis ied_in : inDocument doc ied.
Hypothesis ied_tag : tagName ied = "IED".
Hypothesis cb_tag :
  tagName cb = "GSEControl" \/ tagName cb = "SampledValueControl".
Hypothesis reference : controlBlockReference (Some cb) = Some ref.

Lemma chain_found : forall news c0 pe p rem s1 s2 s3 rest,
  inDocument doc c0 -> within c0 ied ->
  elementId c0 = Some p -> elementId pe = Some p ->
  (rem <> None -> tagName c0 <> "Val") ->
  Ascending fresh news (fresh + 4) ->
  rev (map sigOf news) ++ sigs c0 = s1 :: s2 :: s3 :: rest ->
  isSig "DAI" "name" "setSrcRef" s1 ->
  isSig "DOI" "name" (supervisionNameOf (supervisionTypeOf (tagName cb))) s2 ->
  isSig "LN" "lnClass" (supervisionTypeOf (tagName cb)) s3 ->
  removable doc rem ->
  Found doc cb ied ref
    (chainEdits pe news ++ removalEdits rem ++
     [Insert (ElementParent (lastParent pe news)) (newVal fresh cb) None]).
Proof.
  intros news c0 pe p rem s1 s2 s3 rest Hc0 Hw Hp Hpe Hc0tag Hasc Hsig
         H1 H2 H3 Hrem.
  assert (Hptr : Tracking doc (lift (fun n => n) ied) (lift (fun n => n) cb)
                          c0).
  { rewrite !lift_id. now constructor. }
  destruct (track_chain doc fresh cb ied bounded cb_in ied_in
              news (fun n => n) doc c0 pe [] c0 p fresh (fresh + 4))
    as [T1 [cur1 [pre1 [p1 [HT1 [Htr1 [Hp1 [Hlp [Hphi [Hs1 [Hpre1
        [Hhigh Hlow]]]]]]]]]]]]; try assumption; try reflexivity;
    try (intros n; reflexivity); try exact (bounded c0 p Hc0 Hp);
    try lia.
  rewrite app_nil_r in Hpre1. subst pre1.
  destruct (newVal_id fresh cb) as [Hvid [Hvtag Hvocc]].
  destruct (track_finish T1 (handleEdits doc (chainEdits pe news)) ied cb
              cur1 (lastParent pe news) (newVal fresh cb) p1 (fresh + 4) rem)
    as [T [val [HT [Htr [Hn Hs]]]]]; try assumption.
  { apply Hvocc. lia. }
  { apply (avoids_fresh doc fresh); [assumption | assumption | lia]. }
  { apply (avoids_fresh doc fresh); [assumption | assumption | lia]. }
  { apply (avoids_prefix _ cur1 _ c0 Hs1); [apply Hhigh; lia |].
    apply (avoids_fresh doc fresh); [assumption | assumption | lia]. }
  { destruct rem as [v |]; [| exact I]. destruct Hrem as [Hv [Hvt Hleaf]].
    destruct (inDocument_id doc v Hv) as [x Hx]. exists x.
    split; [exact Hx |].
    split; [| split].
    - apply (avoids_leaf doc v ied x); try assumption.
      rewrite Hvt, ied_tag. discriminate.
    - apply (avoids_leaf doc v cb x); try assumption.
      rewrite Hvt. destruct cb_tag as [-> | ->]; discriminate.
    - apply (avoids_prefix _ cur1 _ c0 Hs1).
      + apply Hlow. exact (bounded v x Hv Hx).
      + apply (avoids_leaf doc v c0 x); try assumption.
        rewrite Hvt. intros E. apply Hc0tag; [discriminate | now symmetry]. }
  destruct Htr as [Hi Hc Hval Hwithin].
  assert (Htagcb : tagName (lift T cb) = tagName cb)
    by (apply sigs_tag; now apply sigs_lift).
  exists T. rewrite handleEdits_app.
  split; [exact HT |]. split; [exact Hc |]. split; [exact Hi |].
  eapply (removal_finds_value _ (lift T ied) (lift T cb) val ref
            s1 s2 s3 rest); try eassumption.
  - rewrite <- ied_tag. apply sigs_tag. now apply sigs_lift.
  - rewrite Hn. destruct (newVal fresh cb); [reflexivity | discriminate].
  - unfold tagName. now rewrite Hn.
  - now rewrite Hs, Hs1.
  - now rewrite Htagcb.
  - now rewrite Htagcb.
  - rewrite Hn. destruct (newVal_shape fresh cb ref reference) as [cs [_ H]].
    exact H.
  - rewrite <- reference. apply controlBlockReference_sigs.
    now apply sigs_lift.
Qed.

End RoundTripResult.

(** *** The batch of a new supervision *)

Lemma querySelector_Some : forall x s e,
  querySelector x s = Some e ->
  In e (descendants x) /\ matches (elementId x) s e = true.
Proof.
  intros x s e H. unfold querySelector in H.
  apply querySelectorAll_In.
  destruct (querySelectorAll x s) as [| y l]; [discriminate |].
  inversion H. now left.
Qed.

Lemma querySelector_found : forall x s e,
  In e (querySelectorAll x s) -> querySelector x s <> None.
Proof.
  intros x s e H. unfold querySelector.
  destruct (querySelectorAll x s); [contradiction | discriminate].
Qed.

Lemma matches_single : forall scope x e,
  matches scope [x] e = matchComplex scope x e.
Proof. intros. unfold matches. simpl. apply orb_false_r. Qed.

Lemma newDoi_shape : forall fresh nm,
  newDoi fresh nm = Elem (fresh + 2) "DOI" [("name", nm)] [].
Proof. reflexivity. Qed.

Lemma Ascending_dai : forall fresh ied ty nm,
  Ascending (fresh + 3) [newDai fresh ied ty nm] (fresh + 4).
Proof.
  intros fresh ied ty nm.
  destruct (newDai_shape fresh ied ty nm) as [attrs [-> _]].
  exists (fresh + 3). split; [reflexivity |]. split; [lia |].
  split; [| simpl; lia].
  intros q Hq. apply occursIn_leaf. lia.
Qed.

Lemma Ascending_doi_dai : forall fresh ied ty nm,
  Ascending (fresh + 1) [newDoi fresh nm; newDai fresh ied ty nm]
            (fresh + 4).
Proof.
  intros fresh ied ty nm. rewrite newDoi_shape.
  exists (fresh + 2). split; [reflexivity |]. split; [lia |]. split.
  - intros q Hq. apply occursIn_leaf. lia.
  - replace (S (fresh + 2)) with (fresh + 3) by lia. apply Ascending_dai.
Qed.

Lemma Ascending_weaken : forall news lo lo' hi,
  lo' <= lo -> Ascending lo news hi -> Ascending lo' news hi.
Proof.
  intros [| n news] lo lo' hi Hle H; simpl in *; [lia |].
  destruct H as [k [Hk [Hlo H]]]. exists k.
  split; [exact Hk |]. split; [lia | exact H].
Qed.

Lemma isSig_newDai : forall fresh ied ty nm,
  isSig "DAI" "name" "setSrcRef" (sigOf (newDai fresh ied ty nm)).
Proof.
  intros fresh ied ty nm.
  destruct (newDai_shape fresh ied ty nm) as [attrs [-> Ha]].
  unfold isSig, sigOf. simpl.
  split; [discriminate | split; [reflexivity | exact Ha]].
Qed.

Lemma isSig_newDoi : forall fresh nm,
  isSig "DOI" "name" nm (sigOf (newDoi fresh nm)).
Proof.
  intros fresh nm. unfold isSig, sigOf. simpl.
  split; [discriminate | split; reflexivity].
Qed.

Section ExistingLogicalNode.

Variables (doc : Document) (fresh : NodeId) (cb ied : Element)
          (ref : string).
Hypothesis unique : uniqueIds doc.
Hypothesis bounded : freshFor doc fresh.
Hypothesis cb_in : inDocument doc cb.
Hypothesis ied_in : inDocument doc ied.
Hypothesis ied_tag : tagName ied = "IED".
Hypothesis cb_tag :
  tagName cb = "GSEControl" \/ tagName cb = "SampledValueControl".
Hypothesis reference : controlBlockReference (Some cb) = Some ref.
Hypothesis shape :
  supervisionShape ied (supervisionTypeOf (tagName cb)) = true.

Let ty := supervisionTypeOf (tagName cb).
Let nm := supervisionNameOf (supervisionTypeOf (tagName cb)).

Variable ln : Element.
Hypothesis ln_found : In ln (querySelectorAll ied (lnOfClass ty)).

Lemma ln_facts :
  inDocument doc ln /\ within ln ied /\ tagName ln = "LN" /\
  isSig "LN" "lnClass" ty (sigOf (node ln)) /\
  exists p, parentElement ln = Some p.
Proof.
  apply querySelectorAll_In in ln_found. destruct ln_found as [Hd Hm].
  destruct (descendants_inDocument doc ied ln ied_in Hd) as [Hin Hw].
  unfold lnOfClass in Hm. rewrite matches_single in Hm. simpl in Hm.
  split; [exact Hin |]. split; [exact Hw |].
  split; [eapply matchCompound_tag; eassumption |].
  split; [eapply isSig_of_match; eassumption |].
  destruct (descendants_ancestors _ _ Hd) as [rel Hrel].
  unfold parentElement. rewrite Hrel.
  destruct rel; simpl; eexists; reflexivity.
Qed.

Lemma removable_val :
  removable doc (querySelector ln [Sel [STag "Val"]]).
Proof.
  destruct ln_facts as [Hin _].
  destruct (querySelector ln [Sel [STag "Val"]]) as [v |] eqn:E;
    [| exact I].
  apply querySelector_Some in E. destruct E as [Hd Hm].
  rewrite matches_tag_only in Hm. apply andb_true_iff in Hm.
  destruct Hm as [_ Ht]. apply String.eqb_eq in Ht.
  split; [exact (proj1 (descendants_inDocument doc ln v Hin Hd)) |].
  split; [exact Ht |].
  exact (proj2 (supervisionShape_sound ied ty ln v shape ln_found Hd) Ht).
Qed.

(** A [DOI] of the logical node is its child. *)
Lemma doi_facts : forall doi,
  In doi (descendants ln) -> tagName doi = "DOI" ->
  inDocument doc doi /\ within doi ied /\
  map sigOf (ancestors doi) = sigs ln.
Proof.
  intros doi Hd Ht. destruct ln_facts as [Hin [Hw _]].
  destruct (descendants_inDocument doc ln doi Hin Hd) as [Hdin Hdw].
  split; [exact Hdin |]. split.
  - destruct Hdw as [r1 H1], Hw as [r2 H2]. exists (r1 ++ r2).
    rewrite H1, H2, <- app_assoc. reflexivity.
  - pose proof (proj1 (supervisionShape_sound ied ty ln doi shape ln_found Hd)
                      Ht) as Hp.
    now rewrite (parentElement_Some _ _ Hp).
Qed.

End ExistingLogicalNode.

Lemma supervisionVal_eq : forall fresh cb ln daiElement edits,
  supervisionVal fresh cb ln daiElement edits =
  edits ++ removalEdits (querySelector ln [Sel [STag "Val"]]) ++
  [Insert (ElementParent daiElement) (newVal fresh cb) None].
Proof.
  intros. unfold supervisionVal, removalEdits.
  destruct (querySelector ln [Sel [STag "Val"]]); simpl.
  - now rewrite <- app_assoc.
  - reflexivity.
Qed.

(** The edits after the one that inserts the logical node. *)
Definition supervisionEdits (fresh : NodeId) (cb ied ln : Element)
    (edits : list Edit) : list Edit :=
  let supervisionType := supervisionTypeOf (tagName cb) in
  let supervisionName := supervisionNameOf supervisionType in
  let '(doiElement, edits) :=
    supervisionDoi fresh ln supervisionName edits in
  let '(daiElement, edits) :=
    supervisionDai fresh ied ln doiElement supervisionType supervisionName
                   edits in
  supervisionVal fresh cb ln daiElement edits.

Section Assembly.

Variables (doc : Document) (fresh : NodeId) (cb ied : Element)
          (ref : string).
Hypothesis unique : uniqueIds doc.
Hypothesis bounded : freshFor doc fresh.
Hypothesis cb_in : inDocument doc cb.
Hypothesis ied_in : inDocument doc ied.
Hypothesis ied_tag : tagName ied = "IED".
Hypothesis cb_tag :
  tagName cb = "GSEControl" \/ tagName cb = "SampledValueControl".
Hypothesis reference : controlBlockReference (Some cb) = Some ref.
Hypothesis shape :
  supervisionShape ied (supervisionTypeOf (tagName cb)) = true.

Let ty := supervisionTypeOf (tagName cb).
Let nm := supervisionNameOf (supervisionTypeOf (tagName cb)).

Lemma existing_found : forall ln,
  In ln (querySelectorAll ied (lnOfClass ty)) ->
  Found doc cb ied ref (supervisionEdits fresh cb ied ln []).
Proof.
  intros ln Hln.
  destruct (ln_facts doc cb ied ied_in ln Hln)
    as [Hin [Hw [Hlt [Hlsig [par Hpar]]]]].
  pose proof (removable_val doc cb ied ied_in shape ln Hln) as Hrem.
  pose proof (doi_facts doc cb ied ied_in shape ln Hln) as Hdoi.
  unfold supervisionEdits, supervisionDoi, supervisionDai.
  unfold ty, nm in *. clear ty nm.
  set (ty := supervisionTypeOf (tagName cb)) in *.
  set (nm := supervisionNameOf ty) in *.
  destruct (querySelector ln [doiDai nm]) as [dai |] eqn:Edai.
  - (* the logical node has the DAI *)
    apply querySelector_Some in Edai. destruct Edai as [Hd Hm].
    unfold doiDai in Hm. rewrite matches_single in Hm.
    apply matchComplex_child in Hm. destruct Hm as [Hmd [p [Hp Hmp]]].
    simpl in Hmp.
    destruct (descendants_inDocument doc ln dai Hin Hd) as [Hdin Hdw].
    pose proof (parentElement_Some _ _ Hp) as Hanc.
    assert (Hpin : inDocument doc p).
    { destruct (ancestor_inDocument doc dai [] (node p) (ancestors p)
                  Hdin Hanc) as [H _].
      now rewrite element_eta in H. }
    assert (Hpt : tagName p = "DOI")
      by (eapply matchCompound_tag; eassumption).
    assert (Hpd : In p (descendants ln)).
    { apply (within_descendants doc); [exact Hpin | |].
      - destruct (descendants_ancestors _ _ Hd) as [rel Hrel].
        exists rel. now rewrite <- Hanc.
      - rewrite Hpt, Hlt. discriminate. }
    destruct (Hdoi p Hpd Hpt) as [_ [Hpw Hps]].
    destruct (inDocument_id doc dai Hdin) as [i Hi].
    destruct (querySelector ln [Sel [STag "DOI"; SAttr "name" nm]])
      as [doi |] eqn:Edoi.
    + cbn iota beta. rewrite supervisionVal_eq. cbn [app].
      apply (chain_found doc fresh cb ied ref unique bounded cb_in ied_in
               ied_tag cb_tag reference [] dai dai i
               (querySelector ln [Sel [STag "Val"]])
               (sigOf (node dai)) (sigOf (node p)) (sigOf (node ln))
               (map sigOf (ancestors ln))); try assumption.
      * destruct Hdw as [r1 H1], Hw as [r2 H2]. exists (r1 ++ r2).
        rewrite H1, H2, <- app_assoc. reflexivity.
      * assert (Ht : tagName dai = "DAI")
          by (eapply matchCompound_tag; eassumption).
        intros _. rewrite Ht. discriminate.
      * simpl. lia.
      * cbn [map rev app]. rewrite sigs_cons, Hanc. cbn [map].
        now rewrite Hps.
      * eapply isSig_of_match; eassumption.
      * eapply isSig_of_match; eassumption.
    + exfalso.
      apply (querySelector_found ln [Sel [STag "DOI"; SAttr "name" nm]] p);
        [| exact Edoi].
      apply querySelectorAll_In. split; [exact Hpd |].
      now rewrite matches_single.
  - destruct (querySelector ln [Sel [STag "DOI"; SAttr "name" nm]])
      as [doi |] eqn:Edoi.
    + (* the logical node has the DOI but not the DAI *)
      apply querySelector_Some in Edoi. destruct Edoi as [Hd Hm].
      rewrite matches_single in Hm. simpl in Hm.
      assert (Ht : tagName doi = "DOI")
        by (eapply matchCompound_tag; eassumption).
      destruct (Hdoi doi Hd Ht) as [Hdin [Hdw Hds]].
      destruct (inDocument_id doc doi Hdin) as [i Hi].
      cbn iota beta. rewrite supervisionVal_eq. cbn [app].
      apply (chain_found doc fresh cb ied ref unique bounded cb_in ied_in
               ied_tag cb_tag reference [newDai fresh ied ty nm] doi doi i
               (querySelector ln [Sel [STag "Val"]])
               (sigOf (newDai fresh ied ty nm)) (sigOf (node doi))
               (sigOf (node ln)) (map sigOf (ancestors ln)));
        try assumption.
      * intros _. rewrite Ht. discriminate.
      * apply (Ascending_weaken _ (fresh + 3)); [lia |].
        apply Ascending_dai.
      * cbn [map rev app]. now rewrite sigs_cons, Hds.
      * apply isSig_newDai.
      * eapply isSig_of_match; eassumption.
    + (* the logical node has neither *)
      destruct (inDocument_id doc ln Hin) as [i Hi].
      cbn iota beta. rewrite supervisionVal_eq. cbn [app].
      apply (chain_found doc fresh cb ied ref unique bounded cb_in ied_in
               ied_tag cb_tag reference
               [newDoi fresh nm; newDai fresh ied ty nm] ln ln i
               (querySelector ln [Sel [STag "Val"]])
               (sigOf (newDai fresh ied ty nm)) (sigOf (newDoi fresh nm))
               (sigOf (node ln)) (map sigOf (ancestors ln)));
        try assumption.
      * intros _. rewrite Hlt. discriminate.
      * apply (Ascending_weaken _ (fresh + 1)); [lia |].
        apply Ascending_doi_dai.
      * reflexivity.
      * apply isSig_newDai.
      * apply isSig_newDoi.
Qed.

End Assembly.

(** The logical node that [createNewSupervisionLnInst] makes. *)
Definition createdLN (fresh : NodeId) (ty lnType inst : string) : Node :=
  Elem fresh "LN" [("lnClass", ty); ("lnType", lnType); ("inst", inst)]
    [Elem (fresh + 1) "Private" [("type", "OpenSCD.create")] []].

Lemma createNewSupervisionLnInst_shape : forall minInst fresh cb ied ty ln,
  createNewSupervisionLnInst minInst fresh cb ied ty = Some ln ->
  exists lnType inst, ln = detached (createdLN fresh ty lnType inst).
Proof.
  intros minInst fresh cb ied ty ln H.
  unfold createNewSupervisionLnInst in H.
  destruct (optClosest _ _) as [sibling |]; [| discriminate].
  simpl in H.
  destruct (minInst _) as [inst |]; [| discriminate].
  destruct (String.eqb inst ""); [discriminate |].
  inversion H. eexists. eexists. reflexivity.
Qed.

Lemma Ascending_created : forall fresh ied ty nm lnType inst,
  Ascending fresh
    [createdLN fresh ty lnType inst; newDoi fresh nm; newDai fresh ied ty nm]
    (fresh + 4).
Proof.
  intros. exists fresh. split; [reflexivity |]. split; [lia |]. split.
  - intros q Hq. unfold occursIn, findNode, locate. simpl.
    assert (H1 : Nat.eqb q fresh = false) by (apply Nat.eqb_neq; lia).
    assert (H2 : Nat.eqb q (fresh + 1) = false) by (apply Nat.eqb_neq; lia).
    now rewrite H1, H2.
  - apply (Ascending_weaken _ (fresh + 1)); [lia |].
    apply Ascending_doi_dai.
Qed.

Section Created.

Variables (doc : Document) (fresh : NodeId) (cb ied : Element)
          (ref : string).
Hypothesis unique : uniqueIds doc.
Hypothesis bounded : freshFor doc fresh.
Hypothesis cb_in : inDocument doc cb.
Hypothesis ied_in : inDocument doc ied.
Hypothesis ied_tag : tagName ied = "IED".
Hypothesis cb_tag :
  tagName cb = "GSEControl" \/ tagName cb = "SampledValueControl".
Hypothesis reference : controlBlockReference (Some cb) = Some ref.

(** The edit that inserts a new logical node puts it at the end of the
    parent of the first logical node of the class. *)
Lemma insertOfSupervisionLN_created : forall ty first n,
  querySelector ied (lnOfClass ty) = Some first ->
  exists par,
    inDocument doc par /\ within par ied /\
    insertOfSupervisionLN ied (detached n) ty =
      [Insert (ElementParent par) n None].
Proof.
  intros ty first n Hq. unfold insertOfSupervisionLN. cbn [parentElement
    detached ancestors node]. rewrite Hq.
  apply querySelector_Some in Hq. destruct Hq as [Hd _].
  destruct (descendants_inDocument doc ied first ied_in Hd) as [Hfin _].
  destruct (descendants_ancestors _ _ Hd) as [rel Hrel].
  destruct (parentElement first) as [par |] eqn:Ep.
  - pose proof (parentElement_Some _ _ Ep) as Hanc.
    assert (Hpin : inDocument doc par).
    { destruct (ancestor_inDocument doc first [] (node par) (ancestors par)
                  Hfin Hanc) as [H _].
      now rewrite element_eta in H. }
    exists par. split; [exact Hpin |]. split.
    + exists rel. now rewrite <- Hanc.
    + destruct (querySelector par _) as [l |] eqn:El; [| reflexivity].
      apply querySelector_Some in El. destruct El as [Hld Hlm].
      rewrite matches_single in Hlm. simpl in Hlm.
      unfold matchCompound in Hlm. simpl in Hlm.
      apply andb_true_iff in Hlm. destruct Hlm as [_ Hlm].
      apply andb_true_iff in Hlm. destruct Hlm as [_ Hlm].
      apply andb_true_iff in Hlm. destruct Hlm as [_ Hlm].
      apply andb_true_iff in Hlm. destruct Hlm as [Hlast _].
      rewrite (lastChild_has_no_next doc l unique
                 (proj1 (descendants_inDocument doc par l Hpin Hld)) Hlast).
      reflexivity.
  - unfold parentElement in Ep. rewrite Hrel in Ep.
    destruct rel; discriminate.
Qed.

Lemma created_found : forall minInst ln first,
  querySelector ied (lnOfClass (supervisionTypeOf (tagName cb)))
    = Some first ->
  createNewSupervisionLnInst minInst fresh cb ied
    (supervisionTypeOf (tagName cb)) = Some ln ->
  Found doc cb ied ref
    (supervisionEdits fresh cb ied ln
       (insertOfSupervisionLN ied ln (supervisionTypeOf (tagName cb)))).
Proof.
  intros minInst ln first Hfirst Hnew.
  set (ty := supervisionTypeOf (tagName cb)) in *.
  destruct (createNewSupervisionLnInst_shape _ _ _ _ _ _ Hnew)
    as [lnType [inst ->]].
  destruct (insertOfSupervisionLN_created ty first
              (createdLN fresh ty lnType inst) Hfirst)
    as [par [Hpin [Hpw ->]]].
  destruct (inDocument_id doc par Hpin) as [i Hi].
  unfold supervisionEdits, supervisionDoi, supervisionDai.
  fold ty. set (nm := supervisionNameOf ty).
  change (querySelector (detached (createdLN fresh ty lnType inst))
            [Sel [STag "DOI"; SAttr "name" nm]]) with (@None Element).
  change (querySelector (detached (createdLN fresh ty lnType inst))
            [doiDai nm]) with (@None Element).
  cbn iota beta. rewrite supervisionVal_eq.
  change (querySelector (detached (createdLN fresh ty lnType inst))
            [Sel [STag "Val"]]) with (@None Element).
  apply (chain_found doc fresh cb ied ref unique bounded cb_in ied_in
           ied_tag cb_tag reference
           [createdLN fresh ty lnType inst; newDoi fresh nm;
            newDai fresh ied ty nm]
           par par i None
           (sigOf (newDai fresh ied ty nm)) (sigOf (newDoi fresh nm))
           (sigOf (createdLN fresh ty lnType inst)) (sigs par));
    try assumption.
  - intros H. now elim H.
  - apply Ascending_created.
  - reflexivity.
  - apply isSig_newDai.
  - apply isSig_newDoi.
  - unfold isSig, sigOf. simpl.
    split; [discriminate | split; reflexivity].
  - exact I.
Qed.

End Created.

Lemma supervisionEdits_last : forall fresh cb ied ln edits,
  exists pre parent,
    supervisionEdits fresh cb ied ln edits =
    pre ++ [Insert parent (newVal fresh cb) None].
Proof.
  intros. unfold supervisionEdits.
  destruct (supervisionDoi _ _ _ _) as [doiElement edits1].
  destruct (supervisionDai _ _ _ _ _ _ _) as [daiElement edits2].
  rewrite supervisionVal_eq.
  exists (edits2 ++ removalEdits (querySelector ln [Sel [STag "Val"]])),
    (ElementParent daiElement).
  now rewrite <- app_assoc.
Qed.

Lemma inDocument_elementAt : forall doc i,
  locate doc i <> None -> inDocument doc (elementAt doc i).
Proof.
  intros doc i H. unfold elementAt.
  destruct (locate doc i) as [e |] eqn:E; [| now elim H].
  unfold locate in E. apply find_some in E. tauto.
Qed.




(** * Further properties of the code *)

(** ** Editions and kinds of subscription *)

(** A document without edition attributes. *)
Definition firstEdition : Document :=
  Elem 0 "SCL" [] [publisher; subscriber "2" [supervisionLN 30 "1" "" false]].

Lemma andb_false_tail : forall a b, b = false -> a && b = false.
Proof. intros a b ->. apply andb_false_r. Qed.

(** X1: In a document of edition 2003 no supervision is allowed, and
    [instantiateSubscriptionSupervision] gives the empty batch whatever the
    control block, the device, the logical node handed in and the allocator
    of instance numbers are.  A document element without [version],
    [revision] and [release] is of that edition. *)
Theorem first_edition_never_supervised :
  forall (minInst : list Element -> option string) (doc : Document)
         (fresh : NodeId) (cb ied existing : option Element),
    getSclSchemaVersion doc = "2003" ->
    (forall c i ty, isSupervisionAllowed doc c i ty = false) /\
    instantiateSubscriptionSupervision minInst doc fresh cb ied existing = [].
Proof.
  intros minInst doc fresh cb ied existing H.
  assert (Hno : forall c i ty, isSupervisionAllowed doc c i ty = false).
  { intros c i ty. unfold isSupervisionAllowed. now rewrite H. }
  split; [exact Hno |].
  unfold instantiateSubscriptionSupervision.
  destruct cb as [c |]; [| reflexivity].
  destruct ied as [i |]; [| reflexivity].
  now rewrite Hno.
Qed.

(** X1, witness: a station without edition attributes. *)
Lemma first_edition_never_supervised_witness :
  getSclSchemaVersion firstEdition = "2003" /\
  instantiateSubscriptionSupervision minAvailableInstance firstEdition 100
    (Some (elementAt firstEdition 6)) (Some (elementAt firstEdition 20)) None
  = [].
Proof.
  split; [reflexivity |].
  apply (first_edition_never_supervised minAvailableInstance firstEdition 100
           (Some (elementAt firstEdition 6))
           (Some (elementAt firstEdition 20)) None).
  reflexivity.
Defined.

(** X2: In a document of edition 2003 [isSubscribedTo] does not look at the
    control block or at the kind of message: the answer is the same for any
    two of them. *)
Theorem first_edition_ignores_control_block :
  forall (doc : Document) (k k' : ControlTag) (cb cb' fcda : option Element)
         (extRef : Element),
    getSclSchemaVersion doc = "2003" ->
    isSubscribedTo doc k cb fcda extRef =
    isSubscribedTo doc k' cb' fcda extRef.
Proof.
  intros doc k k' cb cb' fcda extRef H.
  unfold isSubscribedTo, checkEditionSpecificRequirements.
  now rewrite H.
Qed.

(** X2, witness: with and without a control block, in a document without
    edition attributes. *)
Lemma first_edition_ignores_control_block_witness :
  isSubscribedTo firstEdition GSEControl (Some (elementAt firstEdition 6))
                 None extRefEmptyOwner =
  isSubscribedTo firstEdition SampledValueControl None None extRefEmptyOwner.
Proof.
  apply (first_edition_ignores_control_block firstEdition GSEControl
           SampledValueControl (Some (elementAt firstEdition 6)) None None
           extRefEmptyOwner).
  reflexivity.
Defined.

(** X3: In a document of a later edition a reference that is subscribed to a
    data point as GOOSE is not subscribed as sampled values to any data
    point of any control block, since its [serviceType] cannot be both. *)
Theorem later_edition_kinds_exclusive :
  forall (doc : Document) (cb fcda cb' fcda' : option Element)
         (extRef : Element),
    getSclSchemaVersion doc <> "2003" ->
    isSubscribedTo doc GSEControl cb fcda extRef = true ->
    isSubscribedTo doc SampledValueControl cb' fcda' extRef = false.
Proof.
  intros doc cb fcda cb' fcda' extRef Hed H.
  apply String.eqb_neq in Hed.
  unfold isSubscribedTo, checkEditionSpecificRequirements in *.
  rewrite Hed in *.
  apply andb_true_iff in H. destruct H as [_ H].
  repeat (apply andb_true_iff in H; destruct H as [H _]).
  apply String.eqb_eq in H. rewrite H.
  apply andb_false_tail. reflexivity.
Qed.

(** A publisher with a data set of two data points and a GOOSE control
    block, and a subscriber with a reference to the first data point and,
    inside a [Private], a copy of that reference. *)
Definition wired : Document :=
  Elem 0 "SCL" [("version", "2007"); ("revision", "B")]
    [Elem 1 "IED" [("name", "PUB")]
       [Elem 2 "AccessPoint" [("name", "AP1")]
          [Elem 3 "Server" []
             [Elem 4 "LDevice" [("inst", "LD0")]
                [Elem 5 "LN0" [("lnClass", "LLN0"); ("inst", "")]
                   [Elem 6 "DataSet" [("name", "ds")]
                      [Elem 7 "FCDA"
                         [("ldInst", "LD0"); ("lnClass", "MMXU");
                          ("lnInst", "1"); ("doName", "A");
                          ("daName", "phsA")] [];
                       Elem 8 "FCDA"
                         [("ldInst", "LD0"); ("lnClass", "MMXU");
                          ("lnInst", "1"); ("doName", "A");
                          ("daName", "phsB")] []];
                    Elem 9 "GSEControl" [("name", "gcb"); ("datSet", "ds")]
                      []]]]]];
     Elem 20 "IED" [("name", "SUB")]
       [Elem 21 "AccessPoint" [("name", "AP1")]
          [Elem 22 "Server" []
             [Elem 23 "LDevice" [("inst", "LD0")]
                [Elem 24 "LN0" [("lnClass", "LLN0"); ("inst", "")]
                   [Elem 25 "Inputs" []
                      [Elem 26 "ExtRef"
                         [("iedName", "PUB"); ("ldInst", "LD0");
                          ("lnClass", "MMXU"); ("lnInst", "1");
                          ("doName", "A"); ("daName", "phsA");
                          ("serviceType", "GOOSE"); ("srcLDInst", "LD0");
                          ("srcLNClass", "LLN0"); ("srcCBName", "gcb")] [];
                       Elem 27 "Private" []
                         [Elem 28 "ExtRef"
                            [("iedName", "PUB"); ("ldInst", "LD0");
                             ("lnClass", "MMXU"); ("lnInst", "1");
                             ("doName", "A"); ("daName", "phsA")] []]]]]]]]].

(** X3, witness: the reference of [SUB] to the first data point of [PUB],
    which is a GOOSE subscription. *)
Lemma later_edition_kinds_exclusive_witness :
  isSubscribedTo wired GSEControl (Some (elementAt wired 9))
                 (Some (elementAt wired 7)) (elementAt wired 26) = true /\
  isSubscribedTo wired SampledValueControl (Some (elementAt wired 9))
                 (Some (elementAt wired 7)) (elementAt wired 26) = false.
Proof.
  split; [reflexivity |].
  apply (later_edition_kinds_exclusive wired (Some (elementAt wired 9))
           (Some (elementAt wired 7)));
    [vm_compute; discriminate | reflexivity].
Defined.

(** ** Absent and empty attributes *)

(** The element with one attribute set. *)
Definition withAttribute (e : Element) (name value : string) : Element :=
  mkElement (setAttribute (node e) name value) (ancestors e).

Lemma lookupAttr_putAttr_other : forall a b v l,
  a <> b -> lookupAttr b (putAttr a v l) = lookupAttr b l.
Proof.
  intros a b v l Hab. induction l as [| [k w] l IH]; simpl.
  - apply String.eqb_neq in Hab. now rewrite Hab.
  - destruct (String.eqb k a) eqn:E; simpl.
    + apply String.eqb_eq in E. subst k.
      apply String.eqb_neq in Hab. now rewrite Hab.
    + now rewrite IH.
Qed.

Lemma getAttribute_withAttribute_other : forall e a b v,
  a <> b -> getAttribute (withAttribute e a v) b = getAttribute e b.
Proof.
  intros [[i t attrs cs | s] up] a b v Hab; [| reflexivity].
  unfold getAttribute, withAttribute. simpl.
  now apply lookupAttr_putAttr_other.
Qed.

Lemma orElse_withAttribute_empty : forall e a b,
  getAttribute e a = None ->
  orElse (ofNullable (getAttribute (withAttribute e a "") b)) "" =
  orElse (ofNullable (getAttribute e b)) "".
Proof.
  intros e a b Ha. destruct (String.eqb a b) eqn:E.
  - apply String.eqb_eq in E. subst b. rewrite Ha.
    destruct e as [[i t attrs cs | s] up]; [| reflexivity].
    unfold getAttribute, withAttribute. simpl.
    now rewrite lookupAttr_putAttr.
  - apply String.eqb_neq in E.
    now rewrite getAttribute_withAttribute_other.
Qed.

(** X4: [isSubscribedTo] does not tell an absent attribute from an empty one:
    giving the reference one of the six compared attributes it lacks, with
    the empty string as value, leaves the answer as it was.  ([isSubscribed]
    does change with it: it asks for the presence of the attribute.) *)
Theorem isSubscribedTo_empty_attribute :
  forall (doc : Document) (k : ControlTag) (cb fcda : option Element)
         (extRef : Element) (a : string),
    In a dataAttributes ->
    getAttribute extRef a = None ->
    isSubscribedTo doc k cb fcda (withAttribute extRef a "") =
    isSubscribedTo doc k cb fcda extRef.
Proof.
  intros doc k cb fcda extRef a Hin Ha.
  assert (Hied : getAttribute (withAttribute extRef a "") "iedName"
                 = getAttribute extRef "iedName").
  { apply getAttribute_withAttribute_other. intros ->.
    simpl in Hin. repeat (destruct Hin as [Hin | Hin]; [discriminate |]).
    contradiction. }
  unfold isSubscribedTo, checkEditionSpecificRequirements,
    sameAttributeValue, sameAttributeValueDiffName, optAttribute.
  rewrite Hied.
  now rewrite !(orElse_withAttribute_empty extRef a) by exact Ha.
Qed.

(** X4, witness: the reference of [SUB] has no [prefix]; with an empty one
    it is subscribed as before. *)
Lemma isSubscribedTo_empty_attribute_witness :
  getAttribute (elementAt wired 26) "prefix" = None /\
  isSubscribedTo wired GSEControl (Some (elementAt wired 9))
                 (Some (elementAt wired 7))
                 (withAttribute (elementAt wired 26) "prefix" "") = true.
Proof.
  split; [reflexivity |].
  rewrite (isSubscribedTo_empty_attribute wired GSEControl
             (Some (elementAt wired 9)) (Some (elementAt wired 7))
             (elementAt wired 26) "prefix");
    [reflexivity | simpl; tauto | reflexivity].
Defined.

(** ** Supervision values *)

Lemma append_empty_left : forall a b : string,
  (a ++ b)%string = "" -> a = "" /\ b = "".
Proof. intros [| c a] b H; [now split | discriminate]. Qed.

Lemma controlBlockReference_not_empty : forall cb r,
  controlBlockReference cb = Some r -> r <> "".
Proof.
  intros [cb |] r H; [| discriminate].
  rewrite controlBlockReference_unfold in H.
  destruct (_ && _); [discriminate |].
  injection H as <-. intros E.
  apply append_empty_left in E. destruct E as [_ E].
  apply append_empty_left in E. destruct E as [_ E]. discriminate.
Qed.

(** X5: The supervisions of GOOSE and those of sampled values are kept apart:
    no value is among the supervision values of a device both for
    [GSEControl] and for another kind of control block. *)
Theorem getSupervisionCbRefs_kinds_disjoint :
  forall (ied val : Element) (cbTagName : string),
    cbTagName <> "GSEControl" ->
    In val (getSupervisionCbRefs ied "GSEControl") ->
    In val (getSupervisionCbRefs ied cbTagName) -> False.
Proof.
  intros ied val t Ht Hg Hs.
  apply getSupervisionCbRefs_path in Hg, Hs.
  destruct Hg as [_ [lnTag [dai [doi [ln [_ Pg]]]]]].
  destruct Hs as [_ [lnTag' [dai' [doi' [ln' [_ Ps]]]]]].
  destruct Pg as [Hd Ho Hl _ _ _ _ Hc _ _ _ _ _].
  destruct Ps as [Hd' Ho' Hl' _ _ _ _ Hc' _ _ _ _ _].
  rewrite Hd in Hd'. injection Hd' as <-.
  rewrite Ho in Ho'. injection Ho' as <-.
  rewrite Hl in Hl'. injection Hl' as <-.
  rewrite Hc in Hc'. unfold supervisionTypeOf in Hc'.
  apply String.eqb_neq in Ht. rewrite Ht in Hc'. discriminate.
Qed.

(** X5, witness: the first supervision value of [SUB] is one for GOOSE and
    none for sampled values. *)
Lemma getSupervisionCbRefs_kinds_disjoint_witness :
  In (elementAt supervised 33)
     (getSupervisionCbRefs (elementAt supervised 20) "GSEControl") /\
  ~ In (elementAt supervised 33)
       (getSupervisionCbRefs (elementAt supervised 20)
                             "SampledValueControl").
Proof.
  split; [vm_compute; tauto |].
  intros H.
  apply (getSupervisionCbRefs_kinds_disjoint
           (elementAt supervised 20) (elementAt supervised 33)
           "SampledValueControl");
    [discriminate | vm_compute; tauto | exact H].
Defined.

(** X6: The value that the supervision search settles on for a control block is
    never an empty one: it counts among the supervisions in use of the
    device, and a further supervision of that control block is refused in
    any document and for any class. *)
Theorem findSupervisionVal_in_use :
  forall (cb ied val : Element),
    findSupervisionVal cb ied = Some val ->
    textContent (node val) <> "" /\
    (1 <= instantiatedSupervisionsCount ied cb)%Z /\
    (forall doc ty, isSupervisionAllowed doc cb ied ty = false).
Proof.
  intros cb ied val H.
  pose proof (findSupervisionVal_some _ _ _ H) as [Hin Href].
  assert (Hne : textContent (node val) <> "")
    by exact (controlBlockReference_not_empty _ _ Href).
  split; [exact Hne |]. split.
  - unfold instantiatedSupervisionsCount.
    assert (Hf : In val
                   (filter (fun v => negb (String.eqb (textContent (node v)) ""))
                           (getSupervisionCbRefs ied (tagName cb)))).
    { apply filter_In. split; [exact Hin |].
      apply String.eqb_neq in Hne. now rewrite Hne. }
    destruct (filter _ _); [contradiction | simpl length; lia].
  - intros doc ty. unfold isSupervisionAllowed. rewrite H.
    destruct (String.eqb _ _); [reflexivity |].
    destruct (querySelector _ _); reflexivity.
Qed.

(** X6, witness: the supervision of [gcb1] in the station. *)
Lemma findSupervisionVal_in_use_witness :
  findSupervisionVal (elementAt supervised 6) (elementAt supervised 20)
    = Some (elementAt supervised 33) /\
  (1 <= instantiatedSupervisionsCount (elementAt supervised 20%nat)
                                      (elementAt supervised 6%nat))%Z.
Proof.
  split; [reflexivity |].
  apply (findSupervisionVal_in_use (elementAt supervised 6)
           (elementAt supervised 20) (elementAt supervised 33)).
  reflexivity.
Defined.

(** X7: Where a supervision is allowed there is none to remove: the control
    block has no supervision value on the device yet, and
    [removeSubscriptionSupervision] for the two gives the empty batch. *)
Theorem isSupervisionAllowed_nothing_to_remove :
  forall (doc : Document) (cb ied : Element) (ty : string),
    isSupervisionAllowed doc cb ied ty = true ->
    findSupervisionVal cb ied = None /\
    removeSubscriptionSupervision (Some cb) (Some ied) = [].
Proof.
  intros doc cb ied ty H. unfold isSupervisionAllowed in H.
  destruct (String.eqb _ _); [discriminate |].
  destruct (querySelector _ _); [| discriminate].
  destruct (findSupervisionVal cb ied) eqn:E; [discriminate |].
  split; [reflexivity |]. simpl. now rewrite E.
Qed.

(** X7, witness: [gcb1] is not supervised by [SUB], which has a free logical
    node. *)
Lemma isSupervisionAllowed_nothing_to_remove_witness :
  isSupervisionAllowed withFreeSlot (elementAt withFreeSlot 6)
                       (elementAt withFreeSlot 20) "LGOS" = true /\
  removeSubscriptionSupervision (Some (elementAt withFreeSlot 6))
                                (Some (elementAt withFreeSlot 20)) = [].
Proof.
  split; [reflexivity |].
  apply (isSupervisionAllowed_nothing_to_remove withFreeSlot
           (elementAt withFreeSlot 6) (elementAt withFreeSlot 20) "LGOS").
  reflexivity.
Defined.

(** ** The batch of [instantiateSubscriptionSupervision] *)

Lemma instantiate_unfold : forall minInst doc fresh cb ied existing,
  instantiateSubscriptionSupervision minInst doc fresh (Some cb) (Some ied)
                                     existing =
  let ty := supervisionTypeOf (tagName cb) in
  if isSupervisionAllowed doc cb ied ty then
    match
      match existing with
      | Some ln => Some ln
      | None => findOrCreateAvailableLNInst minInst fresh cb ied ty
      end
    with
    | None => []
    | Some ln =>
        if isSupervisionModificationAllowed doc ied ty
        then supervisionEdits fresh cb ied ln (insertOfSupervisionLN ied ln ty)
        else []
    end
  else [].
Proof.
  intros. unfold instantiateSubscriptionSupervision. cbv zeta.
  destruct (isSupervisionAllowed _ _ _ _); [| reflexivity]. simpl negb.
  cbv iota.
  destruct (match existing with Some _ => _ | None => _ end);
    [| reflexivity].
  destruct (isSupervisionModificationAllowed _ _ _); reflexivity.
Qed.

Lemma supervisionEdits_not_empty : forall fresh cb ied ln edits,
  supervisionEdits fresh cb ied ln edits <> [].
Proof.
  intros fresh cb ied ln edits H.
  destruct (supervisionEdits_last fresh cb ied ln edits) as [pre [p E]].
  rewrite E in H. destruct pre; discriminate.
Qed.

(** X8: The batch of [instantiateSubscriptionSupervision] for a control block
    and a device is not empty exactly when the supervision is allowed, the
    modification of supervisions is allowed, and a logical node is at hand:
    the one passed in or, without one, the one that
    [findOrCreateAvailableLNInst] gives. *)
Theorem instantiateSubscriptionSupervision_not_empty :
  forall (minInst : list Element -> option string) (doc : Document)
         (fresh : NodeId) (cb ied : Element) (existing : option Element),
    instantiateSubscriptionSupervision minInst doc fresh (Some cb) (Some ied)
                                       existing <> [] <->
    isSupervisionAllowed doc cb ied (supervisionTypeOf (tagName cb)) = true /\
    isSupervisionModificationAllowed doc ied (supervisionTypeOf (tagName cb))
      = true /\
    (existing <> None \/
     findOrCreateAvailableLNInst minInst fresh cb ied
                                 (supervisionTypeOf (tagName cb)) <> None).
Proof.
  intros minInst doc fresh cb ied existing.
  rewrite instantiate_unfold. cbv zeta.
  destruct (isSupervisionAllowed _ _ _ _);
    [| split; [intros H; now elim H | intros [H _]; discriminate]].
  destruct existing as [ln |].
  - destruct (isSupervisionModificationAllowed _ _ _).
    + split; [intros _ | intros _; apply supervisionEdits_not_empty].
      split; [reflexivity |]. split; [reflexivity |]. left. discriminate.
    + split; [intros H; now elim H | intros [_ [H _]]; discriminate].
  - destruct (findOrCreateAvailableLNInst _ _ _ _ _) as [ln |].
    + destruct (isSupervisionModificationAllowed _ _ _).
      * split; [intros _ | intros _; apply supervisionEdits_not_empty].
        split; [reflexivity |]. split; [reflexivity |]. right. discriminate.
      * split; [intros H; now elim H | intros [_ [H _]]; discriminate].
    + split; [intros H; now elim H |].
      intros [_ [_ [H | H]]]; now elim H.
Qed.

(** X9: The batch of [instantiateSubscriptionSupervision], when it is not
    empty, is made of up to five edits in this order: the insertion of the
    logical node [ln] if it has no parent yet, the insertion of a new [DOI]
    into [ln], the insertion of a new [DAI], the removal of the first [Val]
    of [ln], and the insertion of the new [Val], which is always there and
    always last. *)
Theorem instantiateSubscriptionSupervision_order :
  forall (minInst : list Element -> option string) (doc : Document)
         (fresh : NodeId) (cb ied : Element) (existing : option Element),
    instantiateSubscriptionSupervision minInst doc fresh (Some cb) (Some ied)
                                       existing <> [] ->
    exists (ln daiElement : Element) (lnEdit doiEdit daiEdit removal : list Edit),
      instantiateSubscriptionSupervision minInst doc fresh (Some cb)
                                         (Some ied) existing
      = lnEdit ++ doiEdit ++ daiEdit ++ removal ++
        [Insert (ElementParent daiElement) (newVal fresh cb) None] /\
      (lnEdit = [] \/
       parentElement ln = None /\
       exists parent reference,
         lnEdit = [Insert (ElementParent parent) (node ln) reference]) /\
      (doiEdit = [] \/
       doiEdit =
         [Insert (ElementParent ln)
                 (newDoi fresh
                    (supervisionNameOf (supervisionTypeOf (tagName cb))))
                 None]) /\
      (daiEdit = [] \/
       exists doiElement,
         daiElement =
           detached (newDai fresh ied (supervisionTypeOf (tagName cb))
                       (supervisionNameOf (supervisionTypeOf (tagName cb)))) /\
         daiEdit = [Insert (ElementParent doiElement) (node daiElement) None])
      /\
      (removal = [] /\ querySelector ln [Sel [STag "Val"]] = None \/
       exists val, querySelector ln [Sel [STag "Val"]] = Some val /\
                   removal = [Remove (Some val)]) /\
      length
        (instantiateSubscriptionSupervision minInst doc fresh (Some cb)
                                            (Some ied) existing) <= 5.
Proof.
  intros minInst doc fresh cb ied existing H.
  rewrite instantiate_unfold in *. cbv zeta in *.
  destruct (isSupervisionAllowed _ _ _ _); [| now elim H].
  destruct (match existing with Some _ => _ | None => _ end) as [ln |];
    [| now elim H].
  destruct (isSupervisionModificationAllowed _ _ _); [| now elim H].
  clear H.
  set (ty := supervisionTypeOf (tagName cb)).
  set (nm := supervisionNameOf ty).
  assert (Hln : insertOfSupervisionLN ied ln ty = [] \/
                parentElement ln = None /\
                exists parent reference,
                  insertOfSupervisionLN ied ln ty =
                  [Insert (ElementParent parent) (node ln) reference]).
  { unfold insertOfSupervisionLN.
    destruct (parentElement ln); [now left |].
    destruct (match querySelector ied (lnOfClass ty) with
              | Some first => parentElement first
              | None => None
              end) as [parent |]; [| now left].
    right. split; [reflexivity |]. eexists. eexists. reflexivity. }
  assert (Hlen : length (insertOfSupervisionLN ied ln ty) <= 1).
  { destruct Hln as [-> | [_ [p [r ->]]]]; simpl; lia. }
  assert (Hrem :
    (removalEdits (querySelector ln [Sel [STag "Val"]]) = [] /\
     querySelector ln [Sel [STag "Val"]] = None \/
     exists val, querySelector ln [Sel [STag "Val"]] = Some val /\
                 removalEdits (querySelector ln [Sel [STag "Val"]])
                 = [Remove (Some val)]) /\
    length (removalEdits (querySelector ln [Sel [STag "Val"]])) <= 1).
  { unfold removalEdits.
    destruct (querySelector ln [Sel [STag "Val"]]) as [v |]; simpl.
    - split; [right; now exists v | lia].
    - split; [now left | lia]. }
  destruct Hrem as [Hrem Hrlen].
  unfold supervisionEdits. fold ty. fold nm.
  unfold supervisionDoi, supervisionDai.
  destruct (querySelector ln [Sel [STag "DOI"; SAttr "name" nm]])
    as [doi |];
    destruct (querySelector ln [doiDai nm]) as [dai |];
    rewrite supervisionVal_eq.
  - exists ln, dai, (insertOfSupervisionLN ied ln ty), [], [],
      (removalEdits (querySelector ln [Sel [STag "Val"]])).
    simpl app.
    repeat (split; [first [reflexivity | assumption | now left] |]).
    rewrite !length_app. simpl. lia.
  - exists ln, (detached (newDai fresh ied ty nm)),
      (insertOfSupervisionLN ied ln ty), [],
      [Insert (ElementParent doi) (newDai fresh ied ty nm) None],
      (removalEdits (querySelector ln [Sel [STag "Val"]])).
    split; [rewrite <- !app_assoc; reflexivity |].
    split; [assumption |]. split; [now left |].
    split; [right; exists doi; split; reflexivity |].
    split; [assumption |].
    rewrite !length_app. simpl. lia.
  - exists ln, dai, (insertOfSupervisionLN ied ln ty),
      [Insert (ElementParent ln) (newDoi fresh nm) None], [],
      (removalEdits (querySelector ln [Sel [STag "Val"]])).
    split; [rewrite <- !app_assoc; reflexivity |].
    split; [assumption |]. split; [now right |].
    split; [now left |]. split; [assumption |].
    rewrite !length_app. simpl. lia.
  - exists ln, (detached (newDai fresh ied ty nm)),
      (insertOfSupervisionLN ied ln ty),
      [Insert (ElementParent ln) (newDoi fresh nm) None],
      [Insert (ElementParent (detached (newDoi fresh nm)))
              (newDai fresh ied ty nm) None],
      (removalEdits (querySelector ln [Sel [STag "Val"]])).
    split; [rewrite <- !app_assoc; reflexivity |].
    split; [assumption |]. split; [now right |].
    split; [right; eexists; split; reflexivity |].
    split; [assumption |].
    rewrite !length_app. simpl. lia.
Qed.

(** X9, witness: the supervision of [gcb1] in the free logical node of
    [SUB]. *)
Lemma instantiateSubscriptionSupervision_order_witness :
  instantiateSubscriptionSupervision minAvailableInstance withFreeSlot 100
    (Some (elementAt withFreeSlot 6)) (Some (elementAt withFreeSlot 20)) None
    <> [] /\
  length
    (instantiateSubscriptionSupervision minAvailableInstance withFreeSlot 100
       (Some (elementAt withFreeSlot 6)) (Some (elementAt withFreeSlot 20))
       None) <= 5.
Proof.
  split; [vm_compute; discriminate |].
  destruct (instantiateSubscriptionSupervision_order minAvailableInstance
              withFreeSlot 100 (elementAt withFreeSlot 6)
              (elementAt withFreeSlot 20) None)
    as [ln [dai [e1 [e2 [e3 [e4 [_ [_ [_ [_ [_ H]]]]]]]]]]];
    [vm_compute; discriminate | exact H].
Defined.

(** ** The logical node of a new supervision *)

Lemma descendants_have_parent : forall x e,
  In e (descendants x) -> parentElement e <> None.
Proof.
  intros x e H. destruct (descendants_ancestors _ _ H) as [rel Hrel].
  unfold parentElement. rewrite Hrel. destruct rel; discriminate.
Qed.

(** X10: [findOrCreateAvailableLNInst] reuses before it creates.  If a logical
    node of the class in the device is available (it has no supervision
    value, or an empty one), the result is such a node, the first in
    document order; it has a parent, so the batch inserts no logical node.
    Only if none is available the result is what
    [createNewSupervisionLnInst] gives. *)
Theorem findOrCreateAvailableLNInst_reuses :
  forall (minInst : list Element -> option string) (fresh : NodeId)
         (cb ied : Element) (ty : string),
    (forall ln,
       In ln (querySelectorAll ied (lnOfClass ty)) ->
       isAvailableLN ty ln = true ->
       exists found before after,
         findOrCreateAvailableLNInst minInst fresh cb ied ty = Some found /\
         querySelectorAll ied (lnOfClass ty) = before ++ found :: after /\
         isAvailableLN ty found = true /\
         (forall l, In l before -> isAvailableLN ty l = false) /\
         parentElement found <> None /\
         insertOfSupervisionLN ied found ty = []) /\
    ((forall ln,
        In ln (querySelectorAll ied (lnOfClass ty)) ->
        isAvailableLN ty ln = false) ->
     findOrCreateAvailableLNInst minInst fresh cb ied ty =
     createNewSupervisionLnInst minInst fresh cb ied ty).
Proof.
  intros minInst fresh cb ied ty. unfold findOrCreateAvailableLNInst. split.
  - intros ln Hin Hav.
    assert (Hsplit : forall l,
      (exists x, In x l /\ isAvailableLN ty x = true) ->
      exists found before after,
        find (isAvailableLN ty) l = Some found /\
        l = before ++ found :: after /\
        isAvailableLN ty found = true /\
        (forall y, In y before -> isAvailableLN ty y = false)).
    { induction l as [| y l IH]; intros [x [Hx Hxa]]; [contradiction |].
      simpl. destruct (isAvailableLN ty y) eqn:Ey.
      - exists y, [], l. repeat split; try assumption. intros z [].
      - destruct Hx as [-> | Hx]; [congruence |].
        destruct (IH (ex_intro _ x (conj Hx Hxa)))
          as [f [b [a [Hf [Hl [Hfa Hb]]]]]].
        exists f, (y :: b), a. rewrite Hf, Hl.
        repeat split; try assumption.
        intros z [<- | Hz]; [exact Ey | now apply Hb]. }
    destruct (Hsplit (querySelectorAll ied (lnOfClass ty))
                (ex_intro _ ln (conj Hin Hav)))
      as [f [b [a [Hf [Hl [Hfa Hb]]]]]].
    exists f, b, a. rewrite Hf.
    assert (Hp : parentElement f <> None).
    { apply (descendants_have_parent ied).
      apply (querySelectorAll_In ied (lnOfClass ty) f).
      rewrite Hl. apply in_or_app. right. now left. }
    repeat (split; [first [reflexivity | assumption] |]).
    unfold insertOfSupervisionLN.
    destruct (parentElement f); [reflexivity | now elim Hp].
  - intros Hnone.
    destruct (find (isAvailableLN ty) (querySelectorAll ied (lnOfClass ty)))
      as [f |] eqn:E; [| reflexivity].
    apply find_some in E. destruct E as [Hin Hav].
    rewrite (Hnone f Hin) in Hav. discriminate.
Qed.

(** X10, witness: a subscriber with a free logical node, and one without. *)
Lemma findOrCreateAvailableLNInst_reuses_witness :
  (exists found,
     findOrCreateAvailableLNInst minAvailableInstance 100
       (elementAt withFreeSlot 6) (elementAt withFreeSlot 20) "LGOS"
     = Some found /\ parentElement found <> None) /\
  findOrCreateAvailableLNInst minAvailableInstance 100
    (elementAt withoutFreeSlot 6) (elementAt withoutFreeSlot 20) "LGOS"
  = createNewSupervisionLnInst minAvailableInstance 100
      (elementAt withoutFreeSlot 6) (elementAt withoutFreeSlot 20) "LGOS".
Proof.
  split.
  - destruct (proj1 (findOrCreateAvailableLNInst_reuses minAvailableInstance
                       100 (elementAt withFreeSlot 6)
                       (elementAt withFreeSlot 20) "LGOS")
                    (elementAt withFreeSlot 30))
      as [found [b [a [Hf [_ [_ [_ [Hp _]]]]]]]];
      [vm_compute; tauto | reflexivity |].
    exists found. now split.
  - apply (proj2 (findOrCreateAvailableLNInst_reuses minAvailableInstance
                    100 (elementAt withoutFreeSlot 6)
                    (elementAt withoutFreeSlot 20) "LGOS")).
    intros ln Hln. vm_compute in Hln.
    destruct Hln as [<- | [<- | []]]; reflexivity.
Defined.

(** X11: What [createNewSupervisionLnInst] gives, when it gives a logical node:
    a detached [LN] of the class asked for that carries the marker of the
    engine, the [lnType] of the logical node of the first supervision value
    of the device, and the instance number the allocator picked for the
    logical nodes of that class.  It gives none when the device has no
    supervision value for this kind of control block, when the first one is
    not below an [LN], and when the allocator has no number left. *)
Theorem createNewSupervisionLnInst_result :
  forall (minInst : list Element -> option string) (fresh : NodeId)
         (cb ied : Element) (ty : string),
    (forall ln,
       createNewSupervisionLnInst minInst fresh cb ied ty = Some ln ->
       exists first sibling inst,
         hd_error (getSupervisionCbRefs ied (tagName cb)) = Some first /\
         closest first [Sel [STag "LN"]] = Some sibling /\
         minInst (querySelectorAll ied (lnOfClass ty)) = Some inst /\
         inst <> "" /\
         ln = detached
                (createdLN fresh ty
                   (orElse (ofNullable (getAttribute sibling "lnType")) "")
                   inst) /\
         parentElement ln = None /\
         isOpenScdCreated ln = true) /\
    (getSupervisionCbRefs ied (tagName cb) = [] \/
     (exists first,
        hd_error (getSupervisionCbRefs ied (tagName cb)) = Some first /\
        closest first [Sel [STag "LN"]] = None) \/
     minInst (querySelectorAll ied (lnOfClass ty)) = None \/
     minInst (querySelectorAll ied (lnOfClass ty)) = Some "" ->
     createNewSupervisionLnInst minInst fresh cb ied ty = None).
Proof.
  intros minInst fresh cb ied ty. unfold createNewSupervisionLnInst. split.
  - intros ln H.
    destruct (hd_error (getSupervisionCbRefs ied (tagName cb)))
      as [first |] eqn:Ef; [| discriminate].
    simpl optClosest in H.
    destruct (closest first [Sel [STag "LN"]]) as [sibling |] eqn:Es;
      [| discriminate].
    simpl in H.
    destruct (minInst _) as [inst |] eqn:Ei; [| discriminate].
    destruct (String.eqb inst "") eqn:E; [discriminate |].
    apply String.eqb_neq in E. injection H as <-.
    exists first, sibling, inst.
    repeat (split; [first [reflexivity | assumption] |]).
    reflexivity.
  - intros [H | [[first [Hf Hc]] | [H | H]]].
    + now rewrite H.
    + rewrite Hf. simpl. now rewrite Hc.
    + destruct (optClosest _ _); [| reflexivity]. simpl. now rewrite H.
    + destruct (optClosest _ _); [| reflexivity]. simpl. now rewrite H.
Qed.

(** X11, witness: a new logical node for [SUB], and none for [PUB], which
    has no supervision. *)
Lemma createNewSupervisionLnInst_result_witness :
  (exists ln,
     createNewSupervisionLnInst minAvailableInstance 100
       (elementAt withoutFreeSlot 6) (elementAt withoutFreeSlot 20) "LGOS"
     = Some ln /\ isOpenScdCreated ln = true) /\
  createNewSupervisionLnInst minAvailableInstance 100
    (elementAt withoutFreeSlot 6) (elementAt withoutFreeSlot 1) "LGOS"
  = None.
Proof.
  split.
  - destruct (createNewSupervisionLnInst minAvailableInstance 100
                (elementAt withoutFreeSlot 6) (elementAt withoutFreeSlot 20)
                "LGOS") as [ln |] eqn:E; [| vm_compute in E; discriminate].
    exists ln. split; [reflexivity |].
    destruct (proj1 (createNewSupervisionLnInst_result minAvailableInstance
                       100 (elementAt withoutFreeSlot 6)
                       (elementAt withoutFreeSlot 20) "LGOS") ln E)
      as [first [sibling [inst [_ [_ [_ [_ [_ [_ H]]]]]]]]].
    exact H.
  - apply (proj2 (createNewSupervisionLnInst_result minAvailableInstance
                    100 (elementAt withoutFreeSlot 6)
                    (elementAt withoutFreeSlot 1) "LGOS")).
    left. reflexivity.
Defined.

(** ** The capacity of a device *)

Lemma leadingDigits_uint : forall d a,
  leadingDigits (Some (Z.of_nat a)) (NilEmpty.string_of_uint d) =
  Some (Z.of_nat (Nat.of_uint_acc d a)).
Proof.
  induction d; intros a;
    cbn [NilEmpty.string_of_uint leadingDigits Nat.of_uint_acc];
    try reflexivity;
    match goal with
    | |- context [isDigit ?c] => change (isDigit c) with true
    end; cbv iota; rewrite <- IHd; do 2 f_equal;
    rewrite Nat.tail_mul_spec; unfold digitValue;
    simpl nat_of_ascii; simpl Nat.sub; lia.
Qed.

Lemma parseInt_uint : forall d,
  parseInt (NilZero.string_of_uint d) = Some (Z.of_nat (Nat.of_uint d)).
Proof.
  intros d. unfold Nat.of_uint.
  destruct d; try reflexivity;
    unfold parseInt, NilZero.string_of_uint;
    cbn [NilEmpty.string_of_uint trimStart];
    match goal with
    | |- context [isWhiteSpace ?c] => change (isWhiteSpace c) with false
    end; cbv iota; cbn [leadingDigits];
    match goal with
    | |- context [isDigit ?c] => change (isDigit c) with true
    end; cbv iota;
    match goal with
    | |- leadingDigits (Some ?z) _ = _ =>
        let n := eval vm_compute in (Z.to_nat z) in
        change z with (Z.of_nat n)
    end; rewrite leadingDigits_uint; reflexivity.
Qed.

(** The decimal numeral of [n], as it is written in an attribute. *)
Definition numeral (n : nat) : string :=
  NilZero.string_of_uint (Nat.to_uint n).

(** The attribute that holds the capacity for a kind of control block. *)
Definition capacityAttribute (controlBlockType : string) : string :=
  if String.eqb controlBlockType "GSEControl" then "maxGo" else "maxSv".

(** X12: [maxSupervisions] reads the capacity from [Services>SupSubscription]:
    [maxGo] for [GSEControl] and [maxSv] for any other kind.  An attribute
    that holds the decimal numeral of [n], for [n] in the range of the
    integers a JavaScript number holds exactly, gives [n].  The capacity is
    0 when the device has no such element, when the element lacks the
    attribute, and when the value of the attribute is empty or starts with
    an ASCII character that is neither a digit, a sign nor white space. *)
Theorem maxSupervisions_reads_capacity :
  forall (ied : Element) (controlBlockType : string),
    (forall sup n,
       (Z.of_nat n <= 9007199254740991)%Z ->
       querySelector ied
         [Child (Sel [STag "Services"]) [STag "SupSubscription"]] = Some sup ->
       getAttribute sup (capacityAttribute controlBlockType)
         = Some (numeral n) ->
       maxSupervisions ied controlBlockType = Z.of_nat n) /\
    (querySelector ied
       [Child (Sel [STag "Services"]) [STag "SupSubscription"]] = None ->
     maxSupervisions ied controlBlockType = 0%Z) /\
    (forall sup,
       querySelector ied
         [Child (Sel [STag "Services"]) [STag "SupSubscription"]] = Some sup ->
       getAttribute sup (capacityAttribute controlBlockType) = None \/
       getAttribute sup (capacityAttribute controlBlockType) = Some "" \/
       (exists c rest,
          getAttribute sup (capacityAttribute controlBlockType)
            = Some (String c rest) /\
          (nat_of_ascii c < 128)%nat /\
          isDigit c = false /\ isWhiteSpace c = false /\
          c <> "-"%char /\ c <> "+"%char) ->
       maxSupervisions ied controlBlockType = 0%Z).
Proof.
  intros ied t. unfold maxSupervisions, capacityAttribute.
  set (maxAttr := if String.eqb t "GSEControl" then "maxGo" else "maxSv").
  split; [| split].
  - intros sup n _ Hq Ha. rewrite Hq. simpl optAttribute. rewrite Ha.
    simpl orElse. unfold numeral. rewrite parseInt_uint.
    now rewrite Unsigned.of_to.
  - intros Hq. now rewrite Hq.
  - intros sup Hq [Ha | [Ha | [c [rest [Ha [_ [Hd [Hw [Hm Hp]]]]]]]]];
      rewrite Hq; simpl optAttribute; rewrite Ha; try reflexivity.
    simpl orElse. unfold parseInt. cbn [trimStart]. rewrite Hw.
    assert (Hl : leadingDigits None (String c rest) = None)
      by (cbn [leadingDigits]; now rewrite Hd).
    destruct c as [[] [] [] [] [] [] [] []];
      try (now elim Hm); try (now elim Hp); now rewrite Hl.
Qed.

(** X12, witness: [SUB] may supervise five GOOSE control blocks and no
    sampled values; [PUB] has no capacity. *)
Lemma maxSupervisions_reads_capacity_witness :
  maxSupervisions (elementAt withoutFreeSlot 20) "GSEControl" = 5%Z /\
  maxSupervisions (elementAt withoutFreeSlot 1) "GSEControl" = 0%Z /\
  maxSupervisions (elementAt withoutFreeSlot 20) "SampledValueControl" = 0%Z.
Proof.
  split; [| split].
  - apply (proj1 (maxSupervisions_reads_capacity
                    (elementAt withoutFreeSlot 20) "GSEControl")
                 (elementAt withoutFreeSlot 22) 5);
      [simpl; lia | reflexivity | reflexivity].
  - apply (proj1 (proj2 (maxSupervisions_reads_capacity
                           (elementAt withoutFreeSlot 1) "GSEControl"))).
    reflexivity.
  - apply (proj2 (proj2 (maxSupervisions_reads_capacity
                           (elementAt withoutFreeSlot 20)
                           "SampledValueControl"))
                 (elementAt withoutFreeSlot 22));
      [reflexivity | left; reflexivity].
Defined.

(** ** The data points of a reference *)

Lemma outsidePrivate_true : forall e,
  outsidePrivate e = true <-> closest e [Sel [STag "Private"]] = None.
Proof.
  intros e. unfold outsidePrivate.
  destruct (closest e [Sel [STag "Private"]]); split; congruence.
Qed.

Lemma sameOrEmpty_sameAttributeValue : forall fcda extRef a,
  sameOrEmpty fcda a (ofNullable (getAttribute extRef a)) =
  sameAttributeValue (Some fcda) (Some extRef) a.
Proof. reflexivity. Qed.

Lemma findFCDAs_found : forall doc extRef fcda,
  In fcda (findFCDAs doc extRef) ->
  tagName extRef = "ExtRef" /\
  closest extRef [Sel [STag "Private"]] = None /\
  tagName fcda = "FCDA" /\
  closest fcda [Sel [STag "Private"]] = None /\
  (exists ied,
     inDocument doc ied /\ tagName ied = "IED" /\
     getAttribute ied "name" = getAttribute extRef "iedName" /\
     closest ied [Sel [STag "Private"]] = None /\
     In fcda (descendants ied)) /\
  (forall a, In a dataAttributes ->
     sameAttributeValue (Some fcda) (Some extRef) a = true).
Proof.
  intros doc extRef fcda H. unfold findFCDAs in H.
  destruct (String.eqb (tagName extRef) "ExtRef") eqn:Et;
    [| contradiction].
  destruct (outsidePrivate extRef) eqn:Ep; [| contradiction].
  simpl in H.
  destruct (find _ (docGetElementsByTagName doc "IED")) as [ied |] eqn:Ef;
    [| contradiction].
  apply find_some in Ef. destruct Ef as [Hied Hname].
  apply filter_In in Hied. destruct Hied as [Hin Htag].
  apply andb_true_iff in Hname. destruct Hname as [Hname Hpriv].
  apply filter_In in H. destruct H as [H Hattrs].
  apply filter_In in H. destruct H as [H Hfp].
  apply filter_In in H. destruct H as [Hd Hft].
  apply String.eqb_eq in Et, Htag, Hft.
  apply outsidePrivate_true in Ep, Hpriv, Hfp.
  apply strictEq_eq in Hname.
  repeat (split; [assumption |]). split.
  - exists ied. repeat (split; [assumption |]).
    split; [| split; assumption].
    destruct (getAttribute ied "name"), (getAttribute extRef "iedName");
      simpl in Hname; congruence.
  - rewrite !sameOrEmpty_sameAttributeValue in Hattrs.
    repeat (apply andb_true_iff in Hattrs; destruct Hattrs as [Hattrs ?]).
    intros a Ha. simpl in Ha.
    repeat (destruct Ha as [<- | Ha]; [assumption |]). contradiction.
Qed.

(** X13: What [findFCDAs] finds for a reference.  Each data point found is an
    [FCDA] outside any [Private], below a device outside any [Private]
    whose name is what the reference has as [iedName] (a device without
    name for a reference without [iedName]), and agrees with the reference
    on the six attributes compared, absent ones taken as empty; the
    reference itself is an [ExtRef] outside any [Private].  Nothing is found
    for an element that is not an [ExtRef], for one inside a [Private], and
    when no device outside [Private] has that name. *)
Theorem findFCDAs_sound :
  forall (doc : Document) (extRef : Element),
    (forall fcda,
       In fcda (findFCDAs doc extRef) ->
       tagName extRef = "ExtRef" /\
       closest extRef [Sel [STag "Private"]] = None /\
       tagName fcda = "FCDA" /\
       closest fcda [Sel [STag "Private"]] = None /\
       (exists ied,
          inDocument doc ied /\ tagName ied = "IED" /\
          getAttribute ied "name" = getAttribute extRef "iedName" /\
          closest ied [Sel [STag "Private"]] = None /\
          In fcda (descendants ied)) /\
       (forall a, In a dataAttributes ->
          sameAttributeValue (Some fcda) (Some extRef) a = true)) /\
    (tagName extRef <> "ExtRef" \/
     closest extRef [Sel [STag "Private"]] <> None \/
     (forall ied,
        inDocument doc ied -> tagName ied = "IED" ->
        getAttribute ied "name" = getAttribute extRef "iedName" ->
        closest ied [Sel [STag "Private"]] <> None) ->
     findFCDAs doc extRef = []).
Proof.
  intros doc extRef. split; [apply findFCDAs_found |].
  unfold findFCDAs. intros [H | [H | H]].
  - apply String.eqb_neq in H. now rewrite H.
  - destruct (outsidePrivate extRef) eqn:E.
    + apply outsidePrivate_true in E. contradiction.
    + now rewrite orb_true_r.
  - destruct (_ || _); [reflexivity |].
    destruct (find _ (docGetElementsByTagName doc "IED")) as [ied |] eqn:Ef;
      [| reflexivity].
    apply find_some in Ef. destruct Ef as [Hied Hname].
    apply filter_In in Hied. destruct Hied as [Hin Htag].
    apply andb_true_iff in Hname. destruct Hname as [Hname Hpriv].
    apply String.eqb_eq in Htag. apply outsidePrivate_true in Hpriv.
    apply strictEq_eq in Hname. exfalso.
    apply (H ied Hin Htag); [| exact Hpriv].
    destruct (getAttribute ied "name"), (getAttribute extRef "iedName");
      simpl in Hname; congruence.
Qed.

(** X13, witness: the reference of [SUB] finds the first data point of
    [PUB]; its copy inside a [Private] finds nothing. *)
Lemma findFCDAs_sound_witness :
  findFCDAs wired (elementAt wired 26) = [elementAt wired 7] /\
  tagName (elementAt wired 7) = "FCDA" /\
  findFCDAs wired (elementAt wired 28) = [].
Proof.
  split; [reflexivity |]. split.
  - destruct (proj1 (findFCDAs_sound wired (elementAt wired 26))
                    (elementAt wired 7)) as [_ [_ [H _]]];
      [vm_compute; tauto | exact H].
  - apply (proj2 (findFCDAs_sound wired (elementAt wired 28))).
    right. left. vm_compute. discriminate.
Defined.

(** No device lies inside another device. *)
Definition devicesNotNested (doc : Document) : Prop :=
  forall ied d,
    inDocument doc ied -> tagName ied = "IED" ->
    In d (descendants ied) -> tagName d <> "IED".

Definition devicesNotNestedb (doc : Document) : bool :=
  forallb
    (fun ied =>
       negb (String.eqb (tagName ied) "IED") ||
       forallb (fun d => negb (String.eqb (tagName d) "IED"))
               (descendants ied))
    (walk [] doc).

Lemma devicesNotNestedb_sound : forall doc,
  devicesNotNestedb doc = true -> devicesNotNested doc.
Proof.
  intros doc H ied d Hin Htag Hd. unfold devicesNotNestedb in H.
  rewrite forallb_forall in H. specialize (H ied Hin).
  rewrite Htag in H. simpl in H.
  rewrite forallb_forall in H. specialize (H d Hd).
  apply negb_true_iff in H. now apply String.eqb_neq.
Qed.

Lemma closest_device : forall ied rel m scope,
  Path (node ied) (rel ++ [node ied]) m ->
  tagName ied = "IED" ->
  (forall d, In d (descendants ied) -> tagName d <> "IED") ->
  find (matches scope [Sel [STag "IED"]])
       (chain (rel ++ node ied :: ancestors ied)) = Some ied.
Proof.
  intros ied rel. induction rel as [| r rel IH]; intros m scope HP Htag Hno.
  - cbn [app chain find]. rewrite element_eta, matches_tag_only, Htag.
    assert (He : isElem (node ied) = true).
    { simpl in HP. now apply Path_top_elem in HP. }
    rewrite He. reflexivity.
  - destruct (Path_split _ _ _ HP [] r (rel ++ [node ied]) eq_refl)
      as [_ [HPr _]].
    cbn [app chain find].
    assert (Hd : In (mkElement r (rel ++ node ied :: ancestors ied))
                    (descendants ied)).
    { apply descendants_Path. exists rel. split; [exact HPr | reflexivity]. }
    rewrite matches_tag_only.
    pose proof (Hno _ Hd) as Hne. apply String.eqb_neq in Hne.
    rewrite Hne, andb_false_r.
    now apply (IH r).
Qed.

(** X14: For a data point that [findFCDAs] found for a reference, in a document
    where no device lies inside another, [isSubscribedTo] comes down to the
    edition check of the control block: the device and the six attributes
    agree already.  In a document of edition 2003 the reference is
    subscribed to each data point found. *)
Theorem findFCDAs_isSubscribedTo :
  forall (doc : Document) (k : ControlTag) (cb : option Element)
         (extRef fcda : Element),
    devicesNotNested doc ->
    In fcda (findFCDAs doc extRef) ->
    isSubscribedTo doc k cb (Some fcda) extRef =
    checkEditionSpecificRequirements doc k cb extRef /\
    (getSclSchemaVersion doc = "2003" ->
     isSubscribedTo doc k cb (Some fcda) extRef = true).
Proof.
  intros doc k cb extRef fcda Hnest Hin.
  destruct (findFCDAs_found doc extRef fcda Hin)
    as [_ [_ [Hft [_ [[ied [Hied [Htag [Hname [_ Hd]]]]] Hattrs]]]]].
  assert (Hc : closest fcda [Sel [STag "IED"]] = Some ied).
  { destruct (proj1 (descendants_Path ied fcda) Hd) as [rel [HP Hanc]].
    unfold closest, inclusiveAncestors. cbn [find].
    rewrite matches_tag_only, Hft. simpl. rewrite andb_false_r.
    rewrite Hanc.
    apply (closest_device ied rel (node fcda)); try assumption.
    intros d. now apply Hnest. }
  assert (E : isSubscribedTo doc k cb (Some fcda) extRef =
              checkEditionSpecificRequirements doc k cb extRef).
  { unfold isSubscribedTo. simpl optClosest. rewrite Hc. simpl optAttribute.
    rewrite Hname.
    assert (Hs : strictEq (ofNullable (getAttribute extRef "iedName"))
                          (ofNullable (getAttribute extRef "iedName")) = true)
      by now apply strictEq_eq.
    rewrite Hs.
    rewrite !Hattrs by (simpl; tauto). reflexivity. }
  split; [exact E |].
  intros H2003. rewrite E. unfold checkEditionSpecificRequirements.
  now rewrite H2003.
Qed.

(** X14, witness: the reference of [SUB] and the data point found for it. *)
Lemma findFCDAs_isSubscribedTo_witness :
  In (elementAt wired 7) (findFCDAs wired (elementAt wired 26)) /\
  isSubscribedTo wired GSEControl (Some (elementAt wired 9))
                 (Some (elementAt wired 7)) (elementAt wired 26) =
  checkEditionSpecificRequirements wired GSEControl
    (Some (elementAt wired 9)) (elementAt wired 26).
Proof.
  split; [vm_compute; tauto |].
  refine (proj1 (findFCDAs_isSubscribedTo wired GSEControl
                   (Some (elementAt wired 9)) (elementAt wired 26)
                   (elementAt wired 7)
                   (devicesNotNestedb_sound wired eq_refl) _)).
  vm_compute. tauto.
Defined.

(** ** The sections kept for the replacement *)

Import Plugin.

Lemma sameKey_eq : forall a b, sameKey a b = true <-> a = b.
Proof.
  intros [a |] [b |]; simpl; split; intros H; try discriminate;
    try reflexivity.
  - apply String.eqb_eq in H. now subst.
  - injection H as ->. apply String.eqb_refl.
Qed.

Lemma sameKey_refl : forall a, sameKey a a = true.
Proof. intros a. now apply sameKey_eq. Qed.

(** What is stored under a name, the empty list when there is nothing. *)
Definition storedUnder (k : option string) (m : Sections)
  : list storedInput :=
  match mapGet k m with Some v => v | None => [] end.

Lemma mapGet_mapPush_same : forall k x m,
  mapGet k (mapPush k x m) = Some (storedUnder k m ++ [x]).
Proof.
  intros k x m. unfold storedUnder.
  induction m as [| [k' v] m IH]; simpl.
  - now rewrite sameKey_refl.
  - destruct (sameKey k k') eqn:E; simpl; rewrite E; [reflexivity | exact IH].
Qed.

Lemma storedUnder_mapPush : forall k x m,
  storedUnder k (mapPush k x m) = storedUnder k m ++ [x].
Proof.
  intros k x m. unfold storedUnder at 1. now rewrite mapGet_mapPush_same.
Qed.

Lemma mapGet_mapPush_other : forall k k' x m,
  sameKey k' k = false -> mapGet k' (mapPush k x m) = mapGet k' m.
Proof.
  intros k k' x m Hk. induction m as [| [k0 v] m IH]; simpl.
  - now rewrite Hk.
  - destruct (sameKey k k0) eqn:E; simpl.
    + apply sameKey_eq in E. subst k0. now rewrite Hk.
    + now rewrite IH.
Qed.

(** A node without the identities of its node objects. *)
Fixpoint content (n : Node) : Node :=
  match n with
  | Text s => Text s
  | Elem _ t a cs => Elem 0 t a (map content cs)
  end.

Lemma cloneNode_content : forall n fresh,
  content (fst (cloneNode n fresh)) = content n.
Proof.
  induction n as [s | i t a cs IH] using Node_tree_ind; intros fresh;
    [reflexivity |].
  simpl.
  assert (Hcs : forall f,
    map content
      (fst ((fix copies (l : list Node) (f : NodeId) {struct l} :=
               match l with
               | [] => ([], f)
               | c :: rest =>
                   let '(c', f1) := cloneNode c f in
                   let '(rest', f2) := copies rest f1 in (c' :: rest', f2)
               end) cs f))
    = map content cs).
  { induction IH as [| c rest Hc _ IHrest]; intros f; [reflexivity |].
    pose proof (Hc f) as Hcf.
    destruct (cloneNode c f) as [c' f1]. simpl in Hcf.
    specialize (IHrest f1).
    destruct ((fix copies (l : list Node) (f : NodeId) {struct l} :=
                 match l with
                 | [] => ([], f)
                 | c :: rest =>
                     let '(c', f1) := cloneNode c f in
                     let '(rest', f2) := copies rest f1 in (c' :: rest', f2)
                 end) rest f1) as [rest' f2].
    simpl in *. now rewrite Hcf, IHrest. }
  specialize (Hcs (S fresh)).
  destruct ((fix copies (l : list Node) (f : NodeId) {struct l} :=
               match l with
               | [] => ([], f)
               | c :: rest =>
                   let '(c', f1) := cloneNode c f in
                   let '(rest', f2) := copies rest f1 in (c' :: rest', f2)
               end) cs (S fresh)) as [cs' next].
  simpl in *. now rewrite Hcs.
Qed.

Section Store.

Variable identity : option Element -> string.

Lemma store_app : forall key sections fresh m,
  exists added,
    storedUnder key (snd (store identity key sections fresh m)) =
      storedUnder key m ++ added /\
    map id added = map (fun s => identity (parentElement s)) sections /\
    map (fun r => content (input r)) added =
      map (fun s => content (node s)) sections /\
    (sections <> [] ->
     mapGet key (snd (store identity key sections fresh m)) <> None) /\
    (forall k', sameKey k' key = false ->
       mapGet k' (snd (store identity key sections fresh m)) = mapGet k' m).
Proof.
  intros key sections. induction sections as [| s rest IH]; intros fresh m.
  - exists []. simpl. rewrite app_nil_r.
    repeat (split; [reflexivity |]).
    split; [intros H; now elim H | reflexivity].
  - simpl. pose proof (cloneNode_content (node s) fresh) as Hc.
    destruct (cloneNode (node s) fresh) as [copy next]. simpl in Hc.
    destruct (IH next
                (mapPush key (mkStoredInput (identity (parentElement s)) copy)
                         m))
      as [added [Hs [Hid [Hin [_ Hother]]]]].
    exists (mkStoredInput (identity (parentElement s)) copy :: added).
    split; [| split; [| split; [| split]]].
    + rewrite Hs, storedUnder_mapPush. now rewrite <- app_assoc.
    + simpl. now rewrite Hid.
    + simpl. now rewrite Hin, Hc.
    + intros _ Hnone. rewrite storedUnder_mapPush in Hs.
      unfold storedUnder at 1 in Hs. rewrite Hnone in Hs.
      destruct (storedUnder key m); discriminate.
    + intros k' Hk. rewrite (Hother k' Hk).
      now apply mapGet_mapPush_other.
Qed.

End Store.


(** ** The second batch of the replacement *)

Section Rewire.

Variable resolve : Document -> string -> string -> option Element.

(** The logical node a stored section goes back to:
    [doc.querySelector(selector('LN', id)) ??
     doc.querySelector(selector('LN0', id))]. *)
Definition logicalNodeOf (doc : Document) (r : storedInput)
  : option Element :=
  match resolve doc "LN" (id r) with
  | Some e => Some e
  | None => resolve doc "LN0" (id r)
  end.

(** The two edits that put a stored input section in the place of the one
    the logical node has. *)
Definition transferOf (doc : Document) (r : storedInput) : list Edit :=
  match logicalNodeOf doc r with
  | None => []
  | Some ln =>
      match querySelector ln [Sel [STag "Inputs"]] with
      | None => []
      | Some inputs =>
          [Remove (Some inputs);
           Insert (ElementParent ln) (input r) (nextElementSibling inputs)]
      end
  end.

Lemma inputEdits_some : forall doc stored acc l,
  inputEdits resolve doc stored acc = Some l ->
  l = acc ++ flat_map (transferOf doc) stored /\
  forall r ln, In r stored -> logicalNodeOf doc r = Some ln ->
               querySelector ln [Sel [STag "Inputs"]] <> None.
Proof.
  intros doc stored. induction stored as [| r rest IH]; intros acc l H.
  - simpl in *. injection H as <-. rewrite app_nil_r.
    split; [reflexivity | intros r ln []].
  - cbn [inputEdits] in H. cbn [flat_map]. unfold transferOf at 1.
    fold (logicalNodeOf doc r) in H.
    destruct (logicalNodeOf doc r) as [ln |] eqn:El.
    + destruct (querySelector ln [Sel [STag "Inputs"]]) as [inputs |] eqn:Ei;
        [| discriminate].
      destruct (IH _ _ H) as [-> Hall]. split.
      * now rewrite <- app_assoc.
      * intros r' ln' [<- | Hin] Hr'; [| now apply (Hall r')].
        rewrite El in Hr'. injection Hr' as <-. now rewrite Ei.
    + destruct (IH _ _ H) as [-> Hall]. split; [reflexivity |].
      intros r' ln' [<- | Hin] Hr'; [congruence | now apply (Hall r')].
Qed.

Lemma inputEdits_none : forall doc stored acc,
  inputEdits resolve doc stored acc = None ->
  exists r ln, In r stored /\ logicalNodeOf doc r = Some ln /\
               querySelector ln [Sel [STag "Inputs"]] = None.
Proof.
  intros doc stored. induction stored as [| r rest IH]; intros acc H;
    [discriminate |].
  cbn [inputEdits] in H. fold (logicalNodeOf doc r) in H.
  destruct (logicalNodeOf doc r) as [ln |] eqn:El.
  - destruct (querySelector ln [Sel [STag "Inputs"]]) as [inputs |] eqn:Ei.
    + destruct (IH _ H) as [r' [ln' [Hin H']]].
      exists r', ln'. split; [now right | exact H'].
    + exists r, ln. split; [now left | now split].
  - destruct (IH _ H) as [r' [ln' [Hin H']]].
    exists r', ln'. split; [now right | exact H'].
Qed.

(** X16: The edits for the stored input sections.  The call ends in an exception
    exactly when the logical node of some stored section is found and has no
    [Inputs] of its own.  Otherwise each stored section whose logical node
    is found adds a removal of the [Inputs] of that node and an insertion of
    the stored section before what followed it; a section whose logical node
    is not found adds nothing. *)
Theorem inputEdits_transfers :
  forall (doc : Document) (stored : list storedInput) (acc : list Edit),
    (inputEdits resolve doc stored acc = None <->
     exists r ln, In r stored /\ logicalNodeOf doc r = Some ln /\
                  querySelector ln [Sel [STag "Inputs"]] = None) /\
    (forall l, inputEdits resolve doc stored acc = Some l ->
       l = acc ++ flat_map (transferOf doc) stored) /\
    (forall r, logicalNodeOf doc r = None -> transferOf doc r = []).
Proof.
  intros doc stored acc. split; [| split].
  - split; [apply inputEdits_none |].
    intros [r [ln [Hin [Hln Hq]]]].
    destruct (inputEdits resolve doc stored acc) as [l |] eqn:E;
      [| reflexivity].
    destruct (inputEdits_some _ _ _ _ E) as [_ Hall].
    now elim (Hall r ln Hin Hln).
  - intros l H. exact (proj1 (inputEdits_some _ _ _ _ H)).
  - intros r H. unfold transferOf. now rewrite H.
Qed.

Lemma gseEdits_some : forall doc gse stored acc,
  gseEdits resolve doc (Some gse) stored acc =
  Some (acc ++
        map (fun r =>
               Insert (parentOf (resolve doc "LN0" (id r))) (input r)
                      (nextElementSibling gse))
            stored).
Proof.
  intros doc gse stored. induction stored as [| r rest IH]; intros acc.
  - simpl. now rewrite app_nil_r.
  - cbn [gseEdits map]. rewrite IH. now rewrite <- app_assoc.
Qed.


End Rewire.

(** ** The batches of a replacement *)

Lemma content_setAttribute : forall n a v,
  content (setAttribute n a v) = setAttribute (content n) a v.
Proof. intros [i t attrs cs | s] a v; reflexivity. Qed.

Lemma selectedIed_elem : forall doc selectedIEDs template,
  selectedIed doc selectedIEDs = Some template ->
  isElem (node template) = true /\ tagName template = "IED" /\
  parentElement template = Some (documentElement doc) /\
  getAttribute template "name" = hd_error selectedIEDs.
Proof.
  intros doc [| first rest] template H; [discriminate |].
  unfold selectedIed in H. apply find_some in H. destruct H as [Hin Hname].
  unfold iedList in Hin. apply filter_In in Hin. destruct Hin as [Hc Htag].
  unfold childElements in Hc. apply in_map_iff in Hc.
  destruct Hc as [c [<- Hc]]. apply filter_In in Hc.
  destruct Hc as [_ Hel]. apply String.eqb_eq in Htag.
  apply strictEq_eq in Hname.
  split; [exact Hel |]. split; [exact Htag |]. split; [reflexivity |].
  simpl hd_error.
  destruct (getAttribute _ "name"); simpl in Hname; congruence.
Qed.

(** The first batch of the round for the list item [item], in the document
    [doc] as it is when the round begins: it removes the device that [item]
    resolves to in [doc] and inserts, into the document element and with
    the element before that device as reference, a copy of the template of
    [doc] that differs from the template in the [name], which is that of
    the device removed. *)
Definition swapOf (resolve : Document -> string -> string -> option Element)
    (selectedIEDs : list string) (doc : Document) (item : string)
    (batch : list Edit) : Prop :=
  exists currentIed template newIed,
    resolve doc "IED" item = Some currentIed /\
    selectedIed doc selectedIEDs = Some template /\
    batch = [Remove (Some currentIed);
             Insert (ElementParent (documentElement doc)) newIed
                    (previousElementSibling currentIed)] /\
    getAttribute (detached newIed) "name" =
      Some (toText (ofNullable (getAttribute currentIed "name"))) /\
    content newIed =
      content (setAttribute (node template) "name"
                 (toText (ofNullable (getAttribute currentIed "name")))).

(** [Rounds resolve selectedIEDs doc items sent doc']: the batches [sent]
    come in pairs, one pair for each of [items] and in their order.  The
    first batch of a pair is the swap for its item in the document as the
    earlier pairs have left it, and the host applies both batches before
    the next pair; [doc'] is the document after the last pair. *)
Inductive Rounds (resolve : Document -> string -> string -> option Element)
    (selectedIEDs : list string)
  : Document -> list string -> list (list Edit) -> Document -> Prop :=
| rounds_none : forall doc, Rounds resolve selectedIEDs doc [] [] doc
| rounds_more : forall doc item items swap rewire sent doc',
    swapOf resolve selectedIEDs doc item swap ->
    Rounds resolve selectedIEDs
           (handleEdits (handleEdits doc swap) rewire) items sent doc' ->
    Rounds resolve selectedIEDs doc (item :: items)
           (swap :: rewire :: sent) doc'.

Section Rounds.

Variable identity : option Element -> string.
Variable resolve : Document -> string -> string -> option Element.
Variable selectedIEDs : list string.
Variables inputsSections gseControlSections : Sections.

Lemma replaceOne_returned : forall dataId st,
  completion (replaceOne resolve selectedIEDs inputsSections
                         gseControlSections dataId st) = Returned ->
  exists swap rewire,
    dispatched (replaceOne resolve selectedIEDs inputsSections
                           gseControlSections dataId st)
    = dispatched st ++ [swap; rewire] /\
    document (replaceOne resolve selectedIEDs inputsSections
                         gseControlSections dataId st)
    = handleEdits (handleEdits (document st) swap) rewire /\
    swapOf resolve selectedIEDs (document st) dataId swap.
Proof.
  intros dataId st H. unfold replaceOne in *.
  destruct (resolve (document st) "IED" dataId) as [currentIed |] eqn:Er;
    [| discriminate].
  destruct (selectedIed (document st) selectedIEDs) as [template |] eqn:Et;
    [| discriminate].
  pose proof (cloneNode_content (node template) (nextId st)) as Hc.
  pose proof (cloneNode_elem (node template) (nextId st)
                (proj1 (selectedIed_elem _ _ _ Et))) as He.
  destruct (cloneNode (node template) (nextId st)) as [copy next].
  simpl in Hc, He.
  destruct (rewireEdits _ _ _ _ _ _) as [inputActions |]; [| discriminate].
  simpl. eexists. exists inputActions.
  split; [now rewrite <- app_assoc |]. split; [reflexivity |].
  exists currentIed, template,
    (setAttribute copy "name"
       (toText (ofNullable (getAttribute currentIed "name")))).
  split; [exact Er |]. split; [exact Et |]. split; [reflexivity |]. split.
  - destruct copy; [| discriminate].
    unfold getAttribute. simpl. apply lookupAttr_putAttr.
  - now rewrite !content_setAttribute, Hc.
Qed.

Lemma replaceAll_threw : forall items st,
  completion st = Threw ->
  replaceAll resolve selectedIEDs inputsSections gseControlSections items st
  = st.
Proof.
  induction items as [| item rest IH]; intros st H; [reflexivity |].
  unfold replaceAll in *. cbn [fold_left]. rewrite H. now apply IH.
Qed.

Lemma replaceAll_rounds : forall items st,
  completion st = Returned ->
  completion (replaceAll resolve selectedIEDs inputsSections
                         gseControlSections items st) = Returned ->
  exists sent,
    dispatched (replaceAll resolve selectedIEDs inputsSections
                           gseControlSections items st)
    = dispatched st ++ sent /\
    Rounds resolve selectedIEDs (document st) items sent
           (document (replaceAll resolve selectedIEDs inputsSections
                                 gseControlSections items st)) /\
    length sent = 2 * length items.
Proof.
  induction items as [| item rest IH]; intros st Hst H.
  - exists []. simpl. rewrite app_nil_r.
    split; [reflexivity |]. split; [constructor | reflexivity].
  - unfold replaceAll in *. cbn [fold_left] in *. rewrite Hst in *.
    destruct (completion (replaceOne resolve selectedIEDs inputsSections
                            gseControlSections item st)) eqn:Ec.
    + destruct (replaceOne_returned item st Ec)
        as [swap [rewire [Hd [Hdoc Hs]]]].
      destruct (IH _ Ec H) as [sent [Hsent [Hrounds Hlen]]].
      exists (swap :: rewire :: sent). split; [| split].
      * rewrite Hsent, Hd, <- app_assoc. reflexivity.
      * apply rounds_more; [exact Hs |]. rewrite <- Hdoc. exact Hrounds.
      * simpl. lia.
    + pose proof (replaceAll_threw rest _ Ec) as Hth.
      unfold replaceAll in Hth. rewrite Hth in H. congruence.
Qed.

End Rounds.

(** X18: A call of [replaceIeds] with a template that returns has dispatched
    its batches in pairs, one pair for each list item selected and in the
    order of the selection, twice as many batches as items.  The first
    batch of the pair of an item removes the device that the item resolves
    to in the document as the earlier pairs have left it, and inserts, into
    the document element and with the element before that device as
    reference, a copy of the template of that document renamed to the
    device removed.  The document at the end is the one the host has made
    by applying the batches in turn. *)
Theorem replaceIeds_rounds :
  forall (identity : option Element -> string)
         (resolve : Document -> string -> string -> option Element)
         (doc : Document) (fresh : NodeId) (selected : Selected)
         (selectedIEDs : list string),
    completion (replaceIeds identity resolve doc fresh selected selectedIEDs)
      = Returned ->
    selectedIed doc selectedIEDs <> None ->
    Rounds resolve selectedIEDs doc (selectedItems selected)
      (dispatched
         (replaceIeds identity resolve doc fresh selected selectedIEDs))
      (document
         (replaceIeds identity resolve doc fresh selected selectedIEDs)) /\
    length (dispatched
              (replaceIeds identity resolve doc fresh selected selectedIEDs))
    = 2 * length (selectedItems selected).
Proof.
  intros identity resolve doc fresh selected selectedIEDs H Ht.
  unfold replaceIeds in *.
  destruct (selectedIed doc selectedIEDs) as [template |];
    [| now elim Ht].
  destruct selected as [| item | items].
  - split; [constructor | reflexivity].
  - destruct (captureAll identity resolve doc
                (selectedItems (OneSelected item)) (fresh, [], []))
      as [[[f i] g] |]; [| discriminate].
    destruct (replaceAll_rounds resolve selectedIEDs i g
                (selectedItems (OneSelected item))
                (mkRun doc f [] Returned) eq_refl H)
      as [sent [Hsent [Hr Hl]]].
    rewrite Hsent. split; [exact Hr | exact Hl].
  - destruct (captureAll identity resolve doc
                (selectedItems (ManySelected items)) (fresh, [], []))
      as [[[f i] g] |]; [| discriminate].
    destruct (replaceAll_rounds resolve selectedIEDs i g
                (selectedItems (ManySelected items))
                (mkRun doc f [] Returned) eq_refl H)
      as [sent [Hsent [Hr Hl]]].
    rewrite Hsent. split; [exact Hr | exact Hl].
Qed.

(** X18, witness: the replacement of [IED1] by a copy of [TPL] sends two
    batches. *)
Lemma replaceIeds_rounds_witness :
  completion (replaceIn plant) = Returned /\
  selectedIed plant ["TPL"] <> None /\
  length (dispatched (replaceIn plant)) = 2.
Proof.
  split; [reflexivity |]. split; [vm_compute; discriminate |].
  refine (proj2 (replaceIeds_rounds Foundation.identity Foundation.resolve
                   plant 100 (ManySelected ["IED1"]) ["TPL"] _ _)).
  - reflexivity.
  - vm_compute. discriminate.
Defined.

(** ** The template and the devices to replace *)

(** X19: The template is looked up by the first name of the selection only.  If
    there is one, it is an [IED] child of the document element that has this
    name.  There is none exactly when the selection is empty or no [IED]
    child of the document element has the first name selected. *)
Theorem selectedIed_template :
  forall (doc : Document) (selectedIEDs : list string),
    (forall template,
       selectedIed doc selectedIEDs = Some template ->
       In template (childElements (documentElement doc)) /\
       tagName template = "IED" /\
       exists first rest,
         selectedIEDs = first :: rest /\
         getAttribute template "name" = Some first) /\
    (selectedIed doc selectedIEDs = None <->
     selectedIEDs = [] \/
     exists first rest,
       selectedIEDs = first :: rest /\
       forall e, In e (childElements (documentElement doc)) ->
                 tagName e = "IED" -> getAttribute e "name" <> Some first).
Proof.
  intros doc selectedIEDs. split.
  - intros template H.
    destruct (selectedIed_elem _ _ _ H) as [_ [Htag [_ Hname]]].
    destruct selectedIEDs as [| first rest]; [discriminate |].
    unfold selectedIed in H. apply find_some in H. destruct H as [Hin _].
    unfold iedList in Hin. apply filter_In in Hin.
    split; [tauto |]. split; [exact Htag |]. now exists first, rest.
  - destruct selectedIEDs as [| first rest].
    + split; [now left | reflexivity].
    + unfold selectedIed. split.
      * intros H. right. exists first, rest. split; [reflexivity |].
        intros e He Htag Hname.
        assert (Hin : In e (iedList doc)).
        { unfold iedList. apply filter_In. split; [exact He |].
          rewrite Htag. reflexivity. }
        pose proof (find_none _ _ H e Hin) as Hf. simpl in Hf.
        rewrite Hname in Hf. simpl in Hf.
        now rewrite String.eqb_refl in Hf.
      * intros [H | [f [r [E H]]]]; [discriminate |].
        injection E as <- <-.
        destruct (find _ (iedList doc)) as [t |] eqn:Ef; [| reflexivity].
        apply find_some in Ef. destruct Ef as [Hin Hname].
        unfold iedList in Hin. apply filter_In in Hin.
        destruct Hin as [Hc Htag]. apply String.eqb_eq in Htag.
        apply strictEq_eq in Hname. exfalso. apply (H t Hc Htag).
        destruct (getAttribute t "name"); simpl in Hname; congruence.
Qed.

(** X20: The template is never among the devices offered for replacement, nor is
    any device that has the name of the template: each device offered is an
    [IED] of the document whose name differs from that of the template.
    Without a template every [IED] of the document is offered. *)
Theorem replaceable_excludes_template :
  forall (doc : Document) (selectedIEDs : list string),
    (forall template e,
       selectedIed doc selectedIEDs = Some template ->
       In e (replaceable doc selectedIEDs) ->
       inDocument doc e /\ tagName e = "IED" /\
       getAttribute e "name" <> getAttribute template "name" /\
       e <> template) /\
    (selectedIed doc selectedIEDs = None ->
     replaceable doc selectedIEDs
     = docQuerySelectorAll doc [Sel [STag "IED"]]).
Proof.
  intros doc selectedIEDs. unfold replaceable. split.
  - intros template e Ht He. rewrite Ht in He. simpl optAttribute in He.
    apply filter_In in He. destruct He as [Hin Hne].
    unfold docQuerySelectorAll in Hin. apply filter_In in Hin.
    destruct Hin as [Hin Hm]. rewrite matches_tag_only in Hm.
    apply andb_true_iff in Hm. destruct Hm as [_ Htag].
    apply String.eqb_eq in Htag.
    assert (Hname : getAttribute e "name" <> getAttribute template "name").
    { intros E. rewrite E in Hne. apply negb_true_iff in Hne.
      assert (Hs : strictEq (ofNullable (getAttribute template "name"))
                            (ofNullable (getAttribute template "name")) = true)
        by now apply strictEq_eq.
      congruence. }
    split; [exact Hin |]. split; [exact Htag |]. split; [exact Hname |].
    intros ->. now apply Hname.
  - intros ->. simpl optAttribute.
    apply forallb_filter_id. apply forallb_forall. intros e _.
    destruct (getAttribute e "name"); reflexivity.
Qed.

(** X20, witness: with [TPL] as template, only [IED1] is offered. *)
Lemma replaceable_excludes_template_witness :
  map (fun e => getAttribute e "name") (replaceable plant ["TPL"])
    = [Some "IED1"] /\
  ~ In (elementAt plant 20) (replaceable plant ["TPL"]).
Proof.
  split; [reflexivity |].
  intros H.
  destruct (proj1 (replaceable_excludes_template plant ["TPL"])
                  (elementAt plant 20) (elementAt plant 20) eq_refl H)
    as [_ [_ [_ Hne]]].
  now apply Hne.
Defined.

(** X19, witness: the first name selected decides; a name no device has
    gives no template. *)
Lemma selectedIed_template_witness :
  (exists template,
     selectedIed plant ["TPL"; "IED1"] = Some template /\
     getAttribute template "name" = Some "TPL") /\
  selectedIed plant ["none"] = None.
Proof.
  split.
  - destruct (selectedIed plant ["TPL"; "IED1"]) as [t |] eqn:E;
      [| vm_compute in E; discriminate].
    exists t. split; [reflexivity |].
    destruct (proj1 (selectedIed_template plant ["TPL"; "IED1"]) t E)
      as [_ [_ [first [rest [Es Hn]]]]].
    injection Es as <- _. exact Hn.
  - apply (proj2 (selectedIed_template plant ["none"])).
    right. exists "none", []. split; [reflexivity |].
    intros e He _. vm_compute in He.
    destruct He as [<- | [<- | [<- | []]]]; vm_compute; discriminate.
Defined.

(** ** The earlier variant *)

Lemma putAttr_same : forall a v l,
  lookupAttr a l = Some v -> putAttr a v l = l.
Proof.
  intros a v l. induction l as [| [k w] l IH]; simpl; [discriminate |].
  destruct (String.eqb k a) eqn:E.
  - intros H. injection H as ->. reflexivity.
  - intros H. now rewrite IH.
Qed.

(** The batch of the round for the list item [item] in the earlier variant,
    in the document [doc] as it is when the round begins: it removes the
    device that [item] resolves to in [doc] and inserts, into the document
    node and with the element before that device as reference, a copy of
    the template of [doc] as it is, its name included; the edits after
    these two are insertions at the end of their parent. *)
Definition legacyBatchOf
    (resolve : Document -> string -> string -> option Element)
    (selectedIEDs : list string) (doc : Document) (item : string)
    (batch : list Edit) : Prop :=
  exists currentIed template newIed inserts,
    resolve doc "IED" item = Some currentIed /\
    selectedIed doc selectedIEDs = Some template /\
    batch = Remove (Some currentIed)
            :: Insert DocumentParent newIed
                      (previousElementSibling currentIed)
            :: inserts /\
    content newIed = content (node template) /\
    Forall (fun e => exists p n, e = Insert p n None) inserts.

(** [LegacyBatches resolve selectedIEDs doc items sent doc']: one batch of
    [sent] for each of [items], in their order.  Each is the batch for its
    item in the document as the earlier batches have left it, and the host
    applies it before the next round; [doc'] is the document after the
    last batch. *)
Inductive LegacyBatches
    (resolve : Document -> string -> string -> option Element)
    (selectedIEDs : list string)
  : Document -> list string -> list (list Edit) -> Document -> Prop :=
| legacy_none : forall doc, LegacyBatches resolve selectedIEDs doc [] [] doc
| legacy_more : forall doc item items batch sent doc',
    legacyBatchOf resolve selectedIEDs doc item batch ->
    LegacyBatches resolve selectedIEDs (handleEdits doc batch) items sent
                  doc' ->
    LegacyBatches resolve selectedIEDs doc (item :: items) (batch :: sent)
                  doc'.

Section LegacyRounds.

Variable identity : option Element -> string.
Variable resolve : Document -> string -> string -> option Element.
Variable selectedIEDs : list string.
Variable inputsSections : Sections.

Lemma legacy_replaceOne_returned : forall dataId st,
  completion (Legacy.replaceOne resolve selectedIEDs inputsSections dataId st)
    = Returned ->
  exists batch,
    dispatched (Legacy.replaceOne resolve selectedIEDs inputsSections
                                  dataId st)
    = dispatched st ++ [batch] /\
    document (Legacy.replaceOne resolve selectedIEDs inputsSections
                                dataId st)
    = handleEdits (document st) batch /\
    legacyBatchOf resolve selectedIEDs (document st) dataId batch.
Proof.
  intros dataId st H. unfold Legacy.replaceOne in *.
  destruct (resolve (document st) "IED" dataId) as [currentIed |] eqn:Er;
    [| discriminate].
  destruct (selectedIed (document st) selectedIEDs) as [template |] eqn:Et;
    [| discriminate].
  pose proof (cloneNode_content (node template) (nextId st)) as Hc.
  destruct (cloneNode (node template) (nextId st)) as [copy next].
  simpl in Hc.
  destruct (mapGet _ inputsSections) as [stored |]; [| discriminate].
  simpl. eexists. split; [reflexivity |]. split; [reflexivity |].
  exists currentIed, template. eexists. eexists.
  split; [exact Er |]. split; [exact Et |]. split; [reflexivity |]. split.
  - destruct (selectedIed_elem _ _ _ Et) as [_ [_ [_ Hname]]].
    destruct selectedIEDs as [| first rest]; [discriminate |].
    simpl in Hname. rewrite Hname. simpl orElse.
    rewrite content_setAttribute, Hc.
    destruct template as [[i t a cs | s] up]; [| reflexivity].
    unfold getAttribute in Hname. simpl in *.
    now rewrite (putAttr_same _ _ _ Hname).
  - unfold Legacy.inputEdits. apply Forall_forall. intros e He.
    apply in_map_iff in He. destruct He as [r [<- _]].
    eexists. eexists. reflexivity.
Qed.

Lemma legacy_rounds : forall items st,
  completion st = Returned ->
  completion
    (fold_left
       (fun st item =>
          match completion st with
          | Threw => st
          | Returned =>
              Legacy.replaceOne resolve selectedIEDs inputsSections item st
          end) items st) = Returned ->
  exists sent,
    dispatched
      (fold_left
       (fun st item =>
          match completion st with
          | Threw => st
          | Returned =>
              Legacy.replaceOne resolve selectedIEDs inputsSections item st
          end) items st) = dispatched st ++ sent /\
    LegacyBatches resolve selectedIEDs (document st) items sent
      (document
         (fold_left
       (fun st item =>
          match completion st with
          | Threw => st
          | Returned =>
              Legacy.replaceOne resolve selectedIEDs inputsSections item st
          end) items st)) /\
    length sent = length items.
Proof.
  induction items as [| item rest IH]; intros st Hst H.
  - exists []. simpl. rewrite app_nil_r.
    split; [reflexivity |]. split; [constructor | reflexivity].
  - cbn [fold_left] in *. rewrite Hst in *.
    destruct (completion (Legacy.replaceOne resolve selectedIEDs
                            inputsSections item st)) eqn:Ec.
    + destruct (legacy_replaceOne_returned item st Ec)
        as [batch [Hd [Hdoc Hb]]].
      destruct (IH _ Ec H) as [sent [Hsent [Hrounds Hlen]]].
      exists (batch :: sent). split; [| split].
      * rewrite Hsent, Hd, <- app_assoc. reflexivity.
      * apply legacy_more; [exact Hb |]. rewrite <- Hdoc. exact Hrounds.
      * simpl. lia.
    + assert (Hth : forall l s, completion s = Threw ->
                fold_left
                  (fun st item =>
                     match completion st with
                     | Threw => st
                     | Returned =>
                         Legacy.replaceOne resolve selectedIEDs inputsSections
                                           item st
                     end) l s = s).
      { induction l as [| x l IHl]; intros s Hs; [reflexivity |].
        cbn [fold_left]. rewrite Hs. now apply IHl. }
      rewrite (Hth rest _ Ec) in H. congruence.
Qed.

End LegacyRounds.

(** X21: A call of the earlier variant of [replaceIeds] with a template that
    returns has dispatched one batch for each list item selected, in the
    order of the selection.  The batch of an item removes the device that
    the item resolves to in the document as the earlier batches have left
    it, and inserts, into the document node and with the element before
    that device as reference, a copy of the template of that document that
    keeps the name of the template; the stored input sections follow as
    insertions at the end of their logical nodes.  The document at the end
    is the one the host has made by applying the batches in turn. *)
Theorem legacy_replaceIeds_batches :
  forall (identity : option Element -> string)
         (resolve : Document -> string -> string -> option Element)
         (doc : Document) (fresh : NodeId) (selected : Selected)
         (selectedIEDs : list string),
    completion
      (Legacy.replaceIeds identity resolve doc fresh selected selectedIEDs)
      = Returned ->
    selectedIed doc selectedIEDs <> None ->
    LegacyBatches resolve selectedIEDs doc (selectedItems selected)
      (dispatched
         (Legacy.replaceIeds identity resolve doc fresh selected
                             selectedIEDs))
      (document
         (Legacy.replaceIeds identity resolve doc fresh selected
                             selectedIEDs)) /\
    length
      (dispatched
         (Legacy.replaceIeds identity resolve doc fresh selected
                             selectedIEDs))
    = length (selectedItems selected).
Proof.
  intros identity resolve doc fresh selected selectedIEDs H Ht.
  unfold Legacy.replaceIeds in *.
  destruct (selectedIed doc selectedIEDs) as [template |];
    [| now elim Ht].
  destruct selected as [| item | items].
  - split; [constructor | reflexivity].
  - destruct (Legacy.captureAll identity resolve doc
                (selectedItems (OneSelected item)) (fresh, []))
      as [[f i] |]; [| discriminate].
    destruct (legacy_rounds resolve selectedIEDs i
                (selectedItems (OneSelected item))
                (mkRun doc f [] Returned) eq_refl H)
      as [sent [Hsent [Hr Hl]]].
    rewrite Hsent. split; [exact Hr | exact Hl].
  - destruct (Legacy.captureAll identity resolve doc
                (selectedItems (ManySelected items)) (fresh, []))
      as [[f i] |]; [| discriminate].
    destruct (legacy_rounds resolve selectedIEDs i
                (selectedItems (ManySelected items))
                (mkRun doc f [] Returned) eq_refl H)
      as [sent [Hsent [Hr Hl]]].
    rewrite Hsent. split; [exact Hr | exact Hl].
Qed.

(** X21, witness: the replacement of [IED1] by a copy of [TPL] sends one
    batch. *)
Lemma legacy_replaceIeds_batches_witness :
  completion (legacyReplaceIn plant) = Returned /\
  selectedIed plant ["TPL"] <> None /\
  length (dispatched (legacyReplaceIn plant)) = 1.
Proof.
  split; [reflexivity |]. split; [vm_compute; discriminate |].
  refine (proj2 (legacy_replaceIeds_batches Foundation.identity
                   Foundation.resolve plant 100 (ManySelected ["IED1"])
                   ["TPL"] _ _)).
  - reflexivity.
  - vm_compute. discriminate.
Defined.

(** ** Whether supervisions may be modified *)

(** [valKind] is [RO] or [Conf] and [valImport] is [true]. *)
Definition permits (valKind valImport : JsValue) : Prop :=
  (valKind = JsString "RO" \/ valKind = JsString "Conf") /\
  valImport = JsString "true".

Lemma permits_spec : forall k i,
  (strictEq k (JsString "RO") || strictEq k (JsString "Conf")) &&
  strictEq i (JsString "true") = true <-> permits k i.
Proof.
  intros k i. unfold permits.
  rewrite andb_true_iff, orb_true_iff, !strictEq_eq. tauto.
Qed.

Lemma permits_swap : forall k i,
  (strictEq k (JsString "Conf") || strictEq k (JsString "RO")) &&
  strictEq i (JsString "true") = true <-> permits k i.
Proof.
  intros k i. unfold permits.
  rewrite andb_true_iff, orb_true_iff, !strictEq_eq. tauto.
Qed.

(** [DataTypeTemplates > LNodeType[id=lnType][lnClass=ty] > DO[name=nm]] *)
Definition typeOfSupervision (lnType ty nm : string) : Selector :=
  [Child (Child (Sel [STag "DataTypeTemplates"])
                [STag "LNodeType"; SAttr "id" lnType; SAttr "lnClass" ty])
         [STag "DO"; SAttr "name" nm]].

(** [DataTypeTemplates > DOType[id=type] > DA[name="setSrcRef"]] *)
Definition sourceReferenceOfType (type : string) : Selector :=
  [Child (Child (Sel [STag "DataTypeTemplates"])
                [STag "DOType"; SAttr "id" type])
         [STag "DA"; SAttr "name" "setSrcRef"]].

(** A text that stands for itself between double quotes in a selector: it
    has no double quote, no backslash, no line break (line feed, form feed,
    carriage return) and no null character. *)
Definition plainText (s : string) : bool :=
  forallb (fun c =>
             negb (existsb (Nat.eqb (nat_of_ascii c)) [0; 10; 12; 13; 34; 92]))
          (list_ascii_of_string s).

(** Every attribute value of the document is such a text. *)
Definition plainAttributes (doc : Document) : bool :=
  forallb (fun e => forallb (fun kv => plainText (snd kv)) (attrsOf (node e)))
          (walk [] doc).

Lemma first_of_class : forall ied ty first,
  querySelector ied (lnOfClass ty) = Some first ->
  getAttribute first "lnClass" = Some ty.
Proof.
  intros ied ty first H. apply querySelector_Some in H.
  destruct H as [_ Hm]. unfold lnOfClass in Hm.
  rewrite matches_single in Hm. simpl in Hm.
  unfold matchCompound in Hm. apply andb_true_iff in Hm.
  destruct Hm as [_ Hm]. simpl in Hm.
  apply andb_true_iff in Hm. destruct Hm as [_ Hm].
  apply andb_true_iff in Hm. destruct Hm as [Hm _].
  destruct (getAttribute first "lnClass") as [c |]; [| discriminate].
  apply String.eqb_eq in Hm. now subst.
Qed.

(** X22: In a document whose attribute values have no double quote, backslash,
    line break or null character, and for a class name of that kind,
    [isSupervisionModificationAllowed] decides by the first logical node of
    the class in the device.  It holds exactly when there is such a node and
    either the [DAI] of its supervision has [valKind] [RO] or [Conf] and
    [valImport] [true], or the data type templates say so: the [DO] of the
    supervision in the [LNodeType] of the node (same [lnType], same class)
    and the [DA] [setSrcRef] of the type of that [DO] are there, and this
    [DA] has [valKind] [Conf] or [RO] and [valImport] [true].  The source
    puts the class name, the [lnType] of the node and the [type] of the [DO]
    between double quotes in its selectors; for the texts admitted here these
    selectors are the attribute tests below. *)
Theorem isSupervisionModificationAllowed_iff :
  forall (doc : Document) (ied : Element) (ty : string),
    plainText ty = true ->
    plainAttributes doc = true ->
    inDocument doc ied ->
    (isSupervisionModificationAllowed doc ied ty = true <->
     exists first,
       querySelector ied (lnOfClass ty) = Some first /\
       (permits
          (optAttribute (querySelector first [doiDai (supervisionNameOf ty)])
                        "valKind")
          (optAttribute (querySelector first [doiDai (supervisionNameOf ty)])
                        "valImport") \/
        exists dObj daObj,
          docQuerySelector doc
            (typeOfSupervision
               (toText (ofNullable (getAttribute first "lnType"))) ty
               (supervisionNameOf ty)) = Some dObj /\
          docQuerySelector doc
            (sourceReferenceOfType
               (toText (ofNullable (getAttribute dObj "type")))) = Some daObj /\
          permits (ofNullable (getAttribute daObj "valKind"))
                  (ofNullable (getAttribute daObj "valImport")))).
Proof.
  intros doc ied ty _ _ _. unfold isSupervisionModificationAllowed.
  destruct (querySelector ied (lnOfClass ty)) as [first |] eqn:Ef;
    [| split; [discriminate | intros [f [H _]]; discriminate]].
  pose proof (first_of_class ied ty first Ef) as Hc.
  assert (Hsel :
    [Child (Child (Sel [STag "DataTypeTemplates"])
                  [STag "LNodeType";
                   SAttr "id" (toText (ofNullable (getAttribute first "lnType")));
                   SAttr "lnClass"
                         (toText (ofNullable (getAttribute first "lnClass")))])
           [STag "DO";
            SAttr "name"
                  (if strictEq (ofNullable (getAttribute first "lnClass"))
                               (JsString "LGOS")
                   then "GoCBRef" else "SvCBRef")]]
    = typeOfSupervision (toText (ofNullable (getAttribute first "lnType")))
                        ty (supervisionNameOf ty)).
  { rewrite Hc. unfold typeOfSupervision, supervisionNameOf. simpl.
    reflexivity. }
  cbv zeta. rewrite Hsel. clear Hsel.
  destruct ((strictEq _ (JsString "RO") || strictEq _ (JsString "Conf")) &&
            strictEq _ (JsString "true")) eqn:Ei.
  - apply permits_spec in Ei. split; [intros _ | reflexivity].
    exists first. split; [reflexivity | now left].
  - assert (Hno : ~ permits
                      (optAttribute
                         (querySelector first [doiDai (supervisionNameOf ty)])
                         "valKind")
                      (optAttribute
                         (querySelector first [doiDai (supervisionNameOf ty)])
                         "valImport")).
    { intros Hp. apply permits_spec in Hp. congruence. }
    fold (sourceReferenceOfType).
    destruct (docQuerySelector doc (typeOfSupervision _ ty _))
      as [dObj |] eqn:Ed.
    + change [Child (Child (Sel [STag "DataTypeTemplates"])
                           [STag "DOType";
                            SAttr "id"
                              (toText (ofNullable (getAttribute dObj "type")))])
                    [STag "DA"; SAttr "name" "setSrcRef"]]
        with (sourceReferenceOfType
                (toText (ofNullable (getAttribute dObj "type")))).
      destruct (docQuerySelector doc (sourceReferenceOfType _))
        as [daObj |] eqn:Ea.
      * rewrite permits_swap. split.
        -- intros Hp. exists first. split; [reflexivity |]. right.
           exists dObj, daObj.
           split; [first [reflexivity | exact Ed] |].
           split; [exact Ea | exact Hp].
        -- intros [f [Hf H]]. injection Hf as <-.
           destruct H as [Hp | [d [a [Hd [Ha Hp]]]]]; [contradiction |].
           rewrite Ed in Hd. injection Hd as <-.
           rewrite Ea in Ha. now injection Ha as <-.
      * split; [discriminate |].
        intros [f [Hf H]]. injection Hf as <-.
        destruct H as [Hp | [d [a [Hd [Ha Hp]]]]]; [contradiction |].
        rewrite Ed in Hd. injection Hd as <-.
        rewrite Ea in Ha. discriminate.
    + split; [discriminate |].
      intros [f [Hf H]]. injection Hf as <-.
      destruct H as [Hp | [d [a [Hd _]]]]; [contradiction |].
      rewrite Ed in Hd. discriminate.
Qed.

(** X22, witness: [SUB] allows it by the attributes of its first
    supervision; [PUB] has no logical node of the class. *)
Lemma isSupervisionModificationAllowed_iff_witness :
  plainText "LGOS" = true /\
  plainAttributes withFreeSlot = true /\
  isSupervisionModificationAllowed withFreeSlot (elementAt withFreeSlot 20)
                                   "LGOS" = true /\
  isSupervisionModificationAllowed withFreeSlot (elementAt withFreeSlot 1)
                                   "LGOS" = false.
Proof.
  split; [reflexivity |]. split; [reflexivity |]. split.
  - apply (proj2 (isSupervisionModificationAllowed_iff withFreeSlot
                    (elementAt withFreeSlot 20) "LGOS" eq_refl eq_refl
                    (inDocument_elementAt withFreeSlot 20
                       ltac:(vm_compute; discriminate)))).
    exists (elementAt withFreeSlot 30). split; [reflexivity |].
    left. split; [left |]; reflexivity.
  - reflexivity.
Defined.

(** ** Nothing to replace *)

(** X23: With no device selected for replacement, with an empty array of them,
    and without a template (no name chosen, or no [IED] child of the
    document element of that name), both variants of [replaceIeds] return
    without a batch and leave the document as it is. *)
Theorem replaceIeds_guard :
  forall (identity : option Element -> string)
         (resolve : Document -> string -> string -> option Element)
         (doc : Document) (fresh : NodeId) (selected : Selected)
         (selectedIEDs : list string),
    selected = NothingSelected \/ selected = ManySelected [] \/
    selectedIed doc selectedIEDs = None ->
    replaceIeds identity resolve doc fresh selected selectedIEDs
      = mkRun doc fresh [] Returned /\
    Legacy.replaceIeds identity resolve doc fresh selected selectedIEDs
      = mkRun doc fresh [] Returned.
Proof.
  intros identity resolve doc fresh selected selectedIEDs [-> | [-> | H]].
  - split; reflexivity.
  - unfold replaceIeds, Legacy.replaceIeds.
    destruct (selectedIed doc selectedIEDs); split; reflexivity.
  - unfold replaceIeds, Legacy.replaceIeds. rewrite H.
    destruct selected; split; reflexivity.
Qed.

(** X23, witness: no template chosen, and nothing selected. *)
Lemma replaceIeds_guard_witness :
  dispatched (replaceIeds Foundation.identity Foundation.resolve plant 100
                (OneSelected "IED1") []) = [] /\
  document (Legacy.replaceIeds Foundation.identity Foundation.resolve plant
              100 NothingSelected ["TPL"]) = plant.
Proof.
  split.
  - rewrite (proj1 (replaceIeds_guard Foundation.identity Foundation.resolve
                      plant 100 (OneSelected "IED1") []
                      (or_intror (or_intror eq_refl)))).
    reflexivity.
  - rewrite (proj2 (replaceIeds_guard Foundation.identity Foundation.resolve
                      plant 100 NothingSelected ["TPL"]
                      (or_introl eq_refl))).
    reflexivity.
Defined.

(** ** A new supervision and its removal *)

(** The identities of the node objects of a subtree. *)
Fixpoint ids (n : Node) : list NodeId :=
  match n with
  | Text _ => []
  | Elem i _ _ cs => i :: flat_map ids cs
  end.

Lemma map_flat_map : forall (A B C : Type) (f : B -> C) (g : A -> list B) l,
  map f (flat_map g l) = flat_map (fun x => map f (g x)) l.
Proof.
  intros A B C f g l. induction l as [| x l IH]; simpl; [reflexivity |].
  now rewrite map_app, IH.
Qed.

Lemma ids_walk : forall n up,
  map elementId (walk up n) = map Some (ids n).
Proof.
  induction n as [s | i t a cs IH] using Node_tree_ind; intros up;
    [reflexivity |].
  cbn [walk ids map]. unfold elementId at 1. cbn [node idOf]. f_equal.
  rewrite !map_flat_map. generalize (Elem i t a cs :: up). intros up'.
  induction IH as [| c rest Hc _ IHrest]; [reflexivity |].
  cbn [flat_map]. now rewrite Hc, IHrest.
Qed.

Lemma ids_In_walk : forall n up x,
  In x (ids n) <-> exists e, In e (walk up n) /\ elementId e = Some x.
Proof.
  intros n up x. split.
  - intros H. apply (in_map Some) in H. rewrite <- (ids_walk n up) in H.
    apply in_map_iff in H. destruct H as [e [He Hin]]. now exists e.
  - intros [e [Hin He]]. apply (in_map elementId) in Hin.
    rewrite ids_walk, He in Hin. apply in_map_iff in Hin.
    destruct Hin as [y [Hy Hin]]. now injection Hy as <-.
Qed.

Lemma findNode_ids : forall n p,
  In p (ids n) -> exists pn, findNode p n = Some pn.
Proof.
  intros n p H. apply (ids_In_walk n []) in H. destruct H as [e [Hin He]].
  exact (locate_found n e p Hin He).
Qed.

Lemma occursIn_ids : forall n p, ~ In p (ids n) -> occursIn p n = false.
Proof.
  intros n p H. unfold occursIn, findNode, locate.
  destruct (find _ (walk [] n)) as [e |] eqn:E; [| reflexivity].
  apply find_some in E. destruct E as [Hin Hid]. exfalso. apply H.
  apply (ids_In_walk n []). exists e. split; [exact Hin |].
  rewrite <- (element_eta e). now apply hasId_elementId.
Qed.

Lemma hasId_ids : forall x n, hasId x n = true -> In x (ids n).
Proof.
  intros x [i t a cs | s] H; [| discriminate]. simpl in *.
  apply Nat.eqb_eq in H. now left.
Qed.

Lemma not_ids_hasId : forall x n, ~ In x (ids n) -> hasId x n = false.
Proof.
  intros x n H. destruct (hasId x n) eqn:E; [| reflexivity].
  now elim H; apply hasId_ids.
Qed.

Lemma not_ids_child : forall x i t a cs c,
  ~ In x (ids (Elem i t a cs)) -> In c cs -> ~ In x (ids c).
Proof.
  intros x i t a cs c H Hc Hx. apply H. right.
  apply in_flat_map. now exists c.
Qed.

Lemma removeById_absent : forall x n,
  ~ In x (ids n) -> removeById x n = n.
Proof.
  intros x. induction n as [s | i t a cs IH] using Node_tree_ind;
    intros H; [reflexivity |].
  cbn [removeById]. f_equal.
  assert (Hall : forall c, In c cs -> ~ In x (ids c))
    by (intros c Hc; exact (not_ids_child x i t a cs c H Hc)).
  clear H. induction IH as [| c rest Hc _ IHrest]; [reflexivity |].
  cbn [map filter].
  rewrite (Hc (Hall c (or_introl eq_refl))).
  rewrite (not_ids_hasId x c (Hall c (or_introl eq_refl))). simpl negb.
  cbv iota. f_equal. apply IHrest. intros d Hd. apply Hall. now right.
Qed.

Lemma insertInto_absent : forall p new r n,
  ~ In p (ids n) -> insertInto p new r n = n.
Proof.
  intros p new r. induction n as [s | i t a cs IH] using Node_tree_ind;
    intros H; [reflexivity |].
  cbn [insertInto].
  assert (Hi : Nat.eqb i p = false).
  { apply Nat.eqb_neq. intros ->. apply H. now left. }
  rewrite Hi. f_equal.
  assert (Hall : forall c, In c cs -> ~ In p (ids c))
    by (intros c Hc; exact (not_ids_child p i t a cs c H Hc)).
  clear H Hi. induction IH as [| c rest Hc _ IHrest]; [reflexivity |].
  cbn [map]. rewrite (Hc (Hall c (or_introl eq_refl))). f_equal.
  apply IHrest. intros d Hd. apply Hall. now right.
Qed.

Lemma ids_insertInto : forall p new n x,
  In x (ids (insertInto p new None n)) <->
  In x (ids n) \/ (In p (ids n) /\ In x (ids new)).
Proof.
  intros p new. induction n as [s | i t a cs IH] using Node_tree_ind;
    intros x; [simpl; tauto |].
  cbn [insertInto ids]. unfold place.
  assert (Hcs : In x (flat_map ids (map (insertInto p new None) cs)) <->
                In x (flat_map ids cs) \/
                (In p (flat_map ids cs) /\ In x (ids new))).
  { clear t a. induction IH as [| c rest Hc _ IHrest]; [simpl; tauto |].
    cbn [map flat_map]. rewrite !in_app_iff, Hc, IHrest. tauto. }
  destruct (Nat.eqb i p) eqn:E; cbn [ids In].
  - apply Nat.eqb_eq in E. subst p.
    rewrite flat_map_app, in_app_iff. cbn [flat_map]. rewrite app_nil_r.
    rewrite Hcs. tauto.
  - apply Nat.eqb_neq in E. rewrite Hcs. intuition congruence.
Qed.

Lemma insertInto_nest : forall p N q new n,
  ~ In q (ids n) ->
  insertInto q new None (insertInto p N None n) =
  insertInto p (insertInto q new None N) None n.
Proof.
  intros p N q new. induction n as [s | i t a cs IH] using Node_tree_ind;
    intros H; [reflexivity |].
  cbn [insertInto].
  assert (Hi : Nat.eqb i q = false).
  { apply Nat.eqb_neq. intros ->. apply H. now left. }
  rewrite Hi.
  assert (Hcs : map (insertInto q new None) (map (insertInto p N None) cs)
                = map (insertInto p (insertInto q new None N) None) cs).
  { assert (Hall : forall c, In c cs -> ~ In q (ids c))
      by (intros c Hc; exact (not_ids_child q i t a cs c H Hc)).
    clear H Hi. induction IH as [| c rest Hc _ IHrest]; [reflexivity |].
    cbn [map]. rewrite (Hc (Hall c (or_introl eq_refl))). f_equal.
    apply IHrest. intros d Hd. apply Hall. now right. }
  f_equal. destruct (Nat.eqb i p); unfold place.
  - now rewrite map_app, Hcs.
  - exact Hcs.
Qed.

Lemma removeById_insertInto : forall x p N n,
  hasId x N = true ->
  removeById x (insertInto p N None n) = removeById x n.
Proof.
  intros x p N. induction n as [s | i t a cs IH] using Node_tree_ind;
    intros H; [reflexivity |].
  cbn [insertInto removeById]. f_equal.
  assert (Hcs : map (removeById x) (map (insertInto p N None) cs)
                = map (removeById x) cs).
  { induction IH as [| c rest Hc _ IHrest]; [reflexivity |].
    cbn [map]. now rewrite (Hc H), IHrest. }
  destruct (Nat.eqb i p); unfold place; [| now rewrite Hcs].
  rewrite map_app, filter_app, Hcs. cbn [map filter].
  assert (Hx : hasId x (removeById x N) = true).
  { rewrite <- H. apply sigOf_hasId. apply removeById_sig. }
  rewrite Hx. simpl. apply app_nil_r.
Qed.

(** An insertion at the end of an element of the document, of a node whose
    identity is new to the document. *)
Lemma handleInsert_append : forall d pe p new k,
  elementId pe = Some p -> idOf new = Some k ->
  In p (ids d) -> ~ In p (ids new) -> ~ In k (ids d) ->
  handleInsert d (ElementParent pe) new None = insertInto p new None d.
Proof.
  intros d pe p new k Hp Hk Hin Hnew Hfresh. unfold handleInsert.
  rewrite Hk, Hp. destruct (findNode_ids d p Hin) as [pn ->].
  rewrite (occursIn_ids new p Hnew).
  now rewrite (removeById_absent k d Hfresh).
Qed.

Lemma handleInsert_below : forall doc p N qe q new k,
  elementId qe = Some q -> idOf new = Some k ->
  In p (ids doc) -> ~ In q (ids doc) -> In q (ids N) ->
  ~ In q (ids new) -> ~ In k (ids doc) -> ~ In k (ids N) ->
  handleInsert (insertInto p N None doc) (ElementParent qe) new None =
  insertInto p (insertInto q new None N) None doc.
Proof.
  intros doc p N qe q new k Hq Hk Hp Hqd HqN Hqn Hkd HkN.
  rewrite (handleInsert_append _ qe q new k Hq Hk).
  - now apply insertInto_nest.
  - apply ids_insertInto. right. now split.
  - exact Hqn.
  - intros H. apply ids_insertInto in H. tauto.
Qed.

Ltac eqb_norm :=
  repeat match goal with
         | |- context [Nat.eqb ?a ?b] =>
             first
               [ replace (Nat.eqb a b) with true
                   by (symmetry; apply Nat.eqb_eq; lia)
               | replace (Nat.eqb a b) with false
                   by (symmetry; apply Nat.eqb_neq; lia) ]
         end.

Lemma newVal_text : forall fresh cb ref,
  controlBlockReference (Some cb) = Some ref ->
  newVal fresh cb = Elem (fresh + 4) "Val" [] [Text ref].
Proof.
  intros fresh cb ref H. unfold newVal. rewrite H. simpl.
  pose proof (controlBlockReference_not_empty _ _ H) as Hne.
  apply String.eqb_neq in Hne. now rewrite Hne.
Qed.

(** The new logical node with the supervision inside, as the batch builds
    it up. *)
Definition assembledLN (fresh : NodeId) (ty lnType inst nm : string)
    (daiAttrs : Attrs) (ref : string) : Node :=
  Elem fresh "LN" [("lnClass", ty); ("lnType", lnType); ("inst", inst)]
    [Elem (fresh + 1) "Private" [("type", "OpenSCD.create")] [];
     Elem (fresh + 2) "DOI" [("name", nm)]
       [Elem (fresh + 3) "DAI" daiAttrs
          [Elem (fresh + 4) "Val" [] [Text ref]]]].

Lemma created_batch_applied :
  forall doc fresh par p ty lnType inst nm daiAttrs ref,
    elementId par = Some p -> In p (ids doc) -> p < fresh ->
    (forall k, fresh <= k -> ~ In k (ids doc)) ->
    handleEdits doc
      [Insert (ElementParent par) (createdLN fresh ty lnType inst) None;
       Insert (ElementParent (detached (createdLN fresh ty lnType inst)))
              (newDoi fresh nm) None;
       Insert (ElementParent (detached (newDoi fresh nm)))
              (Elem (fresh + 3) "DAI" daiAttrs []) None;
       Insert (ElementParent (detached (Elem (fresh + 3) "DAI" daiAttrs [])))
              (Elem (fresh + 4) "Val" [] [Text ref]) None]
    = insertInto p (assembledLN fresh ty lnType inst nm daiAttrs ref) None
                 doc.
Proof.
  intros doc fresh par p ty lnType inst nm daiAttrs ref Hp Hin Hlt Hfresh.
  set (priv := Elem (fresh + 1) "Private" [("type", "OpenSCD.create")] []).
  set (lnAttrs := [("lnClass", ty); ("lnType", lnType); ("inst", inst)]).
  set (ln := createdLN fresh ty lnType inst).
  set (doi := newDoi fresh nm).
  set (dai := Elem (fresh + 3) "DAI" daiAttrs []).
  set (val := Elem (fresh + 4) "Val" [] [Text ref]).
  unfold handleEdits. cbn [fold_left handleEdit].
  rewrite (handleInsert_append doc par p ln fresh Hp eq_refl Hin);
    [| simpl; intuition lia | apply Hfresh; lia].
  rewrite (handleInsert_below doc p ln (detached ln) fresh doi (fresh + 2)
             eq_refl eq_refl Hin);
    [| apply Hfresh; lia | simpl; tauto | simpl; intuition lia
     | apply Hfresh; lia | simpl; intuition lia].
  assert (E1 : insertInto fresh doi None ln
               = Elem fresh "LN" lnAttrs [priv; doi]).
  { unfold ln, createdLN. cbn [insertInto map place app]. eqb_norm.
    reflexivity. }
  rewrite E1. clear E1.
  rewrite (handleInsert_below doc p (Elem fresh "LN" lnAttrs [priv; doi])
             (detached doi) (fresh + 2) dai (fresh + 3)
             eq_refl eq_refl Hin);
    [| apply Hfresh; lia | simpl; tauto | simpl; intuition lia
     | apply Hfresh; lia | simpl; intuition lia].
  assert (E2 : insertInto (fresh + 2) dai None
                 (Elem fresh "LN" lnAttrs [priv; doi])
               = Elem fresh "LN" lnAttrs
                   [priv; Elem (fresh + 2) "DOI" [("name", nm)] [dai]]).
  { unfold priv, doi, newDoi. cbn [insertInto map place app createElement
      setAttribute putAttr]. eqb_norm. reflexivity. }
  rewrite E2. clear E2.
  rewrite (handleInsert_below doc p
             (Elem fresh "LN" lnAttrs
                [priv; Elem (fresh + 2) "DOI" [("name", nm)] [dai]])
             (detached dai) (fresh + 3) val (fresh + 4)
             eq_refl eq_refl Hin);
    [| apply Hfresh; lia | simpl; tauto | simpl; intuition lia
     | apply Hfresh; lia | simpl; intuition lia].
  f_equal. unfold assembledLN, priv, dai. cbn [insertInto map place app].
  eqb_norm. reflexivity.
Qed.

(** The elements of a document after an insertion at the end of [p]: those
    it had, and those of the node inserted, below an element [p]. *)
Lemma walk_insertInto : forall p N n up e,
  In e (walk (map (insertInto p N None) up) (insertInto p N None n)) ->
  (exists e0, In e0 (walk up n) /\ e = lift (insertInto p N None) e0) \/
  (exists pe, In pe (walk up n) /\ hasId p (node pe) = true /\
              In e (walk (node (lift (insertInto p N None) pe)
                          :: ancestors (lift (insertInto p N None) pe)) N)).
Proof.
  intros p N. induction n as [s | i t a cs IH] using Node_tree_ind;
    intros up e H; [contradiction |].
  set (I := insertInto p N None) in *.
  assert (Hn : I (Elem i t a cs) =
               Elem i t a (map I cs ++ if Nat.eqb i p then [N] else [])).
  { unfold I. cbn [insertInto]. unfold place.
    destruct (Nat.eqb i p); [reflexivity | now rewrite app_nil_r]. }
  rewrite Hn in H. cbn [walk] in H. rewrite <- Hn in H.
  destruct H as [<- | H].
  - left. exists (mkElement (Elem i t a cs) up).
    split; [now left | reflexivity].
  - rewrite flat_map_app in H. apply in_app_or in H.
    destruct H as [H | H].
    + apply in_flat_map in H. destruct H as [c' [Hc' He]].
      apply in_map_iff in Hc'. destruct Hc' as [c [<- Hc]].
      rewrite Forall_forall in IH.
      change (I (Elem i t a cs) :: map I up)
        with (map I (Elem i t a cs :: up)) in He.
      destruct (IH c Hc _ _ He) as [[e0 [H0 ->]] | [pe [Hpe [Hid Hin]]]].
      * left. exists e0. split; [| reflexivity].
        right. apply in_flat_map. now exists c.
      * right. exists pe. split; [| now split].
        right. apply in_flat_map. now exists c.
    + destruct (Nat.eqb i p) eqn:E; [| contradiction].
      cbn [flat_map] in H. rewrite app_nil_r in H.
      right. exists (mkElement (Elem i t a cs) up).
      split; [now left |]. split; [| exact H].
      simpl. rewrite Nat.eqb_sym. exact E.
Qed.

(** The supervision values of the device hold text only, as the schema has
    it. *)
Definition valuesHoldText (ied : Element) (cbTagName : string) : bool :=
  forallb (fun v => forallb (fun c => negb (isElem c)) (childrenOf (node v)))
          (getSupervisionCbRefs ied cbTagName).

Lemma fresh_not_in_ids : forall doc fresh k,
  freshFor doc fresh -> fresh <= k -> ~ In k (ids doc).
Proof.
  intros doc fresh k Hf Hk H. apply (ids_In_walk doc []) in H.
  destruct H as [e [Hin He]]. pose proof (Hf e k Hin He). lia.
Qed.

Lemma inDocument_ids : forall doc e p,
  inDocument doc e -> elementId e = Some p -> In p (ids doc).
Proof.
  intros doc e p Hin He. apply (ids_In_walk doc []). now exists e.
Qed.

Section CreatedDocument.

Variables (doc : Document) (fresh : NodeId) (cb ied : Element)
          (ref : string).
Hypothesis unique : uniqueIds doc.
Hypothesis bounded : freshFor doc fresh.
Hypothesis cb_in : inDocument doc cb.
Hypothesis ied_in : inDocument doc ied.
Hypothesis ied_tag : tagName ied = "IED".
Hypothesis cb_tag :
  tagName cb = "GSEControl" \/ tagName cb = "SampledValueControl".
Hypothesis reference : controlBlockReference (Some cb) = Some ref.

(** The document after the batch that creates a logical node: the document
    before it, with the assembled logical node at the end of the parent of
    the first logical node of the class. *)
Lemma created_document : forall minInst ln first,
  querySelector ied (lnOfClass (supervisionTypeOf (tagName cb)))
    = Some first ->
  createNewSupervisionLnInst minInst fresh cb ied
    (supervisionTypeOf (tagName cb)) = Some ln ->
  exists par p lnType inst attrs,
    parentElement first = Some par /\ inDocument doc par /\
    elementId par = Some p /\
    handleEdits doc
      (supervisionEdits fresh cb ied ln
         (insertOfSupervisionLN ied ln (supervisionTypeOf (tagName cb))))
    = insertInto p
        (assembledLN fresh (supervisionTypeOf (tagName cb)) lnType inst
           (supervisionNameOf (supervisionTypeOf (tagName cb))) attrs ref)
        None doc.
Proof.
  intros minInst ln first Hfirst Hnew.
  set (ty := supervisionTypeOf (tagName cb)) in *.
  destruct (createNewSupervisionLnInst_shape _ _ _ _ _ _ Hnew)
    as [lnType [inst ->]].
  destruct (insertOfSupervisionLN_created doc ied unique ied_in ty first
              (createdLN fresh ty lnType inst) Hfirst)
    as [par [Hpin [Hpw Hins]]].
  assert (Hpar : parentElement first = Some par).
  { unfold insertOfSupervisionLN in Hins.
    cbn [parentElement detached ancestors node] in Hins.
    rewrite Hfirst in Hins.
    destruct (parentElement first) as [par0 |]; [| discriminate].
    now injection Hins as ->. }
  destruct (inDocument_id doc par Hpin) as [p Hp].
  destruct (newDai_shape fresh ied ty (supervisionNameOf ty))
    as [attrs [Hdai _]].
  exists par, p, lnType, inst, attrs.
  split; [exact Hpar |]. split; [exact Hpin |]. split; [exact Hp |].
  rewrite Hins.
  unfold supervisionEdits, supervisionDoi, supervisionDai.
  fold ty. set (nm := supervisionNameOf ty).
  change (querySelector (detached (createdLN fresh ty lnType inst))
            [Sel [STag "DOI"; SAttr "name" nm]]) with (@None Element).
  change (querySelector (detached (createdLN fresh ty lnType inst))
            [doiDai nm]) with (@None Element).
  cbn iota beta. rewrite supervisionVal_eq.
  change (querySelector (detached (createdLN fresh ty lnType inst))
            [Sel [STag "Val"]]) with (@None Element).
  unfold removalEdits. rewrite (newVal_text fresh cb ref reference).
  fold nm in Hdai. rewrite Hdai. cbn [app].
  apply created_batch_applied.
  - exact Hp.
  - exact (inDocument_ids doc par p Hpin Hp).
  - exact (bounded par p Hpin Hp).
  - intros k Hk. exact (fresh_not_in_ids doc fresh k bounded Hk).
Qed.

End CreatedDocument.

Lemma assembled_value : forall fresh ty lnType inst nm attrs ref up v dai doi ln,
  In v (walk up (assembledLN fresh ty lnType inst nm attrs ref)) ->
  tagName v = "Val" ->
  parentElement v = Some dai -> parentElement dai = Some doi ->
  parentElement doi = Some ln ->
  elementId ln = Some fresh /\ isOpenScdCreated ln = true.
Proof.
  intros fresh ty lnType inst nm attrs ref up v dai doi ln Hin Htag Hd Ho Hl.
  unfold assembledLN in Hin. cbn [walk flat_map app] in Hin.
  destruct Hin as [<- | [<- | [<- | [<- | [<- | []]]]]];
    try discriminate Htag.
  cbn [parentElement ancestors] in Hd. injection Hd as <-.
  cbn [parentElement ancestors] in Ho. injection Ho as <-.
  cbn [parentElement ancestors] in Hl. injection Hl as <-.
  split; reflexivity.
Qed.

Lemma textOnly_insertInto : forall p N n,
  forallb (fun c => negb (isElem c)) (childrenOf n) = true ->
  hasId p n = false ->
  insertInto p N None n = n.
Proof.
  intros p N [i t a cs | s] Hcs Hp; [| reflexivity].
  apply insertInto_absent. simpl in *. intros [-> | H].
  - now rewrite Nat.eqb_refl in Hp.
  - apply in_flat_map in H. destruct H as [c [Hc Hx]].
    rewrite forallb_forall in Hcs. specialize (Hcs c Hc).
    destruct c; [discriminate | contradiction].
Qed.

Section CreatedThenRemoved.

Variables (doc : Document) (fresh : NodeId) (cb ied : Element)
          (ref : string).
Hypothesis unique : uniqueIds doc.
Hypothesis bounded : freshFor doc fresh.
Hypothesis cb_in : inDocument doc cb.
Hypothesis ied_in : inDocument doc ied.
Hypothesis ied_tag : tagName ied = "IED".
Hypothesis reference : controlBlockReference (Some cb) = Some ref.
Hypothesis text_only : valuesHoldText ied (tagName cb) = true.
Hypothesis not_supervised :
  forall val, In val (getSupervisionCbRefs ied (tagName cb)) ->
    holdsReference (controlBlockReference (Some cb)) val = false.

Variables (p : NodeId) (par : Element) (N : Node).
Hypothesis par_in : inDocument doc par.
Hypothesis par_id : elementId par = Some p.
Hypothesis par_child :
  exists c, In c (childrenOf (node par)) /\ isElem c = true.

(** A value of the document before the insertion cannot be what the search
    finds afterwards. *)
Lemma old_value_not_found : forall cb' ied' v0,
  sigs cb' = sigs cb -> sigs ied' = sigs ied ->
  inDocument doc v0 ->
  In (lift (insertInto p N None) v0)
     (getSupervisionCbRefs ied' (tagName cb')) ->
  holdsReference (controlBlockReference (Some cb'))
                 (lift (insertInto p N None) v0) = true ->
  False.
Proof.
  intros cb' ied' v0 Hcb Hied Hv0 Hin Hholds.
  set (I := insertInto p N None) in *.
  assert (HI : preservesSig I) by (intros n; apply insertInto_sig).
  assert (Hsv : sigs (lift I v0) = sigs v0) by now apply sigs_lift.
  assert (Htagcb : tagName cb' = tagName cb) by now apply sigs_tag.
  rewrite Htagcb in Hin.
  destruct (getSupervisionCbRefs_path _ _ _ Hin)
    as [Hdesc [lnTag [dai [doi [ln [_ Hpath]]]]]].
  assert (Hvt : tagName v0 = "Val").
  { rewrite <- (sigs_tag _ _ Hsv). exact (path_val_tag _ _ _ _ _ _ _ Hpath). }
  (* the device is above the value in the document before *)
  assert (Hwithin : within v0 ied).
  { destruct (descendants_ancestors _ _ Hdesc) as [rel Hrel].
    cbn [lift ancestors] in Hrel.
    apply map_eq_app in Hrel. destruct Hrel as [l1 [l2' [Hanc [_ Hl2]]]].
    apply map_eq_cons in Hl2. destruct Hl2 as [a [l2 [-> [Ha _]]]].
    destruct (ancestor_inDocument doc v0 l1 a l2 Hv0 Hanc) as [Hain _].
    assert (Heq : mkElement a l2 = ied).
    { apply (unique_element doc); try assumption.
      rewrite <- (sigs_id _ _ Hied). unfold elementId. cbn [node].
      rewrite <- Ha. destruct a; reflexivity. }
    exists (node v0 :: l1). rewrite Hanc, <- Heq. reflexivity. }
  assert (Hd0 : In v0 (descendants ied)).
  { apply (within_descendants doc); try assumption.
    rewrite Hvt, ied_tag. discriminate. }
  assert (Hin0 : In v0 (getSupervisionCbRefs ied (tagName cb))).
  { unfold getSupervisionCbRefs in *.
    apply querySelectorAll_In in Hin. destruct Hin as [_ Hm].
    apply querySelectorAll_In. split; [exact Hd0 |].
    rewrite <- (sigs_id _ _ Hied).
    rewrite <- (matches_sigs _ _ _ _
                  (supervision_selector_structural _ _) Hsv).
    exact Hm. }
  assert (Htext : forallb (fun c => negb (isElem c)) (childrenOf (node v0))
                  = true).
  { unfold valuesHoldText in text_only. rewrite forallb_forall in text_only.
    now apply text_only. }
  assert (Hnode : I (node v0) = node v0).
  { apply textOnly_insertInto; [exact Htext |].
    destruct (hasId p (node v0)) eqn:E; [| reflexivity]. exfalso.
    assert (Heq : v0 = par).
    { apply (unique_element doc); try assumption.
      rewrite par_id, <- (element_eta v0). now apply hasId_elementId. }
    subst v0. destruct par_child as [c [Hc Hel]].
    rewrite forallb_forall in Htext. specialize (Htext c Hc).
    now rewrite Hel in Htext. }
  rewrite (controlBlockReference_sigs cb' cb Hcb) in Hholds.
  pose proof (not_supervised v0 Hin0) as Hn.
  unfold holdsReference in *. cbn [lift node] in Hholds.
  rewrite Hnode in Hholds. congruence.
Qed.

End CreatedThenRemoved.

(** X24: When no logical node of the device is free, a new supervision goes into
    a logical node of its own, and taking the supervision away again gives
    back the document as it was: after the batch of
    [instantiateSubscriptionSupervision] is applied, the batch of
    [removeSubscriptionSupervision] for the control block and the device, as
    they are then found in the document, removes that logical node, and
    applying it restores the document from before. *)
Theorem supervision_created_then_removed :
  forall (minInst : list Element -> option string) (doc : Document)
         (fresh : NodeId) (cb ied : Element) (ref : string),
    uniqueIdsb doc = true ->
    freshForb doc fresh = true ->
    inDocument doc cb -> inDocument doc ied ->
    tagName ied = "IED" ->
    tagName cb = "GSEControl" \/ tagName cb = "SampledValueControl" ->
    controlBlockReference (Some cb) = Some ref ->
    valuesHoldText ied (tagName cb) = true ->
    (forall ln,
       In ln (querySelectorAll ied
                (lnOfClass (supervisionTypeOf (tagName cb)))) ->
       isAvailableLN (supervisionTypeOf (tagName cb)) ln = false) ->
    instantiateSubscriptionSupervision minInst doc fresh (Some cb) (Some ied)
                                       None <> [] ->
    exists cb' ied' ln,
      inDocument
        (handleEdits doc
           (instantiateSubscriptionSupervision minInst doc fresh (Some cb)
                                               (Some ied) None)) cb' /\
      inDocument
        (handleEdits doc
           (instantiateSubscriptionSupervision minInst doc fresh (Some cb)
                                               (Some ied) None)) ied' /\
      elementId cb' = elementId cb /\ elementId ied' = elementId ied /\
      removeSubscriptionSupervision (Some cb') (Some ied')
        = [Remove (Some ln)] /\
      elementId ln = Some fresh /\
      handleEdits
        (handleEdits doc
           (instantiateSubscriptionSupervision minInst doc fresh (Some cb)
                                               (Some ied) None))
        (removeSubscriptionSupervision (Some cb') (Some ied')) = doc.
Proof.
  intros minInst doc fresh cb ied ref Hu Hf Hcb Hied Htag Hcbtag Href Htext
         Hnone Hbatch.
  apply uniqueIdsb_sound in Hu. apply freshForb_sound in Hf.
  rewrite instantiate_unfold in *. cbv zeta in *.
  remember (supervisionTypeOf (tagName cb)) as ty eqn:Ety.
  destruct (isSupervisionAllowed doc cb ied ty) eqn:Ea; [| now elim Hbatch].
  destruct (findOrCreateAvailableLNInst minInst fresh cb ied ty)
    as [ln |] eqn:El; [| now elim Hbatch].
  destruct (isSupervisionModificationAllowed doc ied ty);
    [| now elim Hbatch].
  clear Hbatch.
  assert (Hnew : createNewSupervisionLnInst minInst fresh cb ied ty
                 = Some ln).
  { unfold findOrCreateAvailableLNInst in El.
    destruct (find (isAvailableLN ty) (querySelectorAll ied (lnOfClass ty)))
      as [f |] eqn:Ef; [| exact El].
    apply find_some in Ef. destruct Ef as [Hin Hav].
    rewrite (Hnone f Hin) in Hav. discriminate. }
  apply isSupervisionAllowed_spec in Ea.
  destruct Ea as [[_ [Hq Hnot]] _].
  destruct (querySelector ied (lnOfClass ty)) as [first |] eqn:Efirst;
    [| now elim Hq].
  clear Hq.
  rewrite Ety in Efirst, Hnew.
  destruct (created_found doc fresh cb ied ref Hu Hf Hcb Hied Htag Hcbtag
              Href minInst ln first Efirst Hnew)
    as [T [HT [Hcb' [Hied' [[v [Hv _]] _]]]]].
  destruct (created_document doc fresh cb ied ref Hu Hf Hied Href
              minInst ln first Efirst Hnew)
    as [par [p [lnType [inst [attrs [Hpar [Hpin [Hp Hdoc]]]]]]]].
  subst ty.
  set (ty := supervisionTypeOf (tagName cb)) in *.
  set (batch := supervisionEdits fresh cb ied ln
                  (insertOfSupervisionLN ied ln ty)) in *.
  set (A := assembledLN fresh ty lnType inst (supervisionNameOf ty) attrs ref)
    in *.
  assert (Hsc : sigs (lift T cb) = sigs cb) by now apply sigs_lift.
  assert (Hsi : sigs (lift T ied) = sigs ied) by now apply sigs_lift.
  assert (Htag' : tagName (lift T ied) = "IED")
    by (rewrite <- Htag; now apply sigs_tag).
  destruct (removal_of_found _ _ _ Htag' Hv)
    as [dai [doi [ln' [Hd [Ho [Hl [_ [_ Hrem]]]]]]]].
  destruct (findSupervisionVal_some _ _ _ Hv) as [Hvin Hvref].
  destruct (getSupervisionCbRefs_path _ _ _ Hvin)
    as [Hvdesc [lnTag [dai0 [doi0 [ln0 [_ Hpath]]]]]].
  pose proof (path_val_tag _ _ _ _ _ _ _ Hpath) as Hvt.
  destruct (descendants_inDocument _ _ _ Hied' Hvdesc) as [Hvdoc _].
  rewrite Hdoc in Hvdoc. unfold inDocument in Hvdoc.
  change (@nil Node) with (map (insertInto p A None) []) in Hvdoc.
  apply walk_insertInto in Hvdoc.
  destruct Hvdoc as [[v0 [Hv0 ->]] | [pe [_ [_ Hnewv]]]].
  - exfalso.
    assert (Hchild : exists c, In c (childrenOf (node par)) /\
                               isElem c = true).
    { apply querySelector_Some in Efirst. destruct Efirst as [Hfd _].
      destruct (descendants_inDocument _ _ _ Hied Hfd) as [Hfin _].
      pose proof (parentElement_Some _ _ Hpar) as Hanc.
      exact (proj2 (ancestor_inDocument doc first [] (node par)
                      (ancestors par) Hfin Hanc)). }
    eapply (old_value_not_found doc cb ied Hu Hied Htag Htext Hnot
              p par A Hpin Hp Hchild (lift T cb) (lift T ied) v0);
      try assumption.
    unfold holdsReference. rewrite Hvref. apply String.eqb_refl.
  - destruct (assembled_value _ _ _ _ _ _ _ _ _ _ _ _ Hnewv Hvt Hd Ho Hl)
      as [Hid Hcreated].
    rewrite Hcreated in Hrem.
    exists (lift T cb), (lift T ied), ln'.
    split; [exact Hcb' |]. split; [exact Hied' |].
    split; [now apply sigs_id |]. split; [now apply sigs_id |].
    split; [exact Hrem |]. split; [exact Hid |].
    rewrite Hrem, (handleEdits_remove _ _ _ Hid), Hdoc.
    rewrite removeById_insertInto by (unfold A; simpl; apply Nat.eqb_refl).
    apply removeById_absent.
    exact (fresh_not_in_ids doc fresh fresh Hf (le_n _)).
Qed.

(** X24, witness: [SUB] has no free logical node; the supervision of [gcb1]
    takes four edits, and its removal gives back the station. *)
Lemma supervision_created_then_removed_witness :
  length
    (instantiateSubscriptionSupervision minAvailableInstance withoutFreeSlot
       100 (Some (elementAt withoutFreeSlot 6))
       (Some (elementAt withoutFreeSlot 20)) None) = 4 /\
  exists cb' ied',
    handleEdits
      (handleEdits withoutFreeSlot
         (instantiateSubscriptionSupervision minAvailableInstance
            withoutFreeSlot 100 (Some (elementAt withoutFreeSlot 6))
            (Some (elementAt withoutFreeSlot 20)) None))
      (removeSubscriptionSupervision (Some cb') (Some ied'))
    = withoutFreeSlot.
Proof.
  split; [reflexivity |].
  destruct (supervision_created_then_removed minAvailableInstance
              withoutFreeSlot 100 (elementAt withoutFreeSlot 6)
              (elementAt withoutFreeSlot 20) "PUBLD0/LLN0.gcb1")
    as [cb' [ied' [ln [_ [_ [_ [_ [_ [_ H]]]]]]]]].
  - reflexivity.
  - reflexivity.
  - apply inDocument_elementAt. vm_compute. discriminate.
  - apply inDocument_elementAt. vm_compute. discriminate.
  - reflexivity.
  - now left.
  - reflexivity.
  - reflexivity.
  - intros ln Hln. vm_compute in Hln.
    destruct Hln as [<- | [<- | []]]; reflexivity.
  - vm_compute. discriminate.
  - now exists cb', ied'.
Defined.
